(** * Job execution orchestrator of the AI Threat Modeler backend

    A shallow embedding of
    - [backend/src/routes/threatModeling.ts] (ChdirMutex, extractZip,
      detectRepoMetadata, processThreatModelingJob and the DELETE route) and
    - [backend/src/models/threatModelingJob.ts] (ThreatModelingJobModel),
    then of the permission middleware, the read routes of the jobs, the
    settings model with [utils/encryption.ts] and the settings routes, and
    the cleanup of orphaned uploads,
    followed by the properties proved about them.

    Conventions.  JavaScript strings are modelled by [string]: sequences of
    code units below 256.  A value thrown by JavaScript code is a [thrown].
    Everything the code asks of the outside world (file system listings, the
    settings store, the agent subprocess, the moment a DELETE request
    arrives) is read from an [Env] record, so that every function below is
    a total, executable function of its inputs. *)

From Stdlib Require Import ZArith Lia Bool Ascii String List DecimalString.
From Stdlib Require QArith.
From stdpp Require Import gmap strings list sorting.
Import ListNotations.
Local Open Scope list_scope.
Local Open Scope string_scope.

(* ===================================================================== *)
(** * 1. JavaScript string primitives used by the routes                  *)
(* ===================================================================== *)

Definition code (c : ascii) : nat := nat_of_ascii c.

(** [String.prototype.toLowerCase] on code units below 256: A-Z and the
    Latin-1 capitals (0xC0-0xDE except the multiplication sign 0xD7) are
    shifted by 32, every other code unit is its own lower case. *)
Definition lower_char (c : ascii) : ascii :=
  let n := code c in
  if (Nat.leb 65 n && Nat.leb n 90)
     || (Nat.leb 192 n && Nat.leb n 222 && negb (Nat.eqb n 215))
  then ascii_of_nat (n + 32) else c.

Fixpoint toLowerCase (s : string) : string :=
  match s with
  | EmptyString => EmptyString
  | String c s' => String (lower_char c) (toLowerCase s')
  end.

(** [s.startsWith(p)] *)
Fixpoint startsWith (s p : string) : bool :=
  match p, s with
  | EmptyString, _ => true
  | String _ _, EmptyString => false
  | String b p', String a s' => if Ascii.eqb a b then startsWith s' p' else false
  end.

(** [s.includes(sub)] *)
Fixpoint includes (s sub : string) : bool :=
  startsWith s sub ||
  match s with
  | EmptyString => false
  | String _ s' => includes s' sub
  end.

(** [s.split(sep)] for a one-character separator: never the empty list. *)
Fixpoint split_on (sep : ascii) (s : string) : list string :=
  match s with
  | EmptyString => [EmptyString]
  | String c s' =>
      if Ascii.eqb c sep then EmptyString :: split_on sep s'
      else match split_on sep s' with
           | [] => [String c EmptyString]
           | seg :: rest => String c seg :: rest
           end
  end.

(** [parts.join(sep)] *)
Fixpoint join (sep : string) (parts : list string) : string :=
  match parts with
  | [] => EmptyString
  | [p] => p
  | p :: rest => p ++ sep ++ join sep rest
  end.

(** [arr.slice(-n)]: the last [n] elements (all of them when fewer). *)
Definition slice_last {A} (n : nat) (l : list A) : list A :=
  skipn (List.length l - n) l.

(** Template-literal rendering of an integer. *)
Definition string_of_Z (z : Z) : string := NilZero.string_of_int (Z.to_int z).

(** JavaScript truthiness of a [string | null | undefined] value. *)
Definition truthy (v : option string) : bool :=
  match v with
  | Some (String _ _) => true
  | _ => false
  end.

(** A thrown value: an [Error] with its message, or something else. *)
Inductive thrown : Type :=
| JsError (message : string)
| JsOther.

(** Outcome of a call that may throw. *)
Inductive Result (A : Type) : Type :=
| Ok (a : A)
| Throw (e : thrown).
Arguments Ok {A} a.
Arguments Throw {A} e.

(** [error instanceof Error ? error.message : fallback] *)
Definition message_or (fallback : string) (e : thrown) : string :=
  match e with
  | JsError m => m
  | JsOther => fallback
  end.

(* ===================================================================== *)
(** * 2. ChdirMutex                                                       *)
(* ===================================================================== *)

(** A caller is named by the ticket of its [acquire()] call.  The closures
    pushed on [queue] differ only in the promise they resolve, so the queue
    is the list of waiting tickets.  [holders], [granted] and [arrived] are
    ghost fields: who was handed a release callback and has not invoked it
    since, the order in which promises were resolved, and the order in which
    [acquire()] was called. *)
Record ChdirMutex : Type := mkMutex {
  locked : bool;
  queue : list nat;
  holders : list nat;
  granted : list nat;
  arrived : list nat
}.

Definition mutex_init : ChdirMutex :=
  {| locked := false; queue := []; holders := []; granted := []; arrived := [] |}.

(** [this.locked = true; resolve(release)] for the promise of ticket [c]. *)
Definition grant (c : nat) (m : ChdirMutex) : ChdirMutex :=
  {| locked := true;
     queue := queue m;
     holders := holders m ++ [c];
     granted := granted m ++ [c];
     arrived := arrived m |}.

(** [ChdirMutex.acquire()] called with ticket [c]. *)
Definition acquire (c : nat) (m : ChdirMutex) : ChdirMutex :=
  let m' := {| locked := locked m; queue := queue m; holders := holders m;
               granted := granted m; arrived := arrived m ++ [c] |} in
  if negb (locked m') then grant c m'
  else {| locked := locked m'; queue := queue m' ++ [c]; holders := holders m';
          granted := granted m'; arrived := arrived m' |}.

Fixpoint remove_first (c : nat) (l : list nat) : list nat :=
  match l with
  | [] => []
  | x :: l' => if Nat.eqb x c then l' else x :: remove_first c l'
  end.

(** The release callback handed to ticket [c], invoked.  Its code is the
    same for every ticket: clear [locked], then run the first queued
    closure if there is one. *)
Definition release (c : nat) (m : ChdirMutex) : ChdirMutex :=
  let m1 := {| locked := false; queue := queue m;
               holders := remove_first c (holders m);
               granted := granted m; arrived := arrived m |} in
  match queue m1 with
  | [] => m1
  | next :: rest =>
      grant next {| locked := locked m1; queue := rest; holders := holders m1;
                    granted := granted m1; arrived := arrived m1 |}
  end.

Inductive mutex_event : Type :=
| Acquire (c : nat)
| Release (c : nat).

Definition mutex_step (m : ChdirMutex) (e : mutex_event) : ChdirMutex :=
  match e with
  | Acquire c => acquire c m
  | Release c => release c m
  end.

Definition mutex_run (m : ChdirMutex) (tr : list mutex_event) : ChdirMutex :=
  fold_left mutex_step tr m.


(* ===================================================================== *)
(** * 3. POSIX [path] functions of the Node.js runtime                    *)
(* ===================================================================== *)

Definition endsWith_slash (p : string) : bool :=
  match rev (list_ascii_of_string p) with
  | c :: _ => Ascii.eqb c "/"
  | [] => false
  end.

(** Segment resolution of [normalizeString]: [stack] is the reversed list of
    the segments kept so far. *)
Fixpoint norm_segs (allowAboveRoot : bool) (stack segs : list string) : list string :=
  match segs with
  | [] => rev stack
  | seg :: rest =>
      if String.eqb seg "" || String.eqb seg "." then norm_segs allowAboveRoot stack rest
      else if String.eqb seg ".." then
        match stack with
        | top :: stack' =>
            if String.eqb top ".." then norm_segs allowAboveRoot (".." :: stack) rest
            else norm_segs allowAboveRoot stack' rest
        | [] =>
            if allowAboveRoot then norm_segs allowAboveRoot [".."] rest
            else norm_segs allowAboveRoot [] rest
        end
      else norm_segs allowAboveRoot (seg :: stack) rest
  end.

(** [path.normalize(p)] *)
Definition normalize (p : string) : string :=
  if String.eqb p "" then "."
  else
    let isAbsolute := startsWith p "/" in
    let trailingSeparator := endsWith_slash p in
    let body := join "/" (norm_segs (negb isAbsolute) [] (split_on "/" p)) in
    if String.eqb body "" then
      (if isAbsolute then "/" else if trailingSeparator then "./" else ".")
    else
      (if isAbsolute then "/" else "") ++ body ++ (if trailingSeparator then "/" else "").

(** [path.join(...parts)] *)
Definition path_join (parts : list string) : string :=
  match List.filter (fun s => negb (String.eqb s "")) parts with
  | [] => "."
  | nonempty => normalize (join "/" nonempty)
  end.

(** The backwards scan of [path.dirname]: [rev_tail] holds the characters at
    indices [i], [i-1], ..., [1]. *)
Fixpoint dirname_scan (rev_tail : list ascii) (i : nat) (matchedSlash : bool) : option nat :=
  match rev_tail with
  | [] => None
  | c :: rest =>
      if Ascii.eqb c "/" then
        (if matchedSlash then dirname_scan rest (i - 1) true else Some i)
      else dirname_scan rest (i - 1) false
  end.

(** [path.dirname(p)] *)
Definition dirname (p : string) : string :=
  match p with
  | EmptyString => "."
  | String c0 tl =>
      let hasRoot := Ascii.eqb c0 "/" in
      match dirname_scan (rev (list_ascii_of_string tl)) (String.length tl) true with
      | None => if hasRoot then "/" else "."
      | Some e => if hasRoot && Nat.eqb e 1 then "//" else substring 0 e p
      end
  end.

(** [path.basename(p)]: the last non-empty segment, [""] when there is none. *)
Definition basename (p : string) : string :=
  match List.filter (fun s => negb (String.eqb s "")) (rev (split_on "/" p)) with
  | [] => ""
  | seg :: _ => seg
  end.

(** [path.resolve(p)] with the process working directory [cwd] (absolute). *)
Definition path_resolve (cwd p : string) : string :=
  let full := if startsWith p "/" then p else cwd ++ "/" ++ p in
  "/" ++ join "/" (norm_segs false [] (split_on "/" full)).

(** A path is inside directory [dir] when it is [dir] itself or lies below
    it: [dir] followed by a separator. Both are normalized absolute paths. *)
Definition inside_dir (dir p : string) : bool :=
  String.eqb p dir || startsWith p (if endsWith_slash dir then dir else dir ++ "/").

(* ===================================================================== *)
(** * 4. Archive ingestion: extractZip                                    *)
(* ===================================================================== *)

(** The part of the file system the extraction touches. *)
Record FileSys : Type := mkFS {
  fs_dirs : gset string;
  fs_files : gmap string string
}.

Definition existsSync (fs : FileSys) (p : string) : bool :=
  bool_decide (p ∈ fs_dirs fs) || bool_decide (is_Some (fs_files fs !! p)).

(** [p] and its ancestors, nearest first; [fuel] bounds the climb. *)
Fixpoint ancestors (fuel : nat) (p : string) : list string :=
  match fuel with
  | O => [p]
  | S fuel' =>
      let d := dirname p in
      if String.eqb d p then [p] else p :: ancestors fuel' d
  end.

(** [fs.mkdirSync(p, { recursive: true })]: throws when a component of [p]
    is a regular file. *)
Definition mkdirSync (p : string) (fs : FileSys) : Result FileSys :=
  let chain := ancestors (String.length p) p in
  if existsb (fun a => bool_decide (is_Some (fs_files fs !! a))) chain
  then Throw (JsError ("ENOTDIR: not a directory, mkdir '" ++ p ++ "'"))
  else Ok {| fs_dirs := list_to_set chain ∪ fs_dirs fs; fs_files := fs_files fs |}.

(** What reading one archive entry yields. *)
Inductive ReadOutcome : Type :=
| ReadError (e : thrown)          (* openReadStream reports err *)
| NoStream                        (* neither err nor a stream *)
| Stream (data : string) (writeFails : option thrown).

Record Entry : Type := mkEntry {
  fileName : string;
  readOutcome : ReadOutcome
}.

(** How the promise returned by [extractZip] ends.  [Uncaught] is an
    exception thrown inside an event handler, which no [reject] sees. *)
Inductive ExtractOutcome : Type :=
| Resolved
| Rejected (e : thrown)
| Uncaught (e : thrown).

(** [/\/$/.test(entry.fileName)] *)
Definition is_directory_entry (name : string) : bool := endsWith_slash name.

(** The ['entry'] handler run over the entries in archive order; the
    third result is the list of entries whose content was written, with the
    path written to. *)
Fixpoint extract_entries (extractTo : string) (entries : list Entry)
    (fs : FileSys) (written : list (string * string))
  : ExtractOutcome * FileSys * list (string * string) :=
  match entries with
  | [] => (Resolved, fs, written)                      (* 'end' *)
  | entry :: rest =>
      if is_directory_entry (fileName entry) then
        extract_entries extractTo rest fs written
      else
        let fullPath := path_join [extractTo; fileName entry] in
        let normalizedPath := normalize fullPath in
        if negb (startsWith normalizedPath (normalize extractTo)) then
          extract_entries extractTo rest fs written
        else
          let parentDir := dirname normalizedPath in
          match (if existsSync fs parentDir then Ok fs else mkdirSync parentDir fs) with
          | Throw e => (Uncaught e, fs, written)
          | Ok fs1 =>
              match readOutcome entry with
              | ReadError e => (Rejected e, fs1, written)
              | NoStream => extract_entries extractTo rest fs1 written
              | Stream data writeFails =>
                  match writeFails with
                  | Some e => (Rejected e, fs1, written)
                  | None =>
                      if bool_decide (normalizedPath ∈ fs_dirs fs1) then
                        (Rejected (JsError ("EISDIR: illegal operation on a directory, open '"
                                            ++ normalizedPath ++ "'")), fs1, written)
                      else
                        extract_entries extractTo rest
                          {| fs_dirs := fs_dirs fs1;
                             fs_files := <[normalizedPath := data]> (fs_files fs1) |}
                          (written ++ [(fileName entry, normalizedPath)])
                  end
              end
          end
  end.

(** What [yauzl.open] hands to its callback. *)
Inductive OpenOutcome : Type :=
| OpenError (e : thrown)
| OpenNothing
| Opened (entries : list Entry).

Definition extractZip (opened : OpenOutcome) (extractTo : string) (fs : FileSys)
  : ExtractOutcome * FileSys * list (string * string) :=
  match opened with
  | OpenError e => (Rejected e, fs, [])
  | OpenNothing => (Rejected (JsError "Failed to open ZIP file"), fs, [])
  | Opened entries =>
      match (if existsSync fs extractTo then Ok fs else mkdirSync extractTo fs) with
      | Throw e => (Uncaught e, fs, [])
      | Ok fs1 => extract_entries extractTo entries fs1 []
      end
  end.

(* ===================================================================== *)
(** * 5. The persisted job record: ThreatModelingJobModel                 *)
(* ===================================================================== *)

Inductive JobStatus : Type := pending | processing | completed | failed.

Definition JobStatus_eqb (a b : JobStatus) : bool :=
  match a, b with
  | pending, pending | processing, processing
  | completed, completed | failed, failed => true
  | _, _ => false
  end.

(** A row of table [threat_modeling_jobs]; [None] is SQL NULL. *)
Record ThreatModelingJob : Type := mkJob {
  job_id : string;
  user_id : nat;
  repo_path : string;
  query : option string;
  status : JobStatus;
  report_path : option string;
  data_flow_diagram_path : option string;
  threat_model_path : option string;
  risk_registry_path : option string;
  error_message : option string;
  repo_name : option string;
  git_branch : option string;
  git_commit : option string;
  execution_duration : option Z;
  api_cost : option string;
  created_at : nat;
  updated_at : nat;
  completed_at : option nat
}.

(** [v || null] *)
Definition or_null (v : option string) : option string :=
  if truthy v then v else None.

(** An optional parameter left [undefined] ([None]) keeps the column. *)
Definition set_if_defined {A} (arg : option A) (old : A) : A :=
  match arg with
  | Some v => v
  | None => old
  end.

Module ThreatModelingJobModel.

Definition findById (jobs : gmap string ThreatModelingJob) (id : string)
  : Result ThreatModelingJob :=
  match jobs !! id with
  | Some job => Ok job
  | None => Throw (JsError "Job not found")
  end.

(** [jobId] is the fresh identifier drawn by [uuidv4()]; [now] is
    CURRENT_TIMESTAMP.  The INSERT names neither [completed_at] nor the
    report columns, which therefore start as NULL. *)
Definition create (jobId : string) (now : nat) (userId : nat) (repoPath : string)
    (q repoName gitBranch gitCommit : option string)
    (jobs : gmap string ThreatModelingJob)
  : gmap string ThreatModelingJob * Result ThreatModelingJob :=
  match jobs !! jobId with
  | Some _ =>
      (jobs, Throw (JsError "UNIQUE constraint failed: threat_modeling_jobs.id"))
  | None =>
      let jobs' :=
        <[jobId := {| job_id := jobId; user_id := userId; repo_path := repoPath;
                      query := or_null q; status := pending;
                      report_path := None; data_flow_diagram_path := None;
                      threat_model_path := None; risk_registry_path := None;
                      error_message := None;
                      repo_name := or_null repoName;
                      git_branch := or_null gitBranch;
                      git_commit := or_null gitCommit;
                      execution_duration := None; api_cost := None;
                      created_at := now; updated_at := now;
                      completed_at := None |}]> jobs in
      (jobs', findById jobs' jobId)
  end.

(** The row after the UPDATE statement assembled by [updateStatus]. *)
Definition status_update (now : nat) (st : JobStatus)
    (reportPath errorMessage dataFlowDiagramPath threatModelPath riskRegistryPath
       : option (option string))
    (job : ThreatModelingJob) : ThreatModelingJob :=
  {| job_id := job_id job; user_id := user_id job; repo_path := repo_path job;
     query := query job;
     status := st;
     report_path := set_if_defined reportPath (report_path job);
     data_flow_diagram_path :=
       set_if_defined dataFlowDiagramPath (data_flow_diagram_path job);
     threat_model_path := set_if_defined threatModelPath (threat_model_path job);
     risk_registry_path := set_if_defined riskRegistryPath (risk_registry_path job);
     error_message := set_if_defined errorMessage (error_message job);
     repo_name := repo_name job; git_branch := git_branch job;
     git_commit := git_commit job;
     execution_duration := execution_duration job; api_cost := api_cost job;
     created_at := created_at job;
     updated_at := now;
     completed_at :=
       match st with
       | completed | failed => Some now
       | pending | processing => completed_at job
       end |}.

Definition updateStatus (now : nat) (id : string) (st : JobStatus)
    (reportPath errorMessage dataFlowDiagramPath threatModelPath riskRegistryPath
       : option (option string))
    (jobs : gmap string ThreatModelingJob)
  : gmap string ThreatModelingJob * Result ThreatModelingJob :=
  let jobs' :=
    alter (status_update now st reportPath errorMessage dataFlowDiagramPath
             threatModelPath riskRegistryPath) id jobs in
  (jobs', findById jobs' id).

Definition updateReports (now : nat) (id : string)
    (dataFlowDiagramPath threatModelPath riskRegistryPath : option string)
    (jobs : gmap string ThreatModelingJob) :=
  updateStatus now id completed
    (Some threatModelPath) (Some None)
    (Some dataFlowDiagramPath) (Some threatModelPath) (Some riskRegistryPath) jobs.

Definition updateErrorMessage (now : nat) (id : string) (errorMessage : string)
    (jobs : gmap string ThreatModelingJob) :=
  updateStatus now id failed (Some None) (Some (Some errorMessage)) None None None jobs.

Definition updateMetadata (now : nat) (id : string)
    (repoName gitBranch gitCommit : option string)
    (jobs : gmap string ThreatModelingJob)
  : gmap string ThreatModelingJob * Result ThreatModelingJob :=
  let jobs' :=
    alter (fun job =>
      {| job_id := job_id job; user_id := user_id job; repo_path := repo_path job;
         query := query job; status := status job;
         report_path := report_path job;
         data_flow_diagram_path := data_flow_diagram_path job;
         threat_model_path := threat_model_path job;
         risk_registry_path := risk_registry_path job;
         error_message := error_message job;
         repo_name := repoName; git_branch := gitBranch; git_commit := gitCommit;
         execution_duration := execution_duration job; api_cost := api_cost job;
         created_at := created_at job; updated_at := now;
         completed_at := completed_at job |}) id jobs in
  (jobs', findById jobs' id).

Definition updateExecutionMetrics (now : nat) (id : string)
    (executionDuration : option Z) (apiCost : option string)
    (jobs : gmap string ThreatModelingJob)
  : gmap string ThreatModelingJob * Result ThreatModelingJob :=
  let jobs' :=
    alter (fun job =>
      {| job_id := job_id job; user_id := user_id job; repo_path := repo_path job;
         query := query job; status := status job;
         report_path := report_path job;
         data_flow_diagram_path := data_flow_diagram_path job;
         threat_model_path := threat_model_path job;
         risk_registry_path := risk_registry_path job;
         error_message := error_message job;
         repo_name := repo_name job; git_branch := git_branch job;
         git_commit := git_commit job;
         execution_duration := executionDuration; api_cost := apiCost;
         created_at := created_at job; updated_at := now;
         completed_at := completed_at job |}) id jobs in
  (jobs', findById jobs' id).

Definition delete (id : string) (jobs : gmap string ThreatModelingJob)
  : gmap string ThreatModelingJob :=
  base.delete id jobs.

End ThreatModelingJobModel.

(** The invariant of the data model: [completed_at] is set exactly for the
    two terminal statuses. *)
Definition completed_at_consistent (job : ThreatModelingJob) : Prop :=
  completed_at job <> None <-> (status job = completed \/ status job = failed).

Definition table_consistent (jobs : gmap string ThreatModelingJob) : Prop :=
  forall id job, jobs !! id = Some job -> completed_at_consistent job.

(* ===================================================================== *)
(** * 6. Workspace isolation: the repository directory name               *)
(* ===================================================================== *)

Fixpoint drop_chars (n : nat) (s : string) : string :=
  match n, s with
  | S n', String _ s' => drop_chars n' s'
  | _, _ => s
  end.

(** [name.replace(/\.zip$/i, '')] *)
Definition stripZipExt (name : string) : string :=
  let n := String.length name in
  if Nat.leb 4 n && String.eqb (toLowerCase (drop_chars (n - 4) name)) ".zip"
  then substring 0 (n - 4) name
  else name.

(** The complement of the character class [[^a-zA-Z0-9._-]]. *)
Definition is_name_char (c : ascii) : bool :=
  let n := code c in
  (Nat.leb 97 n && Nat.leb n 122) || (Nat.leb 65 n && Nat.leb n 90)
  || (Nat.leb 48 n && Nat.leb n 57)
  || Nat.eqb n 46 || Nat.eqb n 95 || Nat.eqb n 45.

(** [name.replace(/[^a-zA-Z0-9._-]/g, '_')] *)
Fixpoint replace_invalid (name : string) : string :=
  match name with
  | EmptyString => EmptyString
  | String c rest =>
      String (if is_name_char c then c else "_"%char) (replace_invalid rest)
  end.

(** Lines 377-381: sanitize, then fall back to ['repo'] when nothing is left. *)
Definition sanitizeRepoName (name : string) : string :=
  let cleaned := replace_invalid name in
  if Nat.eqb (String.length cleaned) 0 then "repo" else cleaned.

Inductive FileKind : Type := KFile | KDirectory | KOther.

(** A directory entry with what [fs.statSync] says of it ([None]: it throws). *)
Record DirEnt : Type := mkDirEnt {
  d_name : string;
  d_stat : option FileKind
}.

(** [package.json] in a directory: absent; unreadable or not JSON; or parsed,
    with its [name] property ([None] when missing or null).  The name is a
    string, as the declared type of [repoName] has it. *)
Inductive Manifest : Type :=
| NoManifest
| BrokenManifest
| ManifestWith (name : option string).

(** The [.git] directory and the two [git rev-parse] calls (outputs trimmed). *)
Inductive GitInfo : Type :=
| NoGitDir
| GitFailed
| GitBranchOnly (branch : string)
| GitBoth (branch commit : string).

Record RepoMetadata : Type := mkMetadata {
  md_repoName : option string;
  md_gitBranch : option string;
  md_gitCommit : option string
}.

Definition detectRepoMetadata (manifest : Manifest) (git : GitInfo)
    (repoDir : string) (zipFileName : option string) : RepoMetadata :=
  (* Primary: ZIP filename without its extension *)
  let repoName0 : option string :=
    match zipFileName with
    | Some z => if truthy zipFileName then Some (stripZipExt z) else None
    | None => None
    end in
  (* Fallback: name from package.json *)
  let repoName1 : option string :=
    if negb (truthy repoName0) then
      match manifest with
      | ManifestWith name => if truthy name then name else repoName0
      | _ => repoName0
      end
    else repoName0 in
  (* Last resort: directory name *)
  let repoName2 : option string :=
    if negb (truthy repoName1) then Some (basename repoDir) else repoName1 in
  {| md_repoName := repoName2;
     md_gitBranch := match git with
                     | GitBranchOnly b | GitBoth b _ => Some b
                     | _ => None
                     end;
     md_gitCommit := match git with
                     | GitBoth _ c => Some c
                     | _ => None
                     end |}.

(** Lines 346-375: the name before sanitizing.  [extractedExists] answers
    [fs.existsSync(extractedPath)], [contents] is
    [fs.readdirSync(extractedPath)]. *)
Definition chooseRepoName (cwd : string) (extractedExists : bool)
    (contents : list DirEnt) (manifest : Manifest) (git : GitInfo)
    (uploadedZipPath extractedDir zipFileName : option string) : Result string :=
  let detected : Result (option string) :=
    match extractedDir with
    | Some dir =>
        if truthy uploadedZipPath && truthy extractedDir then
          let extractedPath := path_resolve cwd dir in
          if extractedExists then
            let single : Result (option string) :=
              match contents with
              | [item] =>
                  match d_stat item with
                  | None =>
                      Throw (JsError ("ENOENT: no such file or directory, stat '"
                                      ++ path_join [extractedPath; d_name item] ++ "'"))
                  | Some KDirectory => Ok (Some (d_name item))
                  | Some _ => Ok None
                  end
              | _ => Ok None
              end in
            match single with
            | Throw e => Throw e
            | Ok repoName =>
                if negb (truthy repoName)
                then Ok (md_repoName
                           (detectRepoMetadata manifest git extractedPath zipFileName))
                else Ok repoName
            end
          else Ok None
        else Ok None
    | None => Ok None
    end in
  match detected with
  | Throw e => Throw e
  | Ok repoName =>
      match repoName with
      | Some name =>
          if truthy repoName then Ok name
          else match zipFileName with
               | Some z => if truthy zipFileName then Ok (stripZipExt z) else Ok "repo"
               | None => Ok "repo"
               end
      | None =>
          match zipFileName with
          | Some z => if truthy zipFileName then Ok (stripZipExt z) else Ok "repo"
          | None => Ok "repo"
          end
      end
  end.

(** Lines 346-381: the directory name used under the work directory. *)
Definition workspaceRepoName (cwd : string) (extractedExists : bool)
    (contents : list DirEnt) (manifest : Manifest) (git : GitInfo)
    (uploadedZipPath extractedDir zipFileName : option string) : Result string :=
  match chooseRepoName cwd extractedExists contents manifest git
          uploadedZipPath extractedDir zipFileName with
  | Throw e => Throw e
  | Ok name => Ok (sanitizeRepoName name)
  end.

(* ===================================================================== *)
(** * 7. Report harvesting                                                *)
(* ===================================================================== *)

Definition isDataFlow (file : string) : bool :=
  let lowerFileName := toLowerCase file in
  includes lowerFileName "data_flow" || includes lowerFileName "dataflow".

Definition isThreatModel (file : string) : bool :=
  let lowerFileName := toLowerCase file in
  includes lowerFileName "threat_model" || includes lowerFileName "threatmodel".

Definition isRiskRegistry (file : string) : bool :=
  let lowerFileName := toLowerCase file in
  includes lowerFileName "risk_registry" || includes lowerFileName "riskregistry".

Record ReportFile : Type := mkReportFile {
  rf_file : string;
  rf_sourceDir : string
}.

(** Lines 716-737, the loop over one directory's entries.  A [statSync]
    that throws is caught by the enclosing try and ends this directory. *)
Fixpoint scan_directory (searchDir : string) (dirFiles : list DirEnt) : list ReportFile :=
  match dirFiles with
  | [] => []
  | f :: rest =>
      match d_stat f with
      | None => []
      | Some KFile =>
          if isDataFlow (d_name f) || isThreatModel (d_name f) || isRiskRegistry (d_name f)
          then {| rf_file := d_name f; rf_sourceDir := searchDir |}
               :: scan_directory searchDir rest
          else scan_directory searchDir rest
      | Some _ => scan_directory searchDir rest
      end
  end.

(** Lines 707-741: [exists] answers [fs.existsSync], [listing] is
    [fs.readdirSync] ([None]: it throws, which is caught and logged). *)
Fixpoint collect_reports (exists_ : string -> bool)
    (listing : string -> option (list DirEnt)) (searchDirs : list string)
  : list ReportFile :=
  match searchDirs with
  | [] => []
  | searchDir :: rest =>
      (if exists_ searchDir then
         match listing searchDir with
         | Some dirFiles => scan_directory searchDir dirFiles
         | None => []
         end
       else []) ++ collect_reports exists_ listing rest
  end.

(** Hidden sub-directories named by a [withFileTypes] listing. *)
Definition hidden_dirs (dir : string) (items : option (list (string * bool)))
  : list string :=
  match items with
  | None => []
  | Some l =>
      map (fun item => path_join [dir; fst item])
        (List.filter (fun item => snd item && startsWith (fst item) ".") l)
  end.

Definition isErrorLine (line : string) : bool :=
  includes (toLowerCase line) "error"
  || includes (toLowerCase line) "failed"
  || includes (toLowerCase line) "exceeded".

Definition newline : ascii := ascii_of_nat 10.

(** Lines 747-762: the error thrown when no report file was found. *)
Definition noReportsError (processExitCode : option Z) (capturedOutput : string)
  : thrown :=
  match processExitCode with
  | Some exitCode =>
      if negb (Z.eqb exitCode 0) then
        let errorDetails := "agent-run exited with code " ++ string_of_Z exitCode in
        let errorLines := List.filter isErrorLine (split_on newline capturedOutput) in
        let errorDetails' :=
          if Nat.ltb 0 (List.length errorLines)
          then errorDetails ++ ". Error details: " ++ join "; " (slice_last 3 errorLines)
          else errorDetails in
        JsError ("No threat modeling report files were generated. " ++ errorDetails')
      else JsError "No threat modeling report files were generated by the agent"
  | None => JsError "No threat modeling report files were generated by the agent"
  end.

Record ReportPaths : Type := mkReportPaths {
  dataFlowDiagramPath : option string;
  threatModelPath : option string;
  riskRegistryPath : option string
}.

Definition no_paths : ReportPaths :=
  {| dataFlowDiagramPath := None; threatModelPath := None; riskRegistryPath := None |}.

(** Lines 781-789: one report type per file, first match in this order. *)
Definition classify (file destPath : string) (acc : ReportPaths) : ReportPaths :=
  let lowerFileName := toLowerCase file in
  if includes lowerFileName "data_flow" || includes lowerFileName "dataflow" then
    {| dataFlowDiagramPath := Some destPath;
       threatModelPath := threatModelPath acc;
       riskRegistryPath := riskRegistryPath acc |}
  else if includes lowerFileName "threat_model" || includes lowerFileName "threatmodel" then
    {| dataFlowDiagramPath := dataFlowDiagramPath acc;
       threatModelPath := Some destPath;
       riskRegistryPath := riskRegistryPath acc |}
  else if includes lowerFileName "risk_registry" || includes lowerFileName "riskregistry" then
    {| dataFlowDiagramPath := dataFlowDiagramPath acc;
       threatModelPath := threatModelPath acc;
       riskRegistryPath := Some destPath |}
  else acc.

(** The classification the loop of lines 774-790 arrives at when every copy
    succeeds. *)
Definition classify_all (jobReportDir : string) (reportFiles : list ReportFile)
  : ReportPaths :=
  fold_left (fun acc rf => classify (rf_file rf) (path_join [jobReportDir; rf_file rf]) acc)
            reportFiles no_paths.

(** [/Cost:\s*(\$[\d.]+)/i] tried at the start of [s]. *)
Definition is_space (c : ascii) : bool :=
  let n := code c in
  (Nat.leb 9 n && Nat.leb n 13) || Nat.eqb n 32 || Nat.eqb n 160.

Fixpoint skip_spaces (s : string) : string :=
  match s with
  | String c s' => if is_space c then skip_spaces s' else s
  | EmptyString => s
  end.

Fixpoint take_amount (s : string) : string :=
  match s with
  | String c s' =>
      if (Nat.leb 48 (code c) && Nat.leb (code c) 57) || Nat.eqb (code c) 46
      then String c (take_amount s') else EmptyString
  | EmptyString => EmptyString
  end.

Definition cost_here (s : string) : option string :=
  if startsWith (toLowerCase s) "cost:" then
    match skip_spaces (drop_chars 5 s) with
    | String c rest =>
        if Ascii.eqb c "$" then
          match take_amount rest with
          | EmptyString => None
          | amount => Some (String "$" amount)
          end
        else None
    | EmptyString => None
    end
  else None.

(** [line.match(/Cost:\s*(\$[\d.]+)/i)]: the leftmost match. *)
Fixpoint match_cost (line : string) : option string :=
  match cost_here line with
  | Some amount => Some amount
  | None =>
      match line with
      | EmptyString => None
      | String _ rest => match_cost rest
      end
  end.

(** Lines 619-629: the cost on the last line that carries one. *)
Definition parse_cost (capturedOutput : string) : option string :=
  let fix search (ls : list string) : option string :=
    match ls with
    | [] => None
    | line :: rest =>
        match match_cost line with
        | Some amount => Some amount
        | None => search rest
        end
    end in
  search (rev (split_on newline capturedOutput)).

(* ===================================================================== *)
(** * 8. The job lifecycle controller                                     *)
(* ===================================================================== *)

(** The transient record kept in [runningJobs].  Its [abortController] is
    the one created by the run of that job: whether it was aborted is read
    from [abortedJobs] in the world, under the job's id. *)
Record RunningJob : Type := mkRunningJob {
  rj_workDir : string;
  rj_uploadedZipPath : option string;
  rj_extractedDir : option string
}.

(** File-system calls that change something (or the working directory). *)
Inductive FsOp : Type :=
| FsMkdir (p : string)            (* fs.mkdirSync(p, { recursive: true }) *)
| FsRm (p : string)               (* fs.rmSync(p, { recursive: true, force: true }) *)
| FsUnlink (p : string)           (* fs.unlinkSync(p) *)
| FsCp (src dst : string)         (* fs.cpSync(src, dst, { recursive: true }) *)
| FsCopyFile (src dst : string)   (* fs.copyFileSync(src, dst) *)
| FsChdir (p : string).           (* process.chdir(p) *)

(** How the agent subprocess ends: an ['error'] event, or ['close']. *)
Inductive ChildOutcome : Type :=
| SpawnFailed (message : string)
| Closed (exitCode : option Z) (signal : option string).

(** Answers of the outside world during one run of a job. *)
Record Env : Type := mkEnv {
  env_dirname : string;                          (* __dirname *)
  env_settings : option (string * string * option Z);
      (* apiKey, baseUrl, claude_code_max_output_tokens; None: the store throws *)
  env_fs_fails : FsOp -> option thrown;          (* which calls throw, and what *)
  env_extractedContents : list DirEnt;           (* readdirSync(extractedPath) *)
  env_repoDirContents : list string;             (* readdirSync(repoDir) after the copy *)
  env_manifest : string -> Manifest;             (* package.json of a directory *)
  env_git : string -> GitInfo;                   (* git metadata of a directory *)
  env_deleteWhileQueued : option nat;
      (* a DELETE request by this user arrives while the run awaits the mutex *)
  env_deleteWhileRunning : option nat;
      (* a DELETE request by this user arrives while the run awaits the agent *)
  env_child : ChildOutcome;
  env_capturedOutput : string;                   (* stdout and stderr, in order *)
  env_agentCreates : list string;                (* paths the agent leaves behind *)
  env_executionDuration : Z;                     (* rounded seconds around the run *)
  env_dirents : string -> option (list (string * bool));
      (* readdirSync(dir, { withFileTypes: true }): name, isDirectory() *)
  env_listing : string -> option (list DirEnt);  (* readdirSync(dir) and statSync *)
  env_ticket : nat                               (* names this run's acquire() call *)
}.

(** Something written with [logger.warn] or [logger.error] in a catch block. *)
Record LogEntry : Type := mkLog {
  log_what : string;
  log_error : thrown
}.

Record World : Type := mkWorld {
  jobs : gmap string ThreatModelingJob;   (* table threat_modeling_jobs *)
  clock : nat;                            (* CURRENT_TIMESTAMP *)
  runningJobs : gmap string RunningJob;
  abortedJobs : gset string;              (* ids whose AbortController was aborted *)
  paths : gset string;                    (* paths that exist *)
  cwd : string;                           (* process.cwd() *)
  fs_trace : list (FsOp * bool);          (* every FsOp attempted, and if it succeeded *)
  warnings : list LogEntry;
  mutex_calls : list mutex_event;         (* this run's calls on ChdirMutex *)
  history : list (gmap string ThreatModelingJob)
      (* ghost: the table after each statement that was run on it *)
}.

Definition set_table (j : gmap string ThreatModelingJob) (w : World) : World :=
  mkWorld j (S (clock w)) (runningJobs w) (abortedJobs w) (paths w) (cwd w)
          (fs_trace w) (warnings w) (mutex_calls w) (history w ++ [j]).

Definition set_runningJobs (r : gmap string RunningJob) (w : World) : World :=
  mkWorld (jobs w) (clock w) r (abortedJobs w) (paths w) (cwd w)
          (fs_trace w) (warnings w) (mutex_calls w) (history w).

Definition set_abortedJobs (a : gset string) (w : World) : World :=
  mkWorld (jobs w) (clock w) (runningJobs w) a (paths w) (cwd w)
          (fs_trace w) (warnings w) (mutex_calls w) (history w).

Definition set_paths (p : gset string) (w : World) : World :=
  mkWorld (jobs w) (clock w) (runningJobs w) (abortedJobs w) p (cwd w)
          (fs_trace w) (warnings w) (mutex_calls w) (history w).

Definition set_cwd (d : string) (w : World) : World :=
  mkWorld (jobs w) (clock w) (runningJobs w) (abortedJobs w) (paths w) d
          (fs_trace w) (warnings w) (mutex_calls w) (history w).

Definition log_fs (op : FsOp) (ok : bool) (w : World) : World :=
  mkWorld (jobs w) (clock w) (runningJobs w) (abortedJobs w) (paths w) (cwd w)
          (fs_trace w ++ [(op, ok)]) (warnings w) (mutex_calls w) (history w).

Definition log_warning (l : LogEntry) (w : World) : World :=
  mkWorld (jobs w) (clock w) (runningJobs w) (abortedJobs w) (paths w) (cwd w)
          (fs_trace w) (warnings w ++ [l]) (mutex_calls w) (history w).

Definition log_mutex (e : mutex_event) (w : World) : World :=
  mkWorld (jobs w) (clock w) (runningJobs w) (abortedJobs w) (paths w) (cwd w)
          (fs_trace w) (warnings w) (mutex_calls w ++ [e]) (history w).

(** ** Computations that change the world and may throw *)

Definition M (A : Type) : Type := World -> World * Result A.

Definition ret {A} (a : A) : M A := fun w => (w, Ok a).

Definition throw {A} (e : thrown) : M A := fun w => (w, Throw e).

Definition bind {A B} (m : M A) (k : A -> M B) : M B :=
  fun w =>
    match m w with
    | (w', Ok a) => k a w'
    | (w', Throw e) => (w', Throw e)
    end.

Declare Scope job_scope.
Delimit Scope job_scope with job.
Notation "x <- m ;; k" := (bind m (fun x => k))
  (at level 100, m at next level, right associativity) : job_scope.
Notation "m ;; k" := (bind m (fun _ => k))
  (at level 100, right associativity) : job_scope.
Local Open Scope job_scope.

(** [try { m } catch (e) { handler e }] *)
Definition try_catch {A} (m : M A) (handler : thrown -> M A) : M A :=
  fun w =>
    match m w with
    | (w', Ok a) => (w', Ok a)
    | (w', Throw e) => handler e w'
    end.

(** [try { m } finally { cleanup }]: an exception of [cleanup] would replace
    the outcome of [m]. *)
Definition try_finally {A} (m : M A) (cleanup : M unit) : M A :=
  fun w =>
    match m w with
    | (w', r) =>
        match cleanup w' with
        | (w'', Ok _) => (w'', r)
        | (w'', Throw e) => (w'', Throw e)
        end
    end.

Definition lift {A} (r : Result A) : M A := fun w => (w, r).

Definition read {A} (f : World -> A) : M A := fun w => (w, Ok (f w)).

Definition modify (f : World -> World) : M unit := fun w => (f w, Ok tt).

Definition when_ (b : bool) (m : M unit) : M unit := if b then m else ret tt.

Definition warn (what : string) (e : thrown) : M unit :=
  modify (log_warning {| log_what := what; log_error := e |}).

(** [try { m } catch (err) { logger.warn(what, err) }] *)
Definition attempt (what : string) (m : M unit) : M unit :=
  try_catch m (warn what).

(** A statement run on the job table. *)
Definition on_table {A}
    (stmt : nat -> gmap string ThreatModelingJob ->
            gmap string ThreatModelingJob * Result A) : M A :=
  fun w =>
    match stmt (clock w) (jobs w) with
    | (jobs', r) => (set_table jobs' w, r)
    end.

Definition findJob (id : string) : M ThreatModelingJob :=
  fun w => (w, ThreatModelingJobModel.findById (jobs w) id).

Definition path_exists (p : string) : M bool :=
  read (fun w => bool_decide (p ∈ paths w)).

(** The paths left by a successful [op]. *)
Definition fs_effect (op : FsOp) (ps : gset string) : gset string :=
  match op with
  | FsMkdir p => {[p]} ∪ ps
  | FsRm p => filter (fun q => inside_dir p q = false) ps
  | FsUnlink p => ps ∖ {[p]}
  | FsCp _ dst => {[dst]} ∪ ps
  | FsCopyFile _ dst => {[dst]} ∪ ps
  | FsChdir _ => ps
  end.

(** [a || b] on [string | null] values. *)
Definition or_else (a b : option string) : option string :=
  if truthy a then a else b.

Section Controller.

Variable E : Env.

(** One file-system call: it throws when the environment says so, and
    [process.chdir] also when the target does not exist. *)
Definition fs_failure (op : FsOp) (w : World) : option thrown :=
  match env_fs_fails E op with
  | Some e => Some e
  | None =>
      match op with
      | FsChdir p =>
          if bool_decide (p ∈ paths w) then None
          else Some (JsError ("ENOENT: no such file or directory, chdir to '" ++ p ++ "'"))
      | _ => None
      end
  end.

Definition fs_do (op : FsOp) : M unit :=
  fun w =>
    match fs_failure op w with
    | Some e => (log_fs op false w, Throw e)
    | None =>
        let w1 := set_paths (fs_effect op (paths w)) (log_fs op true w) in
        (match op with
         | FsChdir p => set_cwd p w1
         | _ => w1
         end, Ok tt)
    end.

(** ** DELETE /api/threat-modeling/jobs/:id, lines 1195-1287.
    The result is the HTTP status of the response. *)
Definition deleteRoute (id : string) (userId : nat) : M nat :=
  try_catch
    (found <- try_catch
                (job <- findJob id ;; ret (Some job))
                (fun error =>
                   if includes (message_or "Unknown error occurred" error) "not found"
                   then ret None else throw error) ;;
     match found with
     | None => ret 404
     | Some job =>
         if negb (Nat.eqb (user_id job) userId) then ret 403
         else
           runningJob <- read (fun w => runningJobs w !! id) ;;
           match runningJob with
           | Some rj =>
               modify (fun w => set_abortedJobs ({[id]} ∪ abortedJobs w) w) ;;
               workDirExists <- path_exists (rj_workDir rj) ;;
               when_ workDirExists
                 (attempt "Could not clean up work directory"
                    (fs_do (FsRm (rj_workDir rj)))) ;;
               match rj_uploadedZipPath rj with
               | Some zip =>
                   zipExists <- path_exists zip ;;
                   when_ (truthy (Some zip) && zipExists)
                     (attempt "Could not clean up uploaded ZIP file"
                        (fs_do (FsUnlink zip)))
               | None => ret tt
               end ;;
               match rj_extractedDir rj with
               | Some dir =>
                   dirExists <- path_exists dir ;;
                   when_ (truthy (Some dir) && dirExists)
                     (attempt "Could not clean up extracted directory"
                        (fs_do (FsRm dir)))
               | None => ret tt
               end ;;
               modify (fun w => set_runningJobs (base.delete id (runningJobs w)) w)
           | None => ret tt
           end ;;
           cwd0 <- read cwd ;;
           let jobReportDir := path_join [path_join [cwd0; "threat-modeling-reports"]; id] in
           reportDirExists <- path_exists jobReportDir ;;
           when_ reportDirExists
             (attempt "Could not delete report directory" (fs_do (FsRm jobReportDir))) ;;
           on_table (fun _ t => (ThreatModelingJobModel.delete id t, Ok tt)) ;;
           ret 200
     end)
    (fun error =>
       if includes (message_or "Unknown error occurred" error) "not found"
       then ret 404 else ret 500).

Variables (jobId repoPath query : string).
Variables (uploadedZipPath extractedDir zipFileName : option string).

(** A DELETE request for this job reaching the server while the run is
    suspended at an [await]. *)
Definition delete_request (by_user : option nat) : M unit :=
  match by_user with
  | Some userId => (deleteRoute jobId userId ;; ret tt)
  | None => ret tt
  end.

Definition checkCancellation : M unit :=
  fun w =>
    if bool_decide (jobId ∈ abortedJobs w)
    then (w, Throw (JsError "Job was cancelled"))
    else (w, Ok tt).

(** Lines 83-99. *)
Definition findAgentRunPath : M string :=
  fun w =>
    let possiblePaths :=
      [ path_join [env_dirname E; ".."; ".."; ".."; "appsec-agent"; "bin"; "agent-run.js"];
        path_join [env_dirname E; ".."; ".."; ".."; ".."; "appsec-agent"; "bin"; "agent-run.js"];
        path_join [cwd w; ".."; "appsec-agent"; "bin"; "agent-run.js"];
        path_join [cwd w; "node_modules"; "appsec-agent"; "bin"; "agent-run.js"] ] in
    match List.filter (fun p => bool_decide (p ∈ paths w)) possiblePaths with
    | agentRunPath :: _ => (w, Ok agentRunPath)
    | [] => (w, Throw (JsError ("agent-run script not found. Tried paths: "
                                ++ join ", " possiblePaths)))
    end.

Definition ensure_dir (p : string) : M unit :=
  there <- path_exists p ;;
  when_ (negb there) (fs_do (FsMkdir p)).

(** Lines 276-342: status, configuration, directories. *)
Definition prepare (workDirBase workDir reportsBaseDir jobReportDir : string)
  : M (string * string * option Z * string) :=
  checkCancellation ;;
  on_table (fun now =>
    ThreatModelingJobModel.updateStatus now jobId processing None None None None None) ;;
  config <- match env_settings E with
            | Some c => ret c
            | None => throw (JsError "Anthropic API configuration not found. Please configure settings in the admin panel.")
            end ;;
  agentRunPath <- findAgentRunPath ;;
  ensure_dir workDirBase ;;
  ensure_dir reportsBaseDir ;;
  ensure_dir jobReportDir ;;
  stale <- path_exists workDir ;;
  when_ stale
    (attempt "Could not remove existing work directory" (fs_do (FsRm workDir))) ;;
  fs_do (FsMkdir workDir) ;;
  checkCancellation ;;
  ret (config, agentRunPath).

(** Lines 344-381. *)
Definition determineRepoName : M string :=
  fun w =>
    let extractedPath :=
      match extractedDir with
      | Some dir => path_resolve (cwd w) dir
      | None => ""
      end in
    (w, workspaceRepoName (cwd w) (bool_decide (extractedPath ∈ paths w))
          (env_extractedContents E) (env_manifest E extractedPath)
          (env_git E extractedPath) uploadedZipPath extractedDir zipFileName).

(** Lines 383-433: copy the sources into [repoDir]. *)
Definition unpack (repoDir : string) : M unit :=
  match extractedDir with
  | Some dir =>
      if truthy uploadedZipPath && truthy extractedDir then
        cwd0 <- read cwd ;;
        let extractedPath := path_resolve cwd0 dir in
        there <- path_exists extractedPath ;;
        when_ (negb there)
          (throw (JsError ("Extracted directory does not exist: " ++ extractedPath))) ;;
        sourcePath <-
          match env_extractedContents E with
          | [item] =>
              let singleItem := path_join [extractedPath; d_name item] in
              match d_stat item with
              | None => throw (JsError ("ENOENT: no such file or directory, stat '"
                                        ++ singleItem ++ "'"))
              | Some KDirectory => ret singleItem
              | Some _ => ret extractedPath
              end
          | _ => ret extractedPath
          end ;;
        fs_do (FsCp sourcePath repoDir) ;;
        let repoDirContents := env_repoDirContents E in
        let has name := existsb (String.eqb name) repoDirContents in
        let hasBackendFiles :=
          has "src" && has "package.json"
          && (has "threat-modeling-reports" || has "uploads" || has "routes") in
        when_ hasBackendFiles
          (throw (JsError "Repository directory contains backend files - validation failed"))
      else
        there <- path_exists repoPath ;;
        when_ (negb there)
          (throw (JsError ("Repository path does not exist: " ++ repoPath))) ;;
        fs_do (FsCp repoPath repoDir)
  | None =>
      there <- path_exists repoPath ;;
      when_ (negb there)
        (throw (JsError ("Repository path does not exist: " ++ repoPath))) ;;
      fs_do (FsCp repoPath repoDir)
  end.

(** Lines 435-469: detected metadata, manual values as fallback. *)
Definition recordMetadata (repoDir repoName : string) : M unit :=
  checkCancellation ;;
  let detectedMetadata :=
    detectRepoMetadata (env_manifest E repoDir) (env_git E repoDir) repoDir zipFileName in
  checkCancellation ;;
  currentJob <- findJob jobId ;;
  let finalRepoName := or_else (md_repoName detectedMetadata) (Some repoName) in
  let gitBranch :=
    or_null (or_else (md_gitBranch detectedMetadata) (git_branch currentJob)) in
  let gitCommit :=
    or_null (or_else (md_gitCommit detectedMetadata) (git_commit currentJob)) in
  when_ (truthy finalRepoName || truthy gitBranch || truthy gitCommit)
    (on_table (fun now =>
       ThreatModelingJobModel.updateMetadata now jobId finalRepoName gitBranch gitCommit) ;;
     ret tt) ;;
  checkCancellation.

Definition record_metrics : M unit :=
  on_table (fun now =>
    ThreatModelingJobModel.updateExecutionMetrics now jobId
      (Some (env_executionDuration E)) (parse_cost (env_capturedOutput E))) ;;
  ret tt.

(** Lines 562-585: how the awaited promise settles; a resolved promise
    leaves the exit code in [processExitCode]. *)
Definition child_settles (outcome : ChildOutcome) : Result Z :=
  match outcome with
  | SpawnFailed message =>
      Throw (JsError ("Failed to execute agent-run: " ++ message))
  | Closed None signal =>
      Throw (JsError ("agent-run process terminated by signal: "
                      ++ match signal with
                         | Some s => if truthy signal then s else "unknown"
                         | None => "unknown"
                         end))
  | Closed (Some exitCode) _ => Ok exitCode
  end.

(** Lines 484-667: the critical section around the agent. *)
Definition runAgent (workDir : string) : M Z :=
  modify (log_mutex (Acquire (env_ticket E))) ;;
  delete_request (env_deleteWhileQueued E) ;;
  originalCwd <- read cwd ;;
  try_catch
    (fs_do (FsChdir workDir) ;;
     modify (fun w => set_paths (list_to_set (env_agentCreates E) ∪ paths w) w) ;;
     delete_request (env_deleteWhileRunning E) ;;
     processExitCode <- lift (child_settles (env_child E)) ;;
     fs_do (FsChdir originalCwd) ;;
     modify (log_mutex (Release (env_ticket E))) ;;
     record_metrics ;;
     ret processExitCode)
    (fun error =>
       attempt "Failed to restore working directory on error"
         (fs_do (FsChdir originalCwd)) ;;
       modify (log_mutex (Release (env_ticket E))) ;;
       record_metrics ;;
       throw error).

(** Lines 669-741: the report files found in the work directory, the
    repository directory and their hidden sub-directories. *)
Definition find_reports (workDir repoDir : string) (w : World) : list ReportFile :=
  let searchDirs :=
    ([workDir; repoDir]
       ++ hidden_dirs workDir (env_dirents E workDir)
       ++ hidden_dirs repoDir (env_dirents E repoDir))%list in
  collect_reports (fun d => bool_decide (d ∈ paths w)) (env_listing E) searchDirs.

(** Lines 743-767: no report file at all is an error. *)
Definition harvest (workDir repoDir : string) (processExitCode : Z)
  : M (list ReportFile) :=
  fun w =>
    let reportFiles := find_reports workDir repoDir w in
    if Nat.eqb (List.length reportFiles) 0
    then (w, Throw (noReportsError (Some processExitCode) (env_capturedOutput E)))
    else (w, Ok reportFiles).

(** Lines 769-790: copy every report and note its type. *)
Fixpoint copy_reports (jobReportDir : string) (reportFiles : list ReportFile)
    (acc : ReportPaths) : M ReportPaths :=
  match reportFiles with
  | [] => ret acc
  | rf :: rest =>
      let sourcePath := path_join [rf_sourceDir rf; rf_file rf] in
      let destPath := path_join [jobReportDir; rf_file rf] in
      fs_do (FsCopyFile sourcePath destPath) ;;
      copy_reports jobReportDir rest (classify (rf_file rf) destPath acc)
  end.

(** Lines 792-844: persist the report paths, status [completed]. *)
Definition persist (found : ReportPaths) : M unit :=
  checkCancellation ;;
  try_catch
    (on_table (fun now =>
       ThreatModelingJobModel.updateReports now jobId
         (dataFlowDiagramPath found) (threatModelPath found) (riskRegistryPath found)) ;;
     verifyJob <- findJob jobId ;;
     when_ (negb (JobStatus_eqb (status verifyJob) completed))
       (on_table (fun now =>
          ThreatModelingJobModel.updateStatus now jobId completed
            None None None None None) ;;
        ret tt))
    (fun updateError =>
       try_catch
         (on_table (fun now =>
            ThreatModelingJobModel.updateStatus now jobId completed
              None None None None None) ;;
          ret tt)
         (fun statusError =>
            throw (JsError ("Failed to update job status: "
                            ++ message_or "Unknown error" statusError)))) ;;
  attempt "Could not preserve execution metrics (job is still marked as completed)"
    (jobWithMetrics <- findJob jobId ;;
     when_ (bool_decide (execution_duration jobWithMetrics <> None)
            || bool_decide (api_cost jobWithMetrics <> None))
       (on_table (fun now =>
          ThreatModelingJobModel.updateExecutionMetrics now jobId
            (execution_duration jobWithMetrics) (api_cost jobWithMetrics)) ;;
        ret tt)).

(** Lines 275-667: everything up to the end of the agent's run; the
    result is the repository directory and [processExitCode]. *)
Definition run_until_harvest (workDirBase workDir reportsBaseDir jobReportDir : string)
  : M (string * Z) :=
  prepare workDirBase workDir reportsBaseDir jobReportDir ;;
  repoName <- determineRepoName ;;
  let repoDir := path_join [workDir; repoName] in
  unpack repoDir ;;
  recordMetadata repoDir repoName ;;
  processExitCode <- runAgent workDir ;;
  ret (repoDir, processExitCode).

(** Lines 669-846: harvest, copy, persist. *)
Definition harvest_and_persist (workDir jobReportDir repoDir : string)
    (processExitCode : Z) : M unit :=
  reportFiles <- harvest workDir repoDir processExitCode ;;
  found <- copy_reports jobReportDir reportFiles no_paths ;;
  persist found.

(** Lines 275-846: the [try] block. *)
Definition job_body (workDirBase workDir reportsBaseDir jobReportDir : string)
  : M unit :=
  reached <- run_until_harvest workDirBase workDir reportsBaseDir jobReportDir ;;
  harvest_and_persist workDir jobReportDir (fst reached) (snd reached).

(** Lines 848-865: the [catch] block. *)
Definition on_error (error : thrown) : M unit :=
  let errorMessage := message_or "Unknown error occurred" error in
  cancelled <- read (fun w => bool_decide (jobId ∈ abortedJobs w)) ;;
  when_ (negb cancelled)
    (attempt "Could not update job status (job may have been deleted)"
       (on_table (fun now =>
          ThreatModelingJobModel.updateStatus now jobId failed
            None None None None None) ;;
        on_table (fun now =>
          ThreatModelingJobModel.updateErrorMessage now jobId errorMessage) ;;
        ret tt)) ;;
  throw error.

(** Lines 866-902: the [finally] block. *)
Definition cleanup (workDir : string) : M unit :=
  modify (fun w => set_runningJobs (base.delete jobId (runningJobs w)) w) ;;
  workDirExists <- path_exists workDir ;;
  when_ workDirExists
    (attempt ("Could not clean up work directory for job " ++ jobId)
       (fs_do (FsRm workDir))) ;;
  match uploadedZipPath with
  | Some zip =>
      zipExists <- path_exists zip ;;
      when_ (truthy uploadedZipPath && zipExists)
        (attempt "Could not clean up uploaded ZIP file" (fs_do (FsUnlink zip)))
  | None => ret tt
  end ;;
  match extractedDir with
  | Some dir =>
      dirExists <- path_exists dir ;;
      when_ (truthy extractedDir && dirExists)
        (attempt "Could not clean up extracted directory" (fs_do (FsRm dir)))
  | None => ret tt
  end.

(** Lines 254-257: the directories of a run started in world [w0]. *)
Definition workDirBase_of (w0 : World) : string := path_join [cwd w0; "work_dir"].
Definition workDir_of (w0 : World) : string := path_join [workDirBase_of w0; jobId].
Definition reportsBaseDir_of (w0 : World) : string :=
  path_join [cwd w0; "threat-modeling-reports"].
Definition jobReportDir_of (w0 : World) : string :=
  path_join [reportsBaseDir_of w0; jobId].

(** Lines 260-266: [runningJobs.set(jobId, ...)]. *)
Definition register (w0 : World) : World :=
  set_runningJobs
    (<[jobId := {| rj_workDir := workDir_of w0;
                   rj_uploadedZipPath := uploadedZipPath;
                   rj_extractedDir := extractedDir |}]> (runningJobs w0)) w0.

Definition try_block (w0 : World) : M unit :=
  job_body (workDirBase_of w0) (workDir_of w0) (reportsBaseDir_of w0) (jobReportDir_of w0).

(** Lines 252-903.  The run is followed from its call to its end: the two
    [await]s resume once the lock is granted and once the agent is gone. *)
Definition processThreatModelingJob : M unit :=
  fun w0 =>
    try_finally
      (try_catch (try_block w0) on_error)
      (cleanup (workDir_of w0))
      (register w0).

End Controller.

(* ===================================================================== *)
(** * 9. Vocabulary of the properties                                     *)
(* ===================================================================== *)




(** The characters of the class [[A-Za-z0-9._-]]. *)
Definition name_alphabet : string :=
  "abcdefghijklmnopqrstuvwxyzABCDEFGHIJKLMNOPQRSTUVWXYZ0123456789._-".

(** The three report types, in the order in which lines 783-789 test them. *)
Inductive ReportType : Type := DataFlowDiagram | ThreatModel | RiskRegistry.

Definition report_type (file : string) : option ReportType :=
  if isDataFlow file then Some DataFlowDiagram
  else if isThreatModel file then Some ThreatModel
  else if isRiskRegistry file then Some RiskRegistry
  else None.

Definition has_type (t : ReportType) (file : string) : bool :=
  match report_type file, t with
  | Some DataFlowDiagram, DataFlowDiagram
  | Some ThreatModel, ThreatModel
  | Some RiskRegistry, RiskRegistry => true
  | _, _ => false
  end.

Definition path_of_type (t : ReportType) (p : ReportPaths) : option string :=
  match t with
  | DataFlowDiagram => dataFlowDiagramPath p
  | ThreatModel => threatModelPath p
  | RiskRegistry => riskRegistryPath p
  end.

Definition set_path_of_type (t : ReportType) (destPath : string) (p : ReportPaths)
  : ReportPaths :=
  match t with
  | DataFlowDiagram =>
      {| dataFlowDiagramPath := Some destPath; threatModelPath := threatModelPath p;
         riskRegistryPath := riskRegistryPath p |}
  | ThreatModel =>
      {| dataFlowDiagramPath := dataFlowDiagramPath p; threatModelPath := Some destPath;
         riskRegistryPath := riskRegistryPath p |}
  | RiskRegistry =>
      {| dataFlowDiagramPath := dataFlowDiagramPath p; threatModelPath := threatModelPath p;
         riskRegistryPath := Some destPath |}
  end.




(** The first truthy candidate. *)
Fixpoint first_truthy (candidates : list (option string)) : option string :=
  match candidates with
  | [] => None
  | c :: rest => if truthy c then c else first_truthy rest
  end.

Definition stripped_zip_name (zipFileName : option string) : option string :=
  match zipFileName with
  | Some z => Some (stripZipExt z)
  | None => None
  end.

Definition manifest_name (manifest : Manifest) : option string :=
  match manifest with
  | ManifestWith name => name
  | _ => None
  end.

(** The name of the only entry of the extraction directory, when that entry
    is a directory. *)
Definition single_root_directory (contents : list DirEnt) : option string :=
  match contents with
  | [item] => match d_stat item with
              | Some KDirectory => Some (d_name item)
              | _ => None
              end
  | _ => None
  end.

(** An archive was uploaded and its extraction directory is there. *)
Definition from_archive (extractedExists : bool)
    (uploadedZipPath extractedDir : option string) : bool :=
  truthy uploadedZipPath && truthy extractedDir && extractedExists.

(** The priority order as C7 words it: archive file name, manifest name,
    extraction directory name, ['repo']. *)
Definition repoName_as_claimed (cwd : string) (extractedExists : bool)
    (manifest : Manifest) (uploadedZipPath extractedDir zipFileName : option string)
  : string :=
  let archive := from_archive extractedExists uploadedZipPath extractedDir in
  match first_truthy
          [ stripped_zip_name zipFileName;
            if archive then manifest_name manifest else None;
            if archive
            then option_map (fun dir => basename (path_resolve cwd dir)) extractedDir
            else None ] with
  | Some name => name
  | None => "repo"
  end.

(** The priority order of the code: the archive's single top-level
    directory comes first. *)
Definition repoName_by_priority (cwd : string) (extractedExists : bool)
    (contents : list DirEnt) (manifest : Manifest)
    (uploadedZipPath extractedDir zipFileName : option string) : string :=
  let archive := from_archive extractedExists uploadedZipPath extractedDir in
  match first_truthy
          [ if archive then single_root_directory contents else None;
            stripped_zip_name zipFileName;
            if archive then manifest_name manifest else None;
            if archive
            then option_map (fun dir => basename (path_resolve cwd dir)) extractedDir
            else None ] with
  | Some name => name
  | None => "repo"
  end.

(** [statSync] throws on the only entry of the extraction directory. *)
Definition single_entry_unreadable (contents : list DirEnt) : bool :=
  match contents with
  | [item] => match d_stat item with
              | None => true
              | Some _ => false
              end
  | _ => false
  end.

(** Partial correctness of a computation for the state it leaves, whether it
    returns or throws. *)
Definition hoare {A} (P : World -> Prop) (m : M A) (Q : World -> Prop) : Prop :=
  forall w, P w -> Q (fst (m w)).

(** A property that looks at the job table, its history and the abort
    signals only: not at the file system, the logs or [runningJobs]. *)
Definition core_only (P : World -> Prop) : Prop :=
  forall w w',
    jobs w = jobs w' -> history w = history w' -> abortedJobs w = abortedJobs w' ->
    P w -> P w'.

(** A change of the world that leaves those three alone. *)
Definition keeps_core (f : World -> World) : Prop :=
  forall w,
    jobs (f w) = jobs w /\ history (f w) = history w
    /\ abortedJobs (f w) = abortedJobs w.

(** A statement on the table that keeps property [P]. *)
Definition statement_keeps {A} (P : World -> Prop)
    (stmt : nat -> gmap string ThreatModelingJob ->
            gmap string ThreatModelingJob * Result A) : Prop :=
  forall w, P w -> P (set_table (fst (stmt (clock w) (jobs w))) w).

(** Every table state recorded since [base] satisfies the invariant of the
    data model, and so does the current table. *)
Definition consistent_since (base : list (gmap string ThreatModelingJob)) (w : World)
  : Prop :=
  table_consistent (jobs w)
  /\ exists snaps, history w = (base ++ snaps)%list /\ Forall table_consistent snaps.

(** The job's row, if any, has never been completed. *)
Definition not_yet_completed (jobId : string) (w : World) : Prop :=
  forall job, jobs w !! jobId = Some job -> completed_at job = None.

(** The world after one guarded removal of the clean-up: attempted when
    [attempted] holds, a failure being logged under [what]. *)
Definition after_removal (E : Env) (what : string) (op : FsOp) (attempted : bool)
    (w : World) : World :=
  if attempted then
    match env_fs_fails E op with
    | Some e => log_warning {| log_what := what; log_error := e |} (log_fs op false w)
    | None => set_paths (fs_effect op (paths w)) (log_fs op true w)
    end
  else w.

(** At the end, path [p] is gone, or its removal [op] was attempted since
    [before], failed, and the failure was logged under [what]. *)
Definition removed_or_reported (E : Env) (op : FsOp) (what p : string)
    (before after : World) : Prop :=
  p ∉ paths after
  \/ exists e new_trace new_warnings,
       env_fs_fails E op = Some e
       /\ fs_trace after = (fs_trace before ++ new_trace)%list
       /\ warnings after = (warnings before ++ new_warnings)%list
       /\ In (op, false) new_trace
       /\ In {| log_what := what; log_error := e |} new_warnings.

(** A row as the [catch] block leaves it. *)
Definition marked_failed (message : string) (row : ThreatModelingJob) : Prop :=
  status row = failed
  /\ error_message row = Some message
  /\ completed_at row <> None.

(** A row as a successful harvest leaves it. *)
Definition marked_completed (found : ReportPaths) (row : ThreatModelingJob) : Prop :=
  status row = completed
  /\ data_flow_diagram_path row = dataFlowDiagramPath found
  /\ threat_model_path row = threatModelPath found
  /\ risk_registry_path row = riskRegistryPath found
  /\ report_path row = threatModelPath found
  /\ error_message row = None
  /\ completed_at row <> None.

(** Every copy of a harvested file into the report directory succeeds. *)
Definition copies_succeed (E : Env) (jobReportDir : string)
    (reportFiles : list ReportFile) : Prop :=
  Forall (fun rf =>
            env_fs_fails E (FsCopyFile (path_join [rf_sourceDir rf; rf_file rf])
                                       (path_join [jobReportDir; rf_file rf])) = None)
         reportFiles.

(** The run started in [w0] gets past the agent: in world [w2] the agent has
    exited with [exitCode] and the harvest is about to look for reports
    around [repoDir]. *)
Definition reaches_harvest (E : Env) (jobId repoPath : string)
    (uploadedZipPath extractedDir zipFileName : option string)
    (w0 w2 : World) (repoDir : string) (exitCode : Z) : Prop :=
  run_until_harvest E jobId repoPath uploadedZipPath extractedDir zipFileName
    (workDirBase_of w0) (workDir_of jobId w0) (reportsBaseDir_of w0)
    (jobReportDir_of jobId w0) (register jobId uploadedZipPath extractedDir w0)
  = (w2, Ok (repoDir, exitCode)).

(** What the [catch] block does to the table, seen from the table [before]
    it and the table [after] it. *)
Definition failure_recorded (jobId message : string) (cancelled : bool)
    (before after : gmap string ThreatModelingJob) : Prop :=
  if cancelled then after = before
  else
    base.delete jobId after = base.delete jobId before
    /\ match before !! jobId with
       | Some _ => exists row, after !! jobId = Some row /\ marked_failed message row
       | None => after !! jobId = None
       end.

(** A run that was aborted has lost its row: the DELETE route, the only
    code that aborts a run, deletes the row of the job right after. *)
Definition aborted_means_deleted (jobId : string) (w : World) : Prop :=
  jobId ∈ abortedJobs w -> jobs w !! jobId = None.

(* ===================================================================== *)
(** * 10. A sample run, used to exercise the statements of Part II        *)
(* ===================================================================== *)

Definition sample_env : Env :=
  {| env_dirname := "/app/backend/dist/routes";
     env_settings := Some ("sk-key", "https://api.anthropic.com", None);
     env_fs_fails := fun _ => None;
     env_extractedContents := [mkDirEnt "myapp" (Some KDirectory)];
     env_repoDirContents := ["index.js"; "README.md"];
     env_manifest := fun _ => NoManifest;
     env_git := fun _ => NoGitDir;
     env_deleteWhileQueued := None;
     env_deleteWhileRunning := None;
     env_child := Closed (Some 1%Z) None;
     env_capturedOutput := "Error: output token limit exceeded";
     env_agentCreates := ["/app/backend/work_dir/job-1/threat_model_report.md"];
     env_executionDuration := 12%Z;
     env_dirents := fun _ => Some [];
     env_listing := fun dir =>
       if String.eqb dir "/app/backend/work_dir/job-1"
       then Some [mkDirEnt "threat_model_report.md" (Some KFile);
                  mkDirEnt "myapp" (Some KDirectory)]
       else Some [];
     env_ticket := 1 |}.

(** The same run, except that the agent leaves no report behind. *)
Definition sample_env_no_reports : Env :=
  {| env_dirname := env_dirname sample_env;
     env_settings := env_settings sample_env;
     env_fs_fails := env_fs_fails sample_env;
     env_extractedContents := env_extractedContents sample_env;
     env_repoDirContents := env_repoDirContents sample_env;
     env_manifest := env_manifest sample_env;
     env_git := env_git sample_env;
     env_deleteWhileQueued := None;
     env_deleteWhileRunning := None;
     env_child := env_child sample_env;
     env_capturedOutput := env_capturedOutput sample_env;
     env_agentCreates := [];
     env_executionDuration := 12%Z;
     env_dirents := fun _ => Some [];
     env_listing := fun _ => Some [];
     env_ticket := 1 |}.

Definition sample_zip : option string :=
  Some "/app/backend/uploads/threat-modeling/f3a9".
Definition sample_extracted : option string :=
  Some "/app/backend/uploads/threat-modeling/extracted-f3a9".

(** The server before the upload is turned into a job. *)
Definition sample_start : World :=
  {| jobs := ∅; clock := 100; runningJobs := ∅; abortedJobs := ∅;
     paths := list_to_set ["/app/backend"; "/app/appsec-agent/bin/agent-run.js";
                           "/app/backend/uploads/threat-modeling/f3a9";
                           "/app/backend/uploads/threat-modeling/extracted-f3a9"];
     cwd := "/app/backend";
     fs_trace := []; warnings := []; mutex_calls := []; history := [] |}.

Definition sample_created :=
  ThreatModelingJobModel.create "job-1" (clock sample_start) 1 "[UPLOADED] myapp.zip"
    (Some "Perform threat modeling analysis") None None None (jobs sample_start).

(** The server when [processThreatModelingJob] is called for the job. *)
Definition sample_world : World := set_table (fst sample_created) sample_start.

Definition sample_row : ThreatModelingJob :=
  {| job_id := "job-1"; user_id := 1; repo_path := "[UPLOADED] myapp.zip";
     query := Some "Perform threat modeling analysis"; status := pending;
     report_path := None; data_flow_diagram_path := None;
     threat_model_path := None; risk_registry_path := None;
     error_message := None; repo_name := None; git_branch := None;
     git_commit := None; execution_duration := None; api_cost := None;
     created_at := 100; updated_at := 100; completed_at := None |}.

(** The sample run when the agent has exited. *)
Definition sample_after_agent (E : Env) : World :=
  fst (run_until_harvest E "job-1"
         "/app/backend/uploads/threat-modeling/extracted-f3a9/myapp"
         sample_zip sample_extracted (Some "myapp.zip")
         (workDirBase_of sample_world) (workDir_of "job-1" sample_world)
         (reportsBaseDir_of sample_world) (jobReportDir_of "job-1" sample_world)
         (register "job-1" sample_zip sample_extracted sample_world)).

(** The world in which the [try] block of the sample run without reports
    throws. *)
Definition sample_after_try : World :=
  fst (try_block sample_env_no_reports "job-1"
         "/app/backend/uploads/threat-modeling/extracted-f3a9/myapp"
         sample_zip sample_extracted (Some "myapp.zip") sample_world
         (register "job-1" sample_zip sample_extracted sample_world)).

(** The sample run when its owner deletes the job while the agent runs, and
    the agent answers the termination request by exiting with code 143. *)
Definition sample_env_deleted : Env :=
  {| env_dirname := env_dirname sample_env;
     env_settings := env_settings sample_env;
     env_fs_fails := env_fs_fails sample_env;
     env_extractedContents := env_extractedContents sample_env;
     env_repoDirContents := env_repoDirContents sample_env;
     env_manifest := env_manifest sample_env;
     env_git := env_git sample_env;
     env_deleteWhileQueued := None;
     env_deleteWhileRunning := Some 1;
     env_child := Closed (Some 143%Z) None;
     env_capturedOutput := "";
     env_agentCreates := [];
     env_executionDuration := 3%Z;
     env_dirents := fun _ => Some [];
     env_listing := fun _ => Some [];
     env_ticket := 1 |}.

(* ===================================================================== *)
(** * 11. Roles and permissions: middleware/permissions.ts                *)
(* ===================================================================== *)

(** [UserRole] of [db/database.ts]. *)
Inductive UserRole : Type := Admin | Operator | Auditor.

Definition UserRole_eqb (a b : UserRole) : bool :=
  match a, b with
  | Admin, Admin | Operator, Operator | Auditor, Auditor => true
  | _, _ => false
  end.

(** [req.userRole === role]; [req.userRole] is [undefined] ([None]) on a
    request that [authenticateToken] has not filled in. *)
Definition role_is (userRole : option UserRole) (role : UserRole) : bool :=
  match userRole with
  | Some r => UserRole_eqb r role
  | None => false
  end.

(** What a middleware does with a request: hand it on, or answer it. *)
Inductive Middleware : Type :=
| Next
| Deny (code : nat) (error : string).

Definition requireAdmin (userRole : option UserRole) : Middleware :=
  if negb (role_is userRole Admin) then Deny 403 "Admin access required"
  else Next.

Definition requireJobScheduling (userRole : option UserRole) : Middleware :=
  if negb (role_is userRole Admin) && negb (role_is userRole Operator)
  then Deny 403 "Job scheduling requires Admin or Operator role"
  else Next.

Definition requireView (userRole : option UserRole) : Middleware := Next.

Definition roleHierarchy (role : UserRole) : nat :=
  match role with
  | Auditor => 1
  | Operator => 2
  | Admin => 3
  end.

Definition hasRole (userRole : option UserRole) (requiredRole : UserRole) : bool :=
  match userRole with
  | None => false
  | Some r => Nat.leb (roleHierarchy requiredRole) (roleHierarchy r)
  end.

Definition canManageUsers (userRole : option UserRole) : bool :=
  role_is userRole Admin.

Definition canScheduleJobs (userRole : option UserRole) : bool :=
  role_is userRole Admin || role_is userRole Operator.

(* ===================================================================== *)
(** * 12. Listings of the job table                                       *)
(* ===================================================================== *)

(** A row of table [users]. *)
Record User : Type := mkUser {
  u_id : nat;
  u_username : string;
  u_email : string;
  u_password_hash : string;
  u_password_changed : nat;
  u_role : UserRole;
  u_created_at : nat;
  u_updated_at : nat
}.

(** The rows of the table, in the order in which a scan meets them. *)
Definition table_rows (t : gmap string ThreatModelingJob) : list ThreatModelingJob :=
  map snd (map_to_list t).

(** [ORDER BY created_at DESC].  SQL leaves the order of rows with equal
    [created_at] open; the sort below is one admissible choice, and no
    property proved later depends on it. *)
Definition newest_first (a b : ThreatModelingJob) : Prop :=
  created_at b <= created_at a.

Global Instance newest_first_dec (a b : ThreatModelingJob) : Decision (newest_first a b).
Proof. unfold newest_first. apply _. Defined.

(** [LIMIT ?]: a negative limit is no limit. *)
Definition limit_rows {A} (limit : Z) (rows : list A) : list A :=
  if (limit <? 0)%Z then rows else take (Z.to_nat limit) rows.

(** [ThreatModelingJobModel.findByUserId(userId, limit)] *)
Definition findByUserId (t : gmap string ThreatModelingJob) (userId : nat) (limit : Z)
  : list ThreatModelingJob :=
  limit_rows limit
    (merge_sort newest_first
       (List.filter (fun job => Nat.eqb (user_id job) userId) (table_rows t))).

(** [ThreatModelingJobModel.findAllWithUsers(limit)]: every row with the
    [username] of its owner, NULL when the LEFT JOIN finds no user. *)
Definition findAllWithUsers (t : gmap string ThreatModelingJob) (users : gmap nat User)
    (limit : Z) : list (ThreatModelingJob * option string) :=
  limit_rows limit
    (map (fun job => (job, option_map u_username (users !! user_id job)))
       (merge_sort newest_first (table_rows t))).

(** The default of the [limit] parameter. *)
Definition default_limit : Z := 50.

(* ===================================================================== *)
(** * 13. The routes that read jobs and reports                           *)
(* ===================================================================== *)

(** The answer of a route: [res.json({ status: 'success', ... })], or
    [res.status(code).json({ error, message })]. *)
Inductive Reply (A : Type) : Type :=
| Success (payload : A)
| Failure (code : nat) (error : string) (message : option string).
Arguments Success {A} payload.
Arguments Failure {A} code error message.

(** A job as the listing routes serialize it: every column but [user_id],
    and [owner] where the route adds it. *)
Record JobJson : Type := mkJobJson {
  jj_id : string;
  jj_repoPath : string;
  jj_query : option string;
  jj_status : JobStatus;
  jj_reportPath : option string;
  jj_dataFlowDiagramPath : option string;
  jj_threatModelPath : option string;
  jj_riskRegistryPath : option string;
  jj_errorMessage : option string;
  jj_repoName : option string;
  jj_gitBranch : option string;
  jj_gitCommit : option string;
  jj_executionDuration : option Z;
  jj_apiCost : option string;
  jj_createdAt : nat;
  jj_updatedAt : nat;
  jj_completedAt : option nat;
  jj_owner : option string
}.

Definition job_json (job : ThreatModelingJob) (owner : option string) : JobJson :=
  {| jj_id := job_id job;
     jj_repoPath := repo_path job;
     jj_query := query job;
     jj_status := status job;
     jj_reportPath := report_path job;
     jj_dataFlowDiagramPath := data_flow_diagram_path job;
     jj_threatModelPath := threat_model_path job;
     jj_riskRegistryPath := risk_registry_path job;
     jj_errorMessage := error_message job;
     jj_repoName := repo_name job;
     jj_gitBranch := git_branch job;
     jj_gitCommit := git_commit job;
     jj_executionDuration := execution_duration job;
     jj_apiCost := api_cost job;
     jj_createdAt := created_at job;
     jj_updatedAt := updated_at job;
     jj_completedAt := completed_at job;
     jj_owner := owner |}.

(** ** GET /api/threat-modeling/jobs, lines 1036-1098.
    The two model calls are total, so the [catch] of the handler is not
    reached. *)
Definition listJobsRoute (t : gmap string ThreatModelingJob) (users : gmap nat User)
    (userId : nat) (userRole : option UserRole) : Reply (list JobJson) :=
  if role_is userRole Auditor then
    Success (map (fun row =>
                    job_json (fst row)
                      (Some (match snd row with
                             | Some username =>
                                 if truthy (snd row) then username else "Unknown"
                             | None => "Unknown"
                             end)))
                 (findAllWithUsers t users default_limit))
  else
    Success (map (fun job => job_json job None) (findByUserId t userId default_limit)).

(** What the handlers read from the disk: [fs.existsSync] and
    [fs.readFileSync(p, 'utf-8')]. *)
Record Disk : Type := mkDisk {
  disk_exists : string -> bool;
  disk_read : string -> Result string
}.

(** Lines 1101-1112. *)
Definition readReportContent (disk : Disk) (filePath : option string) : option string :=
  match filePath with
  | Some p =>
      if negb (truthy filePath) then None
      else if disk_exists disk p then
        match disk_read disk p with
        | Ok content => Some content
        | Throw _ => None
        end
      else None
  | None => None
  end.

(** The job of GET /jobs/:id: the listing fields and the report contents. *)
Record JobDetail : Type := mkJobDetail {
  jd_job : JobJson;
  jd_dataFlowDiagramContent : option string;
  jd_threatModelContent : option string;
  jd_riskRegistryContent : option string;
  jd_reportContent : option string
}.

(** ** GET /api/threat-modeling/jobs/:id, lines 1115-1192. *)
Definition getJobRoute (t : gmap string ThreatModelingJob) (users : gmap nat User)
    (disk : Disk) (id : string) (userId : nat) (userRole : option UserRole)
  : Reply JobDetail :=
  match ThreatModelingJobModel.findById t id with
  | Ok job =>
      if negb (role_is userRole Auditor) && negb (Nat.eqb (user_id job) userId)
      then Failure 403 "Access denied" None
      else
        let owner : option string :=
          if role_is userRole Auditor
          then option_map u_username (users !! user_id job)
          else None in
        let isCompleted := JobStatus_eqb (status job) completed in
        let dataFlowDiagramContent :=
          if isCompleted then readReportContent disk (data_flow_diagram_path job)
          else None in
        let threatModelContent0 :=
          if isCompleted then readReportContent disk (threat_model_path job)
          else None in
        let riskRegistryContent :=
          if isCompleted then readReportContent disk (risk_registry_path job)
          else None in
        let threatModelContent :=
          if isCompleted && negb (truthy threatModelContent0) && truthy (report_path job)
          then readReportContent disk (report_path job)
          else threatModelContent0 in
        Success {| jd_job := job_json job (if truthy owner then owner else None);
                   jd_dataFlowDiagramContent := dataFlowDiagramContent;
                   jd_threatModelContent := threatModelContent;
                   jd_riskRegistryContent := riskRegistryContent;
                   jd_reportContent := threatModelContent |}
  | Throw error =>
      let message := message_or "Unknown error occurred" error in
      if includes message "not found"
      then Failure 404 "Job not found" (Some message)
      else Failure 500 "Failed to get job" (Some message)
  end.

(** An entry of GET /reports. *)
Record ReportJson : Type := mkReportJson {
  rj_id : string;
  rj_repoPath : string;
  rj_query : option string;
  rj_reportPath : option string;
  rj_dataFlowDiagramPath : option string;
  rj_threatModelPath : option string;
  rj_riskRegistryPath : option string;
  rj_createdAt : nat;
  rj_completedAt : option nat
}.

(** The filter of lines 1296-1297. *)
Definition has_report (job : ThreatModelingJob) : bool :=
  JobStatus_eqb (status job) completed
  && (truthy (threat_model_path job) || truthy (report_path job)).

Definition report_json (job : ThreatModelingJob) : ReportJson :=
  {| rj_id := job_id job;
     rj_repoPath := repo_path job;
     rj_query := query job;
     rj_reportPath := or_else (report_path job) (threat_model_path job);
     rj_dataFlowDiagramPath := data_flow_diagram_path job;
     rj_threatModelPath := threat_model_path job;
     rj_riskRegistryPath := risk_registry_path job;
     rj_createdAt := created_at job;
     rj_completedAt := completed_at job |}.

(** ** GET /api/threat-modeling/reports, lines 1290-1319. *)
Definition reportsRoute (t : gmap string ThreatModelingJob) (userId : nat)
  : Reply (list ReportJson) :=
  Success (map report_json
             (List.filter has_report (findByUserId t userId default_limit))).

(** A value of [req.query]: a string, or an array or object. *)
Inductive QueryValue : Type :=
| QString (s : string)
| QOther.

(** [type === name] *)
Definition query_is (v : QueryValue) (name : string) : bool :=
  match v with
  | QString s => String.eqb s name
  | QOther => false
  end.

(** What the download route sends. *)
Inductive DownloadReply : Type :=
| SendArchive (attachment : string) (files : list (string * string))
    (* res.attachment(name); zip.file(path, { name }) for each, zip.finalize() *)
| SendFile (filePath filename : string)             (* res.download(filePath, filename) *)
| DownloadFailure (code : nat) (error : string) (message : option string).

(** [zip.file(p, { name: path.basename(p) })] when [p] is set and exists. *)
Definition archive_member (disk : Disk) (p : option string) : list (string * string) :=
  match p with
  | Some file =>
      if truthy p && disk_exists disk file then [(file, basename file)] else []
  | None => []
  end.

(** ** GET /api/threat-modeling/reports/:jobId/download, lines 1323-1398. *)
Definition downloadRoute (t : gmap string ThreatModelingJob) (disk : Disk)
    (jobId : string) (type : option QueryValue) (userId : nat) : DownloadReply :=
  let type := match type with
              | Some v => v
              | None => QString "all"
              end in
  match ThreatModelingJobModel.findById t jobId with
  | Ok job =>
      if negb (Nat.eqb (user_id job) userId)
      then DownloadFailure 403 "Access denied" None
      else if negb (JobStatus_eqb (status job) completed)
      then DownloadFailure 404 "Report not available" None
      else if query_is type "all" then
        SendArchive ("threat_modeling_reports_" ++ jobId ++ ".zip")
          (archive_member disk (data_flow_diagram_path job)
           ++ archive_member disk (threat_model_path job)
           ++ archive_member disk (risk_registry_path job)
           ++ (if negb (truthy (threat_model_path job))
               then archive_member disk (report_path job) else []))%list
      else
        let chosen : option string * string :=
          if query_is type "data_flow_diagram" && truthy (data_flow_diagram_path job)
          then (data_flow_diagram_path job, "data_flow_diagram_" ++ jobId ++ ".txt")
          else if query_is type "threat_model" && truthy (threat_model_path job)
          then (threat_model_path job, "threat_model_" ++ jobId ++ ".txt")
          else if query_is type "risk_registry" && truthy (risk_registry_path job)
          then (risk_registry_path job, "risk_registry_" ++ jobId ++ ".txt")
          else if query_is type "threat_model" && truthy (report_path job)
          then (report_path job, "threat_model_" ++ jobId ++ ".txt")
          else (None, "") in
        match fst chosen with
        | Some filePath =>
            if negb (truthy (fst chosen)) || negb (disk_exists disk filePath)
            then DownloadFailure 404 "Report file not found" None
            else SendFile filePath (snd chosen)
        | None => DownloadFailure 404 "Report file not found" None
        end
  | Throw error =>
      let message := message_or "Unknown error occurred" error in
      if includes message "not found"
      then DownloadFailure 404 "Job or report not found" (Some message)
      else DownloadFailure 500 "Failed to download report" (Some message)
  end.

(* ===================================================================== *)
(** * 14. Encryption of stored secrets: utils/encryption.ts               *)
(* ===================================================================== *)

(** [trim()] on code units below 256. *)
Definition string_rev (s : string) : string :=
  string_of_list_ascii (rev (list_ascii_of_string s)).

Definition trim (s : string) : string :=
  string_rev (skip_spaces (string_rev (skip_spaces s))).

(** [buf.toString('hex')] *)
Definition hex_digit (n : nat) : ascii :=
  match n with
  | 0 => "0" | 1 => "1" | 2 => "2" | 3 => "3" | 4 => "4" | 5 => "5" | 6 => "6"
  | 7 => "7" | 8 => "8" | 9 => "9" | 10 => "a" | 11 => "b" | 12 => "c"
  | 13 => "d" | 14 => "e" | _ => "f"
  end%char.

Fixpoint toHex (bytes : list Byte.byte) : string :=
  match bytes with
  | [] => EmptyString
  | b :: rest =>
      String (hex_digit (Byte.to_nat b / 16))
        (String (hex_digit (Byte.to_nat b mod 16)) (toHex rest))
  end.

Definition hex_value (c : ascii) : option nat :=
  let n := code c in
  if Nat.leb 48 n && Nat.leb n 57 then Some (n - 48)
  else if Nat.leb 97 n && Nat.leb n 102 then Some (n - 87)
  else if Nat.leb 65 n && Nat.leb n 70 then Some (n - 55)
  else None.

(** [Buffer.from(s, 'hex')]: decoding stops at the first pair that is not
    two hexadecimal digits; a last single character is dropped. *)
Fixpoint fromHex (s : string) : list Byte.byte :=
  match s with
  | String a (String b rest) =>
      match hex_value a, hex_value b with
      | Some hi, Some lo =>
          match Byte.of_nat (16 * hi + lo) with
          | Some byte => byte :: fromHex rest
          | None => []
          end
      | _, _ => []
      end
  | _ => []
  end.

(** The primitives of Node's [crypto] module that the file calls.
    [cr_cipher key iv text] stands for [createCipheriv('aes-256-gcm', key,
    iv)] fed with [text] as UTF-8: the ciphertext and the authentication
    tag.  [cr_decipher key iv tag ciphertext] stands for [createDecipheriv]
    with [setAuthTag(tag)], read as UTF-8; it throws when the tag does not
    authenticate.  [cr_randomBytes n size] is what the [n]-th call of
    [crypto.randomBytes] returns when asked for [size] bytes. *)
Record Crypto : Type := mkCrypto {
  cr_pbkdf2Sync : string -> list Byte.byte -> list Byte.byte;
  cr_cipher : list Byte.byte -> list Byte.byte -> string -> list Byte.byte * list Byte.byte;
  cr_decipher : list Byte.byte -> list Byte.byte -> list Byte.byte -> list Byte.byte
                -> Result string;
  cr_randomBytes : nat -> nat -> list Byte.byte
}.

Definition IV_LENGTH : nat := 16.
Definition SALT_LENGTH : nat := 64.

Definition deriveKey (C : Crypto) (encryptionKey : string) (salt : list Byte.byte)
  : list Byte.byte :=
  cr_pbkdf2Sync C encryptionKey salt.

(** [encrypt(text, encryptionKey)], given the salt and the IV it draws. *)
Definition encrypt_with (C : Crypto) (salt iv : list Byte.byte)
    (text encryptionKey : string) : string :=
  let key := deriveKey C encryptionKey salt in
  let sealed := cr_cipher C key iv text in
  toHex salt ++ ":" ++ toHex iv ++ ":" ++ toHex (snd sealed) ++ ":" ++ toHex (fst sealed).

(** [decrypt(encryptedData, encryptionKey)] *)
Definition decrypt (C : Crypto) (encryptedData encryptionKey : string) : Result string :=
  if String.eqb encryptedData "" then Ok ""
  else
    let attempt_ : Result string :=
      match split_on ":" encryptedData with
      | [saltHex; ivHex; tagHex; ciphertext] =>
          let salt := fromHex saltHex in
          let iv := fromHex ivHex in
          let tag := fromHex tagHex in
          let key := deriveKey C encryptionKey salt in
          cr_decipher C key iv tag (fromHex ciphertext)
      | _ => Throw (JsError "Invalid encrypted data format")
      end in
    match attempt_ with
    | Ok decrypted => Ok decrypted
    | Throw error =>
        Throw (JsError ("Decryption failed: " ++ message_or "Unknown error" error))
    end.

(* ===================================================================== *)
(** * 15. The settings store: SettingsModel and routes/settings.ts        *)
(* ===================================================================== *)

(** The row of table [settings] (its [id] is 1 by a CHECK constraint).
    A number that arrives in a JSON body is a finite double, hence a
    rational. *)
Record Settings : Type := mkSettings {
  encryption_key : string;
  anthropic_api_key : option string;
  anthropic_base_url : string;
  claude_code_max_output_tokens : option QArith_base.Q;
  settings_updated_at : nat
}.

(** [SettingsWithoutSensitive] *)
Record SettingsView : Type := mkSettingsView {
  sv_encryption_key : string;
  sv_anthropic_api_key : option string;
  sv_anthropic_base_url : string;
  sv_claude_code_max_output_tokens : option QArith_base.Q;
  sv_updated_at : nat
}.

(** The table, CURRENT_TIMESTAMP, and how often [crypto.randomBytes] has
    been called. *)
Record SettingsStore : Type := mkStore {
  settings_row : option Settings;
  settings_clock : nat;
  random_calls : nat
}.

(** Computations on the settings store that may throw. *)
Definition Op (A : Type) : Type := SettingsStore -> SettingsStore * Result A.

Definition op_ret {A} (a : A) : Op A := fun st => (st, Ok a).

Definition op_throw {A} (e : thrown) : Op A := fun st => (st, Throw e).

Definition op_bind {A B} (m : Op A) (k : A -> Op B) : Op B :=
  fun st =>
    match m st with
    | (st', Ok a) => k a st'
    | (st', Throw e) => (st', Throw e)
    end.

Definition op_try {A} (m : Op A) (handler : thrown -> Op A) : Op A :=
  fun st =>
    match m st with
    | (st', Ok a) => (st', Ok a)
    | (st', Throw e) => handler e st'
    end.

Declare Scope settings_scope.
Delimit Scope settings_scope with settings.
Notation "x <- m ;; k" := (op_bind m (fun x => k))
  (at level 100, m at next level, right associativity) : settings_scope.
Notation "m ;; k" := (op_bind m (fun _ => k))
  (at level 100, right associativity) : settings_scope.

(** [crypto.randomBytes(size)] *)
Definition randomBytes (C : Crypto) (size : nat) : Op (list Byte.byte) :=
  fun st =>
    ({| settings_row := settings_row st; settings_clock := settings_clock st;
        random_calls := S (random_calls st) |},
     Ok (cr_randomBytes C (random_calls st) size)).

(** [encrypt(text, encryptionKey)] of utils/encryption.ts, lines 31-55. *)
Definition encrypt (C : Crypto) (text encryptionKey : string) : Op string :=
  if String.eqb text "" then op_ret ""
  else
    (salt <- randomBytes C SALT_LENGTH ;;
     iv <- randomBytes C IV_LENGTH ;;
     op_ret (encrypt_with C salt iv text encryptionKey))%settings.

(** One UPDATE of the row with [id = 1]: no row, no change. *)
Definition update_row (change : nat -> Settings -> Settings) : Op unit :=
  fun st =>
    ({| settings_row := option_map (change (settings_clock st)) (settings_row st);
        settings_clock := S (settings_clock st);
        random_calls := random_calls st |}, Ok tt).

Definition set_encryption_key (key : string) (apiKey : option string) (now : nat)
    (s : Settings) : Settings :=
  {| encryption_key := key; anthropic_api_key := apiKey;
     anthropic_base_url := anthropic_base_url s;
     claude_code_max_output_tokens := claude_code_max_output_tokens s;
     settings_updated_at := now |}.

Definition set_anthropic_api_key (apiKey : option string) (now : nat) (s : Settings)
  : Settings :=
  {| encryption_key := encryption_key s; anthropic_api_key := apiKey;
     anthropic_base_url := anthropic_base_url s;
     claude_code_max_output_tokens := claude_code_max_output_tokens s;
     settings_updated_at := now |}.

Definition set_anthropic_base_url (baseUrl : string) (now : nat) (s : Settings)
  : Settings :=
  {| encryption_key := encryption_key s; anthropic_api_key := anthropic_api_key s;
     anthropic_base_url := baseUrl;
     claude_code_max_output_tokens := claude_code_max_output_tokens s;
     settings_updated_at := now |}.

Definition set_max_output_tokens (maxTokens : option QArith_base.Q) (now : nat)
    (s : Settings) : Settings :=
  {| encryption_key := encryption_key s; anthropic_api_key := anthropic_api_key s;
     anthropic_base_url := anthropic_base_url s;
     claude_code_max_output_tokens := maxTokens;
     settings_updated_at := now |}.

(** What [update] is asked to change; [None] is a property left undefined. *)
Record SettingsUpdates : Type := mkUpdates {
  up_encryption_key : option string;
  up_anthropic_api_key : option string;
  up_anthropic_base_url : option string;
  up_claude_code_max_output_tokens : option (option QArith_base.Q)
}.

(** [v !== undefined] *)
Definition is_defined {A} (v : option A) : bool :=
  match v with
  | Some _ => true
  | None => false
  end.

(** [maxTokens < 1 || maxTokens > 1000000] *)
Definition tokens_out_of_range (maxTokens : QArith_base.Q) : bool :=
  negb (QArith_base.Qle_bool (QArith_base.inject_Z 1) maxTokens)
  || negb (QArith_base.Qle_bool maxTokens (QArith_base.inject_Z 1000000)).

Module SettingsModel.

Section WithCrypto.

Variable C : Crypto.

Local Open Scope settings_scope.

(** [SettingsModel.get(includeDecryptedApiKey)] *)
Definition get (includeDecryptedApiKey : bool) : Op SettingsView :=
  fun st =>
    match settings_row st with
    | None => (st, Throw (JsError "Settings not found"))
    | Some settings =>
        let decrypted : Result (option string) :=
          match anthropic_api_key settings with
          | Some stored =>
              if includeDecryptedApiKey && truthy (anthropic_api_key settings) then
                match decrypt C stored (encryption_key settings) with
                | Ok apiKey => Ok (Some apiKey)
                | Throw _ =>
                    Throw (JsError "Failed to decrypt API key. Encryption key may have changed.")
                end
              else Ok None
          | None => Ok None
          end in
        match decrypted with
        | Ok decryptedApiKey =>
            (st, Ok {| sv_encryption_key := encryption_key settings;
                       sv_anthropic_api_key := decryptedApiKey;
                       sv_anthropic_base_url := anthropic_base_url settings;
                       sv_claude_code_max_output_tokens :=
                         claude_code_max_output_tokens settings;
                       sv_updated_at := settings_updated_at settings |})
        | Throw e => (st, Throw e)
        end
    end.

(** [apiKey ? encrypt(apiKey, key) : null] *)
Definition encrypt_if_set (apiKey : option string) (key : string) : Op (option string) :=
  match apiKey with
  | Some text =>
      if truthy apiKey then (sealed <- encrypt C text key ;; op_ret (Some sealed))
      else op_ret None
  | None => op_ret None
  end.

Definition updateEncryptionKey (newEncryptionKey : string) : Op unit :=
  if negb (truthy (Some newEncryptionKey))
     || Nat.ltb (String.length newEncryptionKey) 32
  then op_throw (JsError "Encryption key must be at least 32 characters")
  else
    currentSettings <- get true ;;
    encryptedApiKey <-
      encrypt_if_set (sv_anthropic_api_key currentSettings) newEncryptionKey ;;
    update_row (set_encryption_key newEncryptionKey encryptedApiKey).

Definition regenerateEncryptionKey : Op string :=
  bytes <- randomBytes C 32 ;;
  let newEncryptionKey := toHex bytes in
  currentSettings <- get false ;;
  encryptedApiKey <-
    (if truthy (sv_anthropic_api_key currentSettings) then
       op_try
         (settingsWithKey <- get true ;;
          encrypt_if_set (sv_anthropic_api_key settingsWithKey) newEncryptionKey)
         (fun _ =>
            op_throw (JsError "Failed to re-encrypt API key. The existing API key may be corrupted or the encryption key may have changed."))
     else op_ret None) ;;
  update_row (set_encryption_key newEncryptionKey encryptedApiKey) ;;
  op_ret newEncryptionKey.

Definition updateAnthropicApiKey (apiKey : string) : Op unit :=
  currentSettings <- get false ;;
  encryptedApiKey <- encrypt C apiKey (sv_encryption_key currentSettings) ;;
  update_row (set_anthropic_api_key (Some encryptedApiKey)).

Definition updateAnthropicBaseUrl (baseUrl : string) : Op unit :=
  update_row (set_anthropic_base_url baseUrl).

Definition updateClaudeCodeMaxOutputTokens (maxTokens : option QArith_base.Q) : Op unit :=
  match maxTokens with
  | Some n =>
      if tokens_out_of_range n
      then op_throw (JsError "Claude Code max output tokens must be between 1 and 1000000")
      else update_row (set_max_output_tokens maxTokens)
  | None => update_row (set_max_output_tokens maxTokens)
  end.

(** [SettingsModel.update(updates)] *)
Definition update (updates : SettingsUpdates) : Op SettingsView :=
  currentSettings <- get false ;;
  let oldEncryptionKey := sv_encryption_key currentSettings in
  (* the encryption key, and the API key under the new key *)
  match up_encryption_key updates with
  | Some newKey =>
      if truthy (up_encryption_key updates) then
        if Nat.ltb (String.length newKey) 32
        then op_throw (JsError "Encryption key must be at least 32 characters")
        else
          currentApiKey <-
            match sv_anthropic_api_key currentSettings with
            | Some stored =>
                if truthy (sv_anthropic_api_key currentSettings) then
                  fun st =>
                    match decrypt C stored oldEncryptionKey with
                    | Ok apiKey => (st, Ok (Some apiKey))
                    | Throw _ =>
                        (st, Throw (JsError "Failed to decrypt existing API key. Cannot update encryption key."))
                    end
                else op_ret None
            | None => op_ret None
            end ;;
          update_row (fun now s =>
            set_encryption_key newKey (anthropic_api_key s) now s) ;;
          match currentApiKey with
          | Some apiKey =>
              if truthy currentApiKey then
                encryptedApiKey <- encrypt C apiKey newKey ;;
                update_row (set_anthropic_api_key (Some encryptedApiKey))
              else op_ret tt
          | None => op_ret tt
          end
      else op_ret tt
  | None => op_ret tt
  end ;;
  (* the API key, under the encryption key now in force *)
  match up_anthropic_api_key updates with
  | Some apiKey =>
      if Nat.eqb (String.length (trim apiKey)) 0
      then op_throw (JsError "Anthropic API key cannot be empty")
      else
        currentSettingsForEncryption <- get false ;;
        encryptedApiKey <-
          encrypt C apiKey (sv_encryption_key currentSettingsForEncryption) ;;
        update_row (set_anthropic_api_key (Some encryptedApiKey)) ;;
        fun st =>
          match settings_row st with
          | Some verify =>
              if truthy (anthropic_api_key verify) then (st, Ok tt)
              else (st, Throw (JsError "Failed to save API key to database"))
          | None => (st, Throw (JsError "Failed to save API key to database"))
          end
  | None => op_ret tt
  end ;;
  match up_anthropic_base_url updates with
  | Some baseUrl => updateAnthropicBaseUrl baseUrl
  | None => op_ret tt
  end ;;
  match up_claude_code_max_output_tokens updates with
  | Some maxTokens => updateClaudeCodeMaxOutputTokens maxTokens
  | None => op_ret tt
  end ;;
  get (is_defined (up_anthropic_api_key updates)).

(** Lines 449-459: why there is no usable key. *)
Definition report_missing_key {A} : Op A :=
  fun st =>
    match settings_row st with
    | Some dbSettings =>
        if negb (truthy (anthropic_api_key dbSettings))
        then (st, Throw (JsError "Anthropic API key not configured in database. Please configure it in the admin settings panel."))
        else (st, Throw (JsError "Anthropic API key is configured but empty. Please update it in the admin settings panel."))
    | None =>
        (st, Throw (JsError "Anthropic API key not configured in database. Please configure it in the admin settings panel."))
    end.

(** [SettingsModel.getAnthropicConfig()]: the API key and the base URL. *)
Definition getAnthropicConfig : Op (string * string) :=
  op_try
    (settings <- get true ;;
     match sv_anthropic_api_key settings with
     | Some apiKey =>
         if negb (truthy (sv_anthropic_api_key settings))
            || Nat.eqb (String.length (trim apiKey)) 0
         then report_missing_key
         else op_ret (apiKey, sv_anthropic_base_url settings)
     | None => report_missing_key
     end)
    (fun error =>
       match error with
       | JsError message =>
           if includes message "Failed to decrypt"
           then op_throw (JsError "Failed to decrypt API key. The encryption key may have changed. Please update the API key in the admin settings panel.")
           else op_throw error
       | JsOther => op_throw error
       end).

End WithCrypto.

End SettingsModel.

(** The settings as the routes serialize them: the API key is shown as
    ['***ENCRYPTED***'] or null. *)
Record SettingsJson : Type := mkSettingsJson {
  sj_encryption_key : string;
  sj_anthropic_api_key : option string;
  sj_anthropic_base_url : string;
  sj_claude_code_max_output_tokens : option QArith_base.Q;
  sj_updated_at : nat
}.

Definition settings_json (settings : SettingsView) : SettingsJson :=
  {| sj_encryption_key := sv_encryption_key settings;
     sj_anthropic_api_key :=
       if truthy (sv_anthropic_api_key settings) then Some "***ENCRYPTED***" else None;
     sj_anthropic_base_url := sv_anthropic_base_url settings;
     sj_claude_code_max_output_tokens := sv_claude_code_max_output_tokens settings;
     sj_updated_at := sv_updated_at settings |}.

(** ** GET /api/settings, routes/settings.ts lines 16-43. *)
Definition getSettingsRoute (C : Crypto) (userRole : option UserRole)
  : SettingsStore -> SettingsStore * Reply SettingsJson :=
  fun st =>
    if negb (role_is userRole Admin)
    then (st, Failure 403 "Access denied. Admin role required." None)
    else
      match SettingsModel.get C false st with
      | (st', Ok settings) => (st', Success (settings_json settings))
      | (st', Throw error) =>
          (st', Failure 500 "Failed to get settings"
                  (Some (message_or "Unknown error occurred" error)))
      end.

(** ** POST /api/settings/regenerate-encryption-key, lines 127-151: the
    new key, or the failure. *)
Definition regenerateEncryptionKeyRoute (C : Crypto) (userRole : option UserRole)
  : SettingsStore -> SettingsStore * Reply string :=
  fun st =>
    if negb (role_is userRole Admin)
    then (st, Failure 403 "Access denied. Admin role required." None)
    else
      match SettingsModel.regenerateEncryptionKey C st with
      | (st', Ok newEncryptionKey) => (st', Success newEncryptionKey)
      | (st', Throw error) =>
          (st', Failure 500 "Failed to regenerate encryption key"
                  (Some (message_or "Unknown error occurred" error)))
      end.

(* ===================================================================== *)
(** * 16. Orphaned uploads: utils/cleanupOrphanedUploads.ts               *)
(* ===================================================================== *)

(** What the cleanup reads from the disk: [fs.readdirSync(dir,
    { withFileTypes: true })], as the names with what [isFile()] and
    [isDirectory()] say of them, and whether [fs.statSync] throws.  The
    sizes and counts that the function adds up are only written with
    [logger.info], and [getDirectorySize] catches whatever it meets. *)
Record UploadsDisk : Type := mkUploadsDisk {
  ud_readdir : string -> Result (list (string * FileKind));
  ud_stat_fails : string -> option thrown
}.

(** The character class [[a-f0-9]]. *)
Definition is_lower_hex (c : ascii) : bool :=
  let n := code c in
  (Nat.leb 97 n && Nat.leb n 102) || (Nat.leb 48 n && Nat.leb n 57).

(** [name.match(/^[a-f0-9]{32}$/)] *)
Definition is_hash_name (name : string) : bool :=
  Nat.eqb (String.length name) 32 && forallb is_lower_hex (list_ascii_of_string name).

(** [for (const x of l) { body(x) }] *)
Fixpoint for_each {A} (body : A -> M unit) (l : list A) : M unit :=
  match l with
  | [] => ret tt
  | x :: rest => body x ;; for_each body rest
  end.

Section Cleanup.

Variable E : Env.
Variable U : UploadsDisk.

Definition readdir_withFileTypes (dir : string) : M (list (string * FileKind)) :=
  lift (ud_readdir U dir).

Definition statSync (p : string) : M unit :=
  fun w =>
    match ud_stat_fails U p with
    | Some e => (w, Throw e)
    | None => (w, Ok tt)
    end.

Definition subdirs : list string := ["threat-modeling"].

(** Lines 141-167: one entry of [uploads/threat-modeling]. *)
Definition remove_orphan (subdirPath : string) (entry : string * FileKind) : M unit :=
  let name := fst entry in
  let fullPath := path_join [subdirPath; name] in
  attempt ("Failed to remove " ++ name)
    match snd entry with
    | KDirectory =>
        when_ (startsWith name "extracted-") (fs_do E (FsRm fullPath))
    | KFile =>
        when_ (negb (includes name ".") || is_hash_name name)
          (statSync fullPath ;; fs_do E (FsUnlink fullPath))
    | KOther => ret tt
    end.

(** Lines 177-195: one entry of [uploads] itself. *)
Definition remove_root_orphan (uploadsDir : string) (entry : string * FileKind) : M unit :=
  let name := fst entry in
  if existsb (String.eqb name) subdirs then ret tt
  else
    let fullPath := path_join [uploadsDir; name] in
    attempt ("Failed to remove " ++ name)
      match snd entry with
      | KFile => statSync fullPath ;; fs_do E (FsUnlink fullPath)
      | _ => ret tt
      end.

(** [cleanupOrphanedUploads()], lines 115-205. *)
Definition cleanupOrphanedUploads : M unit :=
  cwd0 <- read cwd ;;
  let uploadsDir := path_join [cwd0; "uploads"] in
  uploadsExists <- path_exists uploadsDir ;;
  if negb uploadsExists then ret tt
  else
    for_each
      (fun subdir =>
         let subdirPath := path_join [uploadsDir; subdir] in
         subdirExists <- path_exists subdirPath ;;
         if negb subdirExists then ret tt
         else
           attempt ("Error reading " ++ subdir ++ " directory")
             (entries <- readdir_withFileTypes subdirPath ;;
              for_each (remove_orphan subdirPath) entries))
      subdirs ;;
    attempt "Error reading uploads directory"
      (rootEntries <- readdir_withFileTypes uploadsDir ;;
       for_each (remove_root_orphan uploadsDir) rootEntries).

End Cleanup.

(* ===================================================================== *)
(** * Vocabulary of the properties of sections 11 and later               *)
(* ===================================================================== *)

(** The paths whose content a download reply sends. *)
Definition sent_paths (reply : DownloadReply) : list string :=
  match reply with
  | SendArchive _ files => map fst files
  | SendFile filePath _ => [filePath]
  | DownloadFailure _ _ _ => []
  end.

Definition sends_data (reply : DownloadReply) : bool :=
  match reply with
  | DownloadFailure _ _ _ => false
  | _ => true
  end.

(** The four columns of a row that hold a report path. *)
Definition stored_report_paths (job : ThreatModelingJob) : list (option string) :=
  [data_flow_diagram_path job; threat_model_path job; risk_registry_path job;
   report_path job].



(* ===================================================================== *)
(** * Sample data for the statements of sections 11 and later             *)
(* ===================================================================== *)

Definition sample_users : gmap nat User :=
  {[ 1 := {| u_id := 1; u_username := "alice"; u_email := "alice@example.org";
             u_password_hash := "$2b$10$hash"; u_password_changed := 1;
             u_role := Operator; u_created_at := 1; u_updated_at := 1 |} ]}.

Definition sample_report : string :=
  "/app/backend/threat-modeling-reports/job-1/threat_model_report.md".

(** The sample job once its run has completed with a threat model. *)
Definition sample_completed_row : ThreatModelingJob :=
  {| job_id := "job-1"; user_id := 1; repo_path := "[UPLOADED] myapp.zip";
     query := Some "Perform threat modeling analysis"; status := completed;
     report_path := Some sample_report; data_flow_diagram_path := None;
     threat_model_path := Some sample_report; risk_registry_path := None;
     error_message := None; repo_name := Some "myapp"; git_branch := None;
     git_commit := None; execution_duration := Some 12%Z; api_cost := Some "$0.32";
     created_at := 100; updated_at := 130; completed_at := Some 130 |}.

Definition sample_completed_table : gmap string ThreatModelingJob :=
  {[ "job-1" := sample_completed_row ]}.

Definition sample_disk : Disk :=
  {| disk_exists := fun p => String.eqb p sample_report;
     disk_read := fun p =>
       if String.eqb p sample_report then Ok "# Threat model"
       else Throw (JsError "ENOENT: no such file or directory") |}.

(** The cipher authenticates: what was sealed under a key, an IV and the
    tag it produced is opened again by them. *)
Definition authentic (C : Crypto) : Prop :=
  forall key iv text,
    cr_decipher C key iv (snd (cr_cipher C key iv text)) (fst (cr_cipher C key iv text))
    = Ok text.

(** A row of the settings table that the model would accept. *)
Definition settings_valid (s : Settings) : Prop :=
  32 <= String.length (encryption_key s)
  /\ match claude_code_max_output_tokens s with
     | Some n => tokens_out_of_range n = false
     | None => True
     end.

Definition store_valid (st : SettingsStore) : Prop :=
  forall s, settings_row st = Some s -> settings_valid s.

(** A stand-in for the cipher, for the sample statements: the tag is the
    derived key, so that opening under another key fails. *)
Definition sample_crypto : Crypto :=
  {| cr_pbkdf2Sync := fun encryptionKey salt =>
       (list_byte_of_string encryptionKey ++ salt)%list;
     cr_cipher := fun key iv text => (list_byte_of_string text, key);
     cr_decipher := fun key iv tag ciphertext =>
       if String.eqb (toHex tag) (toHex key)
       then Ok (string_of_list_byte ciphertext)
       else Throw (JsError "Unsupported state or unable to authenticate data");
     cr_randomBytes := fun n size => repeat Byte.x2a size |}.

Definition sample_key : string := "0123456789abcdef0123456789abcdef".
Definition sample_new_key : string := "fedcba9876543210fedcba9876543210".

Definition sample_settings : Settings :=
  {| encryption_key := sample_key;
     anthropic_api_key := None;
     anthropic_base_url := "https://api.anthropic.com";
     claude_code_max_output_tokens := Some (QArith_base.inject_Z 32000);
     settings_updated_at := 1 |}.

Definition sample_store : SettingsStore :=
  {| settings_row := Some sample_settings; settings_clock := 10; random_calls := 0 |}.

(** The sample store once an API key has been saved. *)
Definition sample_store_with_key : SettingsStore :=
  fst (SettingsModel.updateAnthropicApiKey sample_crypto "sk-ant-123" sample_store).

(** A computation on the settings store keeps a property of the store,
    whether it returns or throws. *)
Definition op_keeps {A} (P : SettingsStore -> Prop) (m : Op A) : Prop :=
  forall st, P st -> P (fst (m st)).

(** A string without a path separator. *)
Fixpoint no_slash (s : string) : bool :=
  match s with
  | EmptyString => true
  | String c rest => negb (Ascii.eqb c "/") && no_slash rest
  end.

(** A path segment that [path.normalize] keeps as it is. *)
Definition plain_segment (s : string) : bool :=
  no_slash s && negb (String.eqb s "") && negb (String.eqb s ".")
  && negb (String.eqb s "..").

(** The absolute path [/seg1/.../segn]; it is normalized when the segments
    are plain. *)
Definition absolute_path (segs : list string) : string := "/" ++ join "/" segs.

(** A character of the class [[\d.]]. *)
Definition amount_char (c : ascii) : bool :=
  (Nat.leb 48 (code c) && Nat.leb (code c) 57) || Nat.eqb (code c) 46.

(** A relation between the world before a computation and the world after
    it, whether it returns or throws. *)
Definition relates {A} (R : World -> World -> Prop) (m : M A) : Prop :=
  forall w, R w (fst (m w)).

(** The working directory and the mutex are not touched, and the log only
    grows. *)
Definition quiet_step (w w' : World) : Prop :=
  cwd w' = cwd w /\ mutex_calls w' = mutex_calls w
  /\ exists logged, warnings w' = (warnings w ++ logged)%list.

(** The entry logged at line 641. *)
Definition restore_warning (e : thrown) : LogEntry :=
  {| log_what := "Failed to restore working directory on error"; log_error := e |}.

(** One pass through the critical section of ticket [t] around [workDir]:
    the lock is asked for once and its release callback is invoked once or
    twice; the working directory is back where it was, or it is left at
    [workDir] and the failure to restore it has been logged. *)
Definition critical_step (t : nat) (workDir : string) (w w' : World) : Prop :=
  (mutex_calls w' = (mutex_calls w ++ [Acquire t; Release t])%list
   \/ mutex_calls w' = (mutex_calls w ++ [Acquire t; Release t; Release t])%list)
  /\ exists logged,
       warnings w' = (warnings w ++ logged)%list
       /\ (cwd w' = cwd w
           \/ (cwd w' = workDir /\ exists e, In (restore_warning e) logged)).

Definition run_step (t : nat) (workDir : string) (w w' : World) : Prop :=
  quiet_step w w' \/ critical_step t workDir w w'.

(** The file-system calls that a cleanup started in directory [cwd0] may
    make: the removal of a directory [extracted-*] of
    [uploads/threat-modeling], of a file of that directory whose name has no
    dot, or of a file of [uploads] itself. *)
Definition cleanup_target (U : UploadsDisk) (cwd0 : string) (op : FsOp) : Prop :=
  let uploadsDir := path_join [cwd0; "uploads"] in
  let subdirPath := path_join [uploadsDir; "threat-modeling"] in
  (exists name entries,
     ud_readdir U subdirPath = Ok entries /\ In (name, KDirectory) entries
     /\ startsWith name "extracted-" = true
     /\ op = FsRm (path_join [subdirPath; name]))
  \/ (exists name entries,
        ud_readdir U subdirPath = Ok entries /\ In (name, KFile) entries
        /\ includes name "." = false
        /\ op = FsUnlink (path_join [subdirPath; name]))
  \/ (exists name entries,
        ud_readdir U uploadsDir = Ok entries /\ In (name, KFile) entries
        /\ name <> "threat-modeling"
        /\ op = FsUnlink (path_join [uploadsDir; name])).

(** Nothing but the file system and the log changes; no path appears; and
    every file-system call made satisfies [P]. *)
Definition tidy_step (P : FsOp -> Prop) (w w' : World) : Prop :=
  jobs w' = jobs w /\ clock w' = clock w /\ runningJobs w' = runningJobs w
  /\ abortedJobs w' = abortedJobs w /\ cwd w' = cwd w
  /\ mutex_calls w' = mutex_calls w /\ history w' = history w
  /\ paths w' ⊆ paths w
  /\ exists calls,
       fs_trace w' = (fs_trace w ++ calls)%list
       /\ Forall (fun call => P (fst call)) calls.

(** The sample server with its upload directories, while job-1 is
    registered as running. *)
Definition sample_uploads_world : World :=
  let w := register "job-1" sample_zip sample_extracted sample_world in
  set_paths ({["/app/backend/uploads"; "/app/backend/uploads/threat-modeling"]} ∪ paths w) w.

Definition sample_uploads_disk : UploadsDisk :=
  {| ud_readdir := fun dir =>
       if String.eqb dir "/app/backend/uploads/threat-modeling"
       then Ok [("f3a9", KFile); ("extracted-f3a9", KDirectory)]
       else if String.eqb dir "/app/backend/uploads"
       then Ok [("threat-modeling", KDirectory)]
       else Throw (JsError "ENOENT: no such file or directory, scandir");
     ud_stat_fails := fun _ => None |}.

(* ===================================================================== *)
(** * Part II. Properties                                                 *)
(* ===================================================================== *)

(* --------------------------------------------------------------------- *)
(** ** ChdirMutex                                                         *)
(* --------------------------------------------------------------------- *)
















(* --------------------------------------------------------------------- *)
(** ** The sanitized repository directory name                            *)
(* --------------------------------------------------------------------- *)

Lemma is_name_char_alphabet (c : ascii) :
  is_name_char c = true <-> In c (list_ascii_of_string name_alphabet).
Proof.
  destruct c as [[] [] [] [] [] [] [] []]; vm_compute;
    (split; [intros H; first [discriminate H | tauto] | intros H; first [reflexivity | intuition discriminate]]).
Qed.

Lemma replace_invalid_map (name : string) :
  list_ascii_of_string (replace_invalid name)
  = map (fun c => if is_name_char c then c else "_"%char) (list_ascii_of_string name).
Proof.
  induction name as [|c rest IH]; simpl; [reflexivity|]. now rewrite IH.
Qed.

Lemma replace_invalid_allowed (name : string) :
  Forall (fun c => is_name_char c = true) (list_ascii_of_string (replace_invalid name)).
Proof.
  induction name as [|c rest IH]; simpl; constructor; [|exact IH].
  destruct (is_name_char c) eqn:Hc; [exact Hc|reflexivity].
Qed.

Lemma sanitizeRepoName_cases (name : string) :
  sanitizeRepoName name = match name with
                          | EmptyString => "repo"
                          | String _ _ => replace_invalid name
                          end.
Proof. destruct name; reflexivity. Qed.

Lemma sanitizeRepoName_allowed (name : string) :
  Forall (fun c => is_name_char c = true) (list_ascii_of_string (sanitizeRepoName name)).
Proof.
  rewrite sanitizeRepoName_cases. destruct name.
  - repeat constructor.
  - apply replace_invalid_allowed.
Qed.

Lemma sanitizeRepoName_nonempty (name : string) : sanitizeRepoName name <> "".
Proof. rewrite sanitizeRepoName_cases. destruct name; simpl; discriminate. Qed.

(** C9.  Whatever the candidate name, the sanitized name is not empty and
    consists of characters of [[A-Za-z0-9._-]] only: every character of that
    class is kept, every other character is replaced by an underscore, and
    an empty result is replaced by ['repo'].  The directory name computed
    by the controller is such a sanitized name. *)
Theorem sanitized_repo_name_is_safe :
  forall name : string,
    sanitizeRepoName name <> ""
    /\ Forall (fun c => In c (list_ascii_of_string name_alphabet))
              (list_ascii_of_string (sanitizeRepoName name))
    /\ list_ascii_of_string (replace_invalid name)
       = map (fun c => if bool_decide (In c (list_ascii_of_string name_alphabet))
                       then c else "_"%char)
             (list_ascii_of_string name)
    /\ sanitizeRepoName name
       = (if String.eqb (replace_invalid name) "" then "repo" else replace_invalid name)
    /\ (forall cwd extractedExists contents manifest git uploadedZipPath extractedDir
               zipFileName,
          match workspaceRepoName cwd extractedExists contents manifest git
                  uploadedZipPath extractedDir zipFileName with
          | Ok dirName =>
              dirName <> ""
              /\ Forall (fun c => In c (list_ascii_of_string name_alphabet))
                        (list_ascii_of_string dirName)
          | Throw _ => True
          end).
Proof.
  intros name.
  assert (Hall : forall n, Forall (fun c => In c (list_ascii_of_string name_alphabet))
                                  (list_ascii_of_string (sanitizeRepoName n))).
  { intros n. eapply List.Forall_impl; [|apply sanitizeRepoName_allowed].
    intros c Hc. now apply is_name_char_alphabet. }
  split; [apply sanitizeRepoName_nonempty|].
  split; [apply Hall|].
  split.
  { rewrite replace_invalid_map. apply map_ext. intros c.
    destruct (is_name_char c) eqn:Hc.
    - rewrite bool_decide_eq_true_2; [reflexivity|now apply is_name_char_alphabet].
    - rewrite bool_decide_eq_false_2; [reflexivity|].
      intros Hin. apply is_name_char_alphabet in Hin. congruence. }
  split.
  { rewrite sanitizeRepoName_cases. destruct name; reflexivity. }
  intros. unfold workspaceRepoName.
  destruct (chooseRepoName _ _ _ _ _ _ _ _); [|exact I].
  split; [apply sanitizeRepoName_nonempty|apply Hall].
Qed.

(* --------------------------------------------------------------------- *)
(** ** Which name the repository directory gets                           *)
(* --------------------------------------------------------------------- *)

(** C7 (as amended).  The directory name is the sanitized form of the first
    non-empty candidate in this order: the archive's single top-level
    directory (when the extraction directory holds exactly one entry and it
    is a directory); the archive's original file name without a trailing
    [.zip]; the [name] of [package.json] in the extraction directory; the
    name of the extraction directory; ['repo'].  The first, third and fourth
    candidates exist only when an archive was uploaded and its extraction
    directory is there.  The only other outcome is the exception of
    [statSync] on a single unreadable entry. *)
Theorem repo_name_priority :
  forall cwd extractedExists contents manifest git uploadedZipPath extractedDir
         zipFileName,
    match workspaceRepoName cwd extractedExists contents manifest git
            uploadedZipPath extractedDir zipFileName with
    | Ok dirName =>
        dirName = sanitizeRepoName
                    (repoName_by_priority cwd extractedExists contents manifest
                       uploadedZipPath extractedDir zipFileName)
    | Throw _ =>
        from_archive extractedExists uploadedZipPath extractedDir
        && single_entry_unreadable contents = true
    end.
Proof.
  intros dir0 extractedExists contents manifest git uploadedZipPath extractedDir zipFileName.
  unfold workspaceRepoName, chooseRepoName, repoName_by_priority, from_archive,
    detectRepoMetadata, stripped_zip_name, manifest_name, single_root_directory,
    single_entry_unreadable.
  destruct extractedDir as [[|cd dir]|], uploadedZipPath as [[|cu up]|], extractedExists;
    simpl;
    try (destruct zipFileName as [[|c z]|]; simpl; try reflexivity;
         destruct (stripZipExt (String c z)); reflexivity).
  set (base := basename (path_resolve dir0 (String cd dir))).
  destruct contents as [|item [|item2 rest]]; simpl;
    [ | destruct (d_stat item) as [[| |]|]; simpl;
        [ | destruct (d_name item) as [|cn n]; simpl; [|reflexivity] | | reflexivity ] | ];
    (destruct zipFileName as [[|c z]|]; simpl;
     [ | destruct (stripZipExt (String c z)); simpl; [|reflexivity] | ];
     destruct manifest as [| |[[|cm n']|]]; simpl;
     destruct base; reflexivity).
Qed.

(** C7 as stated fails: for an archive [foo.zip] whose content is the single
    directory [bar], the code names the workspace directory [bar], where the
    claimed order gives [foo]. *)
Lemma repo_name_single_root_directory_first :
  workspaceRepoName "/app/backend" true [mkDirEnt "bar" (Some KDirectory)]
    NoManifest NoGitDir
    (Some "/app/backend/uploads/threat-modeling/f3a9")
    (Some "/app/backend/uploads/threat-modeling/extracted-f3a9")
    (Some "foo.zip") = Ok "bar"
  /\ sanitizeRepoName
       (repoName_as_claimed "/app/backend" true NoManifest
          (Some "/app/backend/uploads/threat-modeling/f3a9")
          (Some "/app/backend/uploads/threat-modeling/extracted-f3a9")
          (Some "foo.zip")) = "foo"
  /\ ~ (forall cwd extractedExists contents manifest git uploadedZipPath extractedDir
               zipFileName,
          workspaceRepoName cwd extractedExists contents manifest git
            uploadedZipPath extractedDir zipFileName
          = Ok (sanitizeRepoName
                  (repoName_as_claimed cwd extractedExists manifest
                     uploadedZipPath extractedDir zipFileName))).
Proof.
  split; [reflexivity|]. split; [reflexivity|].
  intros H.
  specialize (H "/app/backend" true [mkDirEnt "bar" (Some KDirectory)]
                NoManifest NoGitDir
                (Some "/app/backend/uploads/threat-modeling/f3a9")
                (Some "/app/backend/uploads/threat-modeling/extracted-f3a9")
                (Some "foo.zip")).
  vm_compute in H. discriminate H.
Qed.

(* --------------------------------------------------------------------- *)
(** ** Classification of harvested files                                  *)
(* --------------------------------------------------------------------- *)

Lemma classify_by_type (file destPath : string) (acc : ReportPaths) :
  classify file destPath acc
  = match report_type file with
    | Some t => set_path_of_type t destPath acc
    | None => acc
    end.
Proof.
  unfold classify, report_type, isDataFlow, isThreatModel, isRiskRegistry.
  destruct (includes (toLowerCase file) "data_flow" || includes (toLowerCase file) "dataflow");
    [reflexivity|].
  destruct (includes (toLowerCase file) "threat_model"
            || includes (toLowerCase file) "threatmodel"); [reflexivity|].
  destruct (includes (toLowerCase file) "risk_registry"
            || includes (toLowerCase file) "riskregistry"); reflexivity.
Qed.

Lemma path_of_type_classify (t : ReportType) (file destPath : string) (acc : ReportPaths) :
  path_of_type t (classify file destPath acc)
  = if has_type t file then Some destPath else path_of_type t acc.
Proof.
  rewrite classify_by_type. unfold has_type.
  destruct (report_type file) as [[]|]; destruct t; reflexivity.
Qed.


Lemma scan_directory_are_reports (searchDir : string) (dirFiles : list DirEnt) :
  Forall (fun rf => isDataFlow (rf_file rf) || isThreatModel (rf_file rf)
                    || isRiskRegistry (rf_file rf) = true
                    /\ rf_sourceDir rf = searchDir)
         (scan_directory searchDir dirFiles).
Proof.
  induction dirFiles as [|f rest IH]; simpl; [constructor|].
  destruct (d_stat f) as [[| |]|]; try exact IH; [|constructor].
  destruct (isDataFlow (d_name f) || isThreatModel (d_name f) || isRiskRegistry (d_name f))
    eqn:Hm; [|exact IH].
  constructor; [|exact IH]. simpl. now rewrite Hm.
Qed.


(* --------------------------------------------------------------------- *)
(** ** The error of an empty harvest                                      *)
(* --------------------------------------------------------------------- *)

Lemma append_empty_r (s : string) : s ++ "" = s.
Proof.
  induction s as [|c s IH]; [reflexivity|].
  change (String c (s ++ "") = String c s). now f_equal.
Qed.


(* --------------------------------------------------------------------- *)
(** ** Archive extraction                                                 *)
(* --------------------------------------------------------------------- *)

(** What the guard of lines 128-133 does ensure: every path written to has
    the normalized destination as a string prefix. *)
Lemma extract_entries_written_prefix (extractTo : string) (entries : list Entry) :
  forall fs written,
    Forall (fun w => startsWith (snd w) (normalize extractTo) = true) written ->
    Forall (fun w => startsWith (snd w) (normalize extractTo) = true)
           (snd (extract_entries extractTo entries fs written)).
Proof.
  induction entries as [|entry rest IH]; intros fs written Hw; simpl; [exact Hw|].
  destruct (is_directory_entry (fileName entry)); [now apply IH|].
  destruct (startsWith (normalize (path_join [extractTo; fileName entry]))
                       (normalize extractTo)) eqn:Hp; simpl; [|now apply IH].
  destruct (if existsSync fs (dirname (normalize (path_join [extractTo; fileName entry])))
            then Ok fs
            else mkdirSync (dirname (normalize (path_join [extractTo; fileName entry]))) fs)
    as [fs1|e]; simpl; [|exact Hw].
  destruct (readOutcome entry) as [e| |data [e|]]; simpl;
    [exact Hw|now apply IH|exact Hw|].
  destruct (bool_decide _); simpl; [exact Hw|].
  apply IH. apply Forall_app. split; [exact Hw|].
  constructor; [exact Hp|constructor].
Qed.

(** The archive of the specification's scenario: the entry [../../etc/passwd]
    is skipped, the entry next to it is extracted. *)
Example extractZip_skips_parent_traversal :
  let extractTo := "/app/backend/uploads/threat-modeling/extracted-f3a9" in
  extractZip
    (Opened [mkEntry "../../etc/passwd" (Stream "root" None);
             mkEntry "src/index.js" (Stream "code" None)])
    extractTo (mkFS ∅ ∅)
  = (Resolved,
     mkFS (list_to_set ["/app/backend/uploads/threat-modeling/extracted-f3a9/src";
                        "/app/backend/uploads/threat-modeling/extracted-f3a9";
                        "/app/backend/uploads/threat-modeling";
                        "/app/backend/uploads"; "/app/backend"; "/app"; "/"])
          {["/app/backend/uploads/threat-modeling/extracted-f3a9/src/index.js" := "code"]},
     [("src/index.js",
       "/app/backend/uploads/threat-modeling/extracted-f3a9/src/index.js")]).
Proof. vm_compute. reflexivity. Qed.


(* --------------------------------------------------------------------- *)
(** ** Reasoning about computations                                       *)
(* --------------------------------------------------------------------- *)

Lemma bind_Ok {A B} (m : M A) (k : A -> M B) (w w' : World) (a : A) :
  m w = (w', Ok a) -> bind m k w = k a w'.
Proof. intros H. unfold bind. now rewrite H. Qed.

Lemma bind_Throw {A B} (m : M A) (k : A -> M B) (w w' : World) (e : thrown) :
  m w = (w', Throw e) -> bind m k w = (w', Throw e).
Proof. intros H. unfold bind. now rewrite H. Qed.

Lemma hoare_bind {A B} (P Q R : World -> Prop) (m : M A) (k : A -> M B) :
  hoare P m Q -> (forall a, hoare Q (k a) R) -> (forall w, Q w -> R w) ->
  hoare P (bind m k) R.
Proof.
  intros Hm Hk HQR w Hw. unfold bind. specialize (Hm w Hw).
  destruct (m w) as [w' [a|e]]; simpl in *.
  - now apply Hk.
  - now apply HQR.
Qed.

Lemma hoare_try_catch {A} (P Q R : World -> Prop) (m : M A) (h : thrown -> M A) :
  hoare P m Q -> (forall e, hoare Q (h e) R) -> (forall w, Q w -> R w) ->
  hoare P (try_catch m h) R.
Proof.
  intros Hm Hh HQR w Hw. unfold try_catch. specialize (Hm w Hw).
  destruct (m w) as [w' [a|e]]; simpl in *.
  - now apply HQR.
  - now apply Hh.
Qed.

Lemma hoare_try_finally {A} (P Q R : World -> Prop) (m : M A) (c : M unit) :
  hoare P m Q -> hoare Q c R -> hoare P (try_finally m c) R.
Proof.
  intros Hm Hc w Hw. unfold try_finally. specialize (Hm w Hw).
  destruct (m w) as [w' r]; simpl in *. specialize (Hc w' Hm).
  destruct (c w') as [w'' [[]|e]]; exact Hc.
Qed.

Section Stable.

Variable P : World -> Prop.
Hypothesis P_core_only : core_only P.

Lemma stable_bind {A B} (m : M A) (k : A -> M B) :
  hoare P m P -> (forall a, hoare P (k a) P) -> hoare P (bind m k) P.
Proof. intros Hm Hk. apply (hoare_bind P P P); auto. Qed.

Lemma stable_try_catch {A} (m : M A) (h : thrown -> M A) :
  hoare P m P -> (forall e, hoare P (h e) P) -> hoare P (try_catch m h) P.
Proof. intros Hm Hh. apply (hoare_try_catch P P P); auto. Qed.

Lemma stable_ret {A} (a : A) : hoare P (ret a) P.
Proof. intros w Hw. exact Hw. Qed.

Lemma stable_throw {A} (e : thrown) : hoare P (@throw A e) P.
Proof. intros w Hw. exact Hw. Qed.

Lemma stable_lift {A} (r : Result A) : hoare P (lift r) P.
Proof. intros w Hw. exact Hw. Qed.

Lemma stable_read {A} (f : World -> A) : hoare P (read f) P.
Proof. intros w Hw. exact Hw. Qed.

Lemma stable_modify (f : World -> World) : keeps_core f -> hoare P (modify f) P.
Proof.
  intros Hf w Hw. simpl. destruct (Hf w) as [Hj [Hh Ha]].
  apply (P_core_only w); [now rewrite Hj|now rewrite Hh|now rewrite Ha|exact Hw].
Qed.

Lemma stable_when (b : bool) (m : M unit) : hoare P m P -> hoare P (when_ b m) P.
Proof. intros Hm. destruct b; [exact Hm|apply stable_ret]. Qed.

Lemma stable_warn (what : string) (e : thrown) : hoare P (warn what e) P.
Proof. apply stable_modify. intros w. split; [|split]; reflexivity. Qed.

Lemma stable_attempt (what : string) (m : M unit) :
  hoare P m P -> hoare P (attempt what m) P.
Proof. intros Hm. apply stable_try_catch; [exact Hm|]. intros e. apply stable_warn. Qed.

Lemma stable_on_table {A}
    (stmt : nat -> gmap string ThreatModelingJob ->
            gmap string ThreatModelingJob * Result A) :
  statement_keeps P stmt -> hoare P (on_table stmt) P.
Proof.
  intros Hs w Hw. unfold on_table. specialize (Hs w Hw).
  destruct (stmt (clock w) (jobs w)) as [jobs' r]. exact Hs.
Qed.

Lemma stable_findJob (id : string) : hoare P (findJob id) P.
Proof. intros w Hw. exact Hw. Qed.

Lemma stable_path_exists (p : string) : hoare P (path_exists p) P.
Proof. intros w Hw. exact Hw. Qed.

Lemma stable_fs_do (E : Env) (op : FsOp) : hoare P (fs_do E op) P.
Proof.
  intros w Hw. unfold fs_do. destruct (fs_failure E op w); simpl.
  - apply (P_core_only w); [reflexivity|reflexivity|reflexivity|exact Hw].
  - destruct op; simpl; apply (P_core_only w); try reflexivity; exact Hw.
Qed.

Lemma stable_checkCancellation (jobId : string) : hoare P (checkCancellation jobId) P.
Proof.
  intros w Hw. unfold checkCancellation. destruct (bool_decide _); exact Hw.
Qed.

Lemma stable_findAgentRunPath (E : Env) : hoare P (findAgentRunPath E) P.
Proof.
  intros w Hw. unfold findAgentRunPath. destruct (List.filter _ _); exact Hw.
Qed.

Lemma stable_determineRepoName (E : Env) (u x z : option string) :
  hoare P (determineRepoName E u x z) P.
Proof. intros w Hw. exact Hw. Qed.

Lemma stable_harvest (E : Env) (workDir repoDir : string) (exitCode : Z) :
  hoare P (harvest E workDir repoDir exitCode) P.
Proof.
  intros w Hw. unfold harvest. destruct (Nat.eqb _ _); exact Hw.
Qed.

End Stable.

Ltac keeps_core_tac := let w := fresh "w" in intros w; split; [|split]; reflexivity.

(** One step of a proof that a computation keeps a table-only property:
    [tbl] proves [core_only P], [stm] solves the statements on the table. *)
Ltac stable_step tbl stm :=
  lazymatch goal with
  | |- hoare _ (bind _ _) _ => apply (stable_bind _); [|intros ?]
  | |- hoare _ (try_catch _ _) _ => apply (stable_try_catch _); [|intros ?]
  | |- hoare _ (ret _) _ => apply stable_ret
  | |- hoare _ (throw _) _ => apply stable_throw
  | |- hoare _ (lift _) _ => apply stable_lift
  | |- hoare _ (read _) _ => apply stable_read
  | |- hoare _ (when_ _ _) _ => apply (stable_when _)
  | |- hoare _ (attempt _ _) _ => apply (stable_attempt _ tbl)
  | |- hoare _ (warn _ _) _ => apply (stable_warn _ tbl)
  | |- hoare _ (modify _) _ => apply (stable_modify _ tbl); keeps_core_tac
  | |- hoare _ (findJob _) _ => apply stable_findJob
  | |- hoare _ (path_exists _) _ => apply stable_path_exists
  | |- hoare _ (fs_do _ _) _ => apply (stable_fs_do _ tbl)
  | |- hoare _ (checkCancellation _) _ => apply stable_checkCancellation
  | |- hoare _ (findAgentRunPath _) _ => apply stable_findAgentRunPath
  | |- hoare _ (determineRepoName _ _ _ _) _ => apply stable_determineRepoName
  | |- hoare _ (harvest _ _ _ _) _ => apply stable_harvest
  | |- hoare _ (on_table _) _ => apply (stable_on_table _); stm
  | |- hoare _ (match ?x with _ => _ end) _ => destruct x
  | |- hoare _ (let _ := _ in _) _ => cbv zeta
  end.

Ltac stable_auto tbl stm := repeat (stable_step tbl stm).

Section TableUntouched.

(** Computations that run no statement keep any table-only property. *)
Variable P : World -> Prop.
Hypothesis P_core_only : core_only P.
Variable E : Env.

Lemma stable_ensure_dir (p : string) : hoare P (ensure_dir E p) P.
Proof. unfold ensure_dir. stable_auto P_core_only idtac. Qed.

Lemma stable_unpack (repoPath : string) (u x : option string) (repoDir : string) :
  hoare P (unpack E repoPath u x repoDir) P.
Proof. unfold unpack. stable_auto P_core_only idtac. Qed.

Lemma stable_copy_reports (jobReportDir : string) (reportFiles : list ReportFile) :
  forall acc, hoare P (copy_reports E jobReportDir reportFiles acc) P.
Proof.
  induction reportFiles as [|rf rest IH]; intros acc; simpl.
  - apply stable_ret.
  - stable_auto P_core_only idtac. apply IH.
Qed.

Lemma stable_cleanup (jobId : string) (u x : option string) (workDir : string) :
  hoare P (cleanup E jobId u x workDir) P.
Proof. unfold cleanup. stable_auto P_core_only idtac. Qed.

End TableUntouched.

Section DeleteRoute.

(** The DELETE route keeps a property that neither the abort of a run nor
    the deletion of a row can break. *)
Variable P : World -> Prop.
Hypothesis P_core_only : core_only P.
Variable E : Env.
Hypothesis keeps_abort : forall a w, P w -> P (set_abortedJobs a w).
Hypothesis keeps_delete :
  forall id,
    statement_keeps P (fun _ t => (ThreatModelingJobModel.delete id t, Ok tt)).

Lemma stable_deleteRoute (id : string) (userId : nat) :
  hoare P (deleteRoute E id userId) P.
Proof.
  unfold deleteRoute.
  repeat first
    [ lazymatch goal with
      | |- hoare _ (modify (fun w => set_abortedJobs _ w)) _ =>
          intros w Hw; apply keeps_abort; exact Hw
      end
    | stable_step P_core_only ltac:(apply keeps_delete) ].
Qed.

End DeleteRoute.

Section TerminalStatements.

(** Computations whose statements on the table are updates to a terminal
    status, metadata and metrics updates, and deletions. *)
Variable P : World -> Prop.
Hypothesis P_core_only : core_only P.
Variable E : Env.

Hypothesis keeps_terminal :
  forall id st a b c d e,
    st = completed \/ st = failed ->
    statement_keeps P (fun now => ThreatModelingJobModel.updateStatus now id st a b c d e).
Hypothesis keeps_metadata :
  forall id a b c,
    statement_keeps P (fun now => ThreatModelingJobModel.updateMetadata now id a b c).
Hypothesis keeps_metrics :
  forall id a b,
    statement_keeps P (fun now => ThreatModelingJobModel.updateExecutionMetrics now id a b).
Hypothesis keeps_delete_request :
  forall id userId, hoare P (deleteRoute E id userId) P.

Ltac stm :=
  unfold ThreatModelingJobModel.updateReports, ThreatModelingJobModel.updateErrorMessage;
  first [ apply keeps_metadata | apply keeps_metrics
        | apply keeps_terminal; auto ].

Lemma stable_delete_request (jobId : string) (by_user : option nat) :
  hoare P (delete_request E jobId by_user) P.
Proof.
  unfold delete_request. destruct by_user; [|apply stable_ret].
  apply stable_bind; [apply keeps_delete_request|intros ?; apply stable_ret].
Qed.

Lemma stable_recordMetadata (jobId : string) (z : option string) (repoDir repoName : string) :
  hoare P (recordMetadata E jobId z repoDir repoName) P.
Proof. unfold recordMetadata. stable_auto P_core_only stm. Qed.

Lemma stable_record_metrics (jobId : string) : hoare P (record_metrics E jobId) P.
Proof. unfold record_metrics. stable_auto P_core_only stm. Qed.

Lemma stable_runAgent (jobId workDir : string) : hoare P (runAgent E jobId workDir) P.
Proof.
  unfold runAgent.
  repeat first [ apply stable_delete_request | apply stable_record_metrics
               | stable_step P_core_only stm ].
Qed.

Lemma stable_persist (jobId : string) (found : ReportPaths) :
  hoare P (persist jobId found) P.
Proof. unfold persist. stable_auto P_core_only stm. Qed.

Lemma stable_harvest_and_persist (jobId workDir jobReportDir repoDir : string) (exitCode : Z) :
  hoare P (harvest_and_persist E jobId workDir jobReportDir repoDir exitCode) P.
Proof.
  unfold harvest_and_persist.
  repeat first [ apply stable_copy_reports | apply stable_persist
               | stable_step P_core_only stm ]; exact P_core_only.
Qed.

Lemma stable_on_error (jobId : string) (error : thrown) :
  hoare P (on_error jobId error) P.
Proof. unfold on_error. stable_auto P_core_only stm. Qed.

(** [prepare] after its first statement. *)
Lemma stable_prepare_rest (jobId a b c d : string) :
  hoare P
    (config <- match env_settings E with
               | Some c => ret c
               | None => throw (JsError "Anthropic API configuration not found. Please configure settings in the admin panel.")
               end ;;
     agentRunPath <- findAgentRunPath E ;;
     ensure_dir E a ;;
     ensure_dir E b ;;
     ensure_dir E c ;;
     stale <- path_exists d ;;
     when_ stale
       (attempt "Could not remove existing work directory" (fs_do E (FsRm d))) ;;
     fs_do E (FsMkdir d) ;;
     checkCancellation jobId ;;
     ret (config, agentRunPath)) P.
Proof.
  repeat first [ apply stable_ensure_dir | stable_step P_core_only stm ];
    exact P_core_only.
Qed.

End TerminalStatements.

(* --------------------------------------------------------------------- *)
(** ** The invariant of the job record                                    *)
(* --------------------------------------------------------------------- *)

Lemma table_consistent_alter (f : ThreatModelingJob -> ThreatModelingJob) (id : string)
    (t : gmap string ThreatModelingJob) :
  (forall job, t !! id = Some job -> completed_at_consistent (f job)) ->
  table_consistent t -> table_consistent (alter f id t).
Proof.
  intros Hf Ht id' job' Hl. rewrite lookup_alter in Hl.
  destruct (decide (id = id')) as [<-|Hne].
  - destruct (t !! id) as [job|] eqn:Hj; simpl in Hl; [|discriminate].
    injection Hl as <-. now apply Hf.
  - now apply (Ht id').
Qed.

Lemma table_consistent_delete (id : string) (t : gmap string ThreatModelingJob) :
  table_consistent t -> table_consistent (ThreatModelingJobModel.delete id t).
Proof.
  intros Ht id' job' Hl. unfold ThreatModelingJobModel.delete in Hl.
  apply lookup_delete_Some in Hl as [_ Hl]. now apply (Ht id').
Qed.

Lemma status_update_terminal now st a b c d e job :
  st = completed \/ st = failed ->
  completed_at_consistent
    (ThreatModelingJobModel.status_update now st a b c d e job).
Proof.
  intros [-> | ->]; unfold completed_at_consistent; simpl; split; intros _;
    first [discriminate | tauto].
Qed.

Lemma status_update_processing now a b c d e job :
  completed_at job = None ->
  completed_at_consistent
    (ThreatModelingJobModel.status_update now processing a b c d e job).
Proof.
  intros Hc. unfold completed_at_consistent; simpl. rewrite Hc.
  split; [congruence|intros [H|H]; discriminate H].
Qed.

Lemma created_job_consistent jobId now userId repoPath q rn gb gc t t' job :
  ThreatModelingJobModel.create jobId now userId repoPath q rn gb gc t = (t', Ok job) ->
  table_consistent t ->
  table_consistent t'
  /\ t' !! jobId = Some job
  /\ status job = pending /\ completed_at job = None.
Proof.
  unfold ThreatModelingJobModel.create. intros Hc Ht.
  destruct (t !! jobId) eqn:Hl; [discriminate|].
  unfold ThreatModelingJobModel.findById in Hc. rewrite lookup_insert_eq in Hc.
  injection Hc as <- <-. split; [|split; [apply lookup_insert_eq|split; reflexivity]].
  intros id' job' Hl'. rewrite lookup_insert in Hl'.
  destruct (decide (jobId = id')) as [<-|Hne].
  - injection Hl' as <-. unfold completed_at_consistent; simpl.
    split; [congruence|intros [H|H]; discriminate H].
  - now apply (Ht id').
Qed.

Lemma consistent_since_core_only base : core_only (consistent_since base).
Proof.
  intros w w' Hj Hh _ [Ht Hs]. unfold consistent_since. now rewrite <- Hj, <- Hh.
Qed.

Lemma consistent_since_statement {A} base
    (stmt : nat -> gmap string ThreatModelingJob ->
            gmap string ThreatModelingJob * Result A) (w : World) :
  table_consistent (fst (stmt (clock w) (jobs w))) ->
  consistent_since base w ->
  consistent_since base (set_table (fst (stmt (clock w) (jobs w))) w).
Proof.
  intros Hn [Ht [snaps [Hh Hs]]]. split; [exact Hn|]. simpl.
  exists (snaps ++ [fst (stmt (clock w) (jobs w))])%list. split.
  - rewrite Hh. now rewrite app_assoc.
  - apply Forall_app. split; [exact Hs|]. constructor; [exact Hn|constructor].
Qed.

Section Lifecycle.

Variable E : Env.
Variables (jobId repoPath : string).
Variables (uploadedZipPath extractedDir zipFileName : option string).
Variable base : list (gmap string ThreatModelingJob).

Lemma Good_terminal id st a b c d e :
  st = completed \/ st = failed ->
  statement_keeps (consistent_since base) (fun now => ThreatModelingJobModel.updateStatus now id st a b c d e).
Proof.
  intros Hst w Hw.
  apply (consistent_since_statement base
           (fun now => ThreatModelingJobModel.updateStatus now id st a b c d e) w);
    [|exact Hw].
  simpl. apply table_consistent_alter; [|apply Hw].
  intros job _. now apply status_update_terminal.
Qed.

Lemma Good_metadata id a b c :
  statement_keeps (consistent_since base) (fun now => ThreatModelingJobModel.updateMetadata now id a b c).
Proof.
  intros w Hw.
  apply (consistent_since_statement base
           (fun now => ThreatModelingJobModel.updateMetadata now id a b c) w);
    [|exact Hw].
  simpl. apply table_consistent_alter; [|apply Hw].
  intros job Hj. destruct Hw as [Ht _]. exact (Ht _ _ Hj).
Qed.

Lemma Good_metrics id a b :
  statement_keeps (consistent_since base)
    (fun now => ThreatModelingJobModel.updateExecutionMetrics now id a b).
Proof.
  intros w Hw.
  apply (consistent_since_statement base
           (fun now => ThreatModelingJobModel.updateExecutionMetrics now id a b) w);
    [|exact Hw].
  simpl. apply table_consistent_alter; [|apply Hw].
  intros job Hj. destruct Hw as [Ht _]. exact (Ht _ _ Hj).
Qed.

Lemma Good_delete id userId :
  hoare (consistent_since base) (deleteRoute E id userId) (consistent_since base).
Proof.
  apply stable_deleteRoute.
  - apply consistent_since_core_only.
  - intros a w Hw. exact Hw.
  - intros id' w Hw.
    apply (consistent_since_statement base
             (fun _ t => (ThreatModelingJobModel.delete id' t, Ok tt)) w); [|exact Hw].
    simpl. apply table_consistent_delete, Hw.
Qed.

Lemma Good_first_statement :
  hoare (fun w => (consistent_since base) w /\ not_yet_completed jobId w)
        (on_table (fun now =>
           ThreatModelingJobModel.updateStatus now jobId processing
             None None None None None))
        (consistent_since base).
Proof.
  intros w [Hw Hn]. unfold on_table. simpl.
  apply (consistent_since_statement base
           (fun now => ThreatModelingJobModel.updateStatus now jobId processing
                         None None None None None) w); [|exact Hw].
  simpl. apply table_consistent_alter; [|apply Hw].
  intros job Hj. apply status_update_processing. now apply Hn.
Qed.

Lemma Good_prepare a b c d :
  hoare (fun w => (consistent_since base) w /\ not_yet_completed jobId w) (prepare E jobId a b c d) (consistent_since base).
Proof.
  unfold prepare.
  apply (hoare_bind _ (fun w => (consistent_since base) w /\ not_yet_completed jobId w) _).
  - intros w [Hw Hn]. unfold checkCancellation.
    destruct (bool_decide _); simpl; split; assumption.
  - intros _.
    apply (hoare_bind _ (consistent_since base) _); [apply Good_first_statement| |auto].
    intros _.
    apply stable_prepare_rest; auto using consistent_since_core_only.
  - intros w [Hw _]. exact Hw.
Qed.

Lemma Good_try_block (w0 : World) :
  hoare (fun w => (consistent_since base) w /\ not_yet_completed jobId w)
        (try_block E jobId repoPath uploadedZipPath extractedDir zipFileName w0) (consistent_since base).
Proof.
  pose proof (consistent_since_core_only base) as Htbl.
  unfold try_block, job_body, run_until_harvest.
  apply (hoare_bind _ (consistent_since base) _); [| |auto].
  - apply (hoare_bind _ (consistent_since base) _); [apply Good_prepare| |auto].
    intros _.
    apply stable_bind; [apply stable_determineRepoName|]. intros repoName.
    apply stable_bind; [now apply stable_unpack|]. intros _.
    apply stable_bind;
      [apply stable_recordMetadata; auto using Good_metadata|]. intros _.
    apply stable_bind;
      [apply stable_runAgent; auto using Good_terminal, Good_metrics, Good_delete|].
    intros code. apply stable_ret.
  - intros reached.
    apply stable_harvest_and_persist; auto using Good_terminal, Good_metrics.
Qed.

Lemma Good_process (w0 : World) :
  (consistent_since base) w0 -> not_yet_completed jobId w0 ->
  (consistent_since base) (fst (processThreatModelingJob E jobId repoPath uploadedZipPath extractedDir
               zipFileName w0)).
Proof.
  intros Hw Hn.
  pose proof (consistent_since_core_only base) as Htbl.
  unfold processThreatModelingJob.
  apply (hoare_try_finally (fun w => (consistent_since base) w /\ not_yet_completed jobId w) (consistent_since base) (consistent_since base)).
  - apply (hoare_try_catch _ (consistent_since base) (consistent_since base)); [apply Good_try_block| |auto].
    intros e. apply stable_on_error; auto using Good_terminal.
  - now apply stable_cleanup.
  - split.
    + apply (Htbl w0); [reflexivity|reflexivity|reflexivity|exact Hw].
    + exact Hn.
Qed.

End Lifecycle.

(** C8.  Take a job table on which the invariant holds, create a job (its
    row starts as [pending] with [completed_at] NULL), and let the controller
    run it under any environment, deletion requests included.  After every
    statement executed on the table, from the INSERT to the end of the run,
    every row has [completed_at] set if and only if its status is
    [completed] or [failed]; in particular it is NULL for [pending] and
    [processing] rows. *)
Theorem completed_at_iff_terminal_status :
  forall (E : Env) (jobId repoPath : string)
         (uploadedZipPath extractedDir zipFileName : option string)
         (userId : nat) (repoPathColumn : string) (q repoName gitBranch gitCommit : option string)
         (w : World) (table : gmap string ThreatModelingJob) (job : ThreatModelingJob),
    table_consistent (jobs w) ->
    ThreatModelingJobModel.create jobId (clock w) userId repoPathColumn q repoName
      gitBranch gitCommit (jobs w) = (table, Ok job) ->
    let wf := fst (processThreatModelingJob E jobId repoPath uploadedZipPath
                     extractedDir zipFileName (set_table table w)) in
    status job = pending /\ completed_at job = None
    /\ table_consistent (jobs wf)
    /\ exists snaps,
         history wf = (history w ++ snaps)%list
         /\ Forall (fun t => forall id row, t !! id = Some row ->
                      (completed_at row <> None
                       <-> (status row = completed \/ status row = failed))
                      /\ ((status row = pending \/ status row = processing)
                          -> completed_at row = None))
                   snaps.
Proof.
  intros E jobId repoPath uploadedZipPath extractedDir zipFileName userId
    repoPathColumn q repoName gitBranch gitCommit w table job Hw Hcreate wf.
  destruct (created_job_consistent _ _ _ _ _ _ _ _ _ _ _ Hcreate Hw)
    as [Htable [Hrow [Hst Hca]]].
  split; [exact Hst|]. split; [exact Hca|].
  assert (Hgood : consistent_since (history w) (set_table table w)).
  { split; [exact Htable|]. exists [table]. split; [reflexivity|].
    constructor; [exact Htable|constructor]. }
  assert (Hnew : not_yet_completed jobId (set_table table w)).
  { intros row Hl. simpl in Hl. rewrite Hrow in Hl. now injection Hl as <-. }
  destruct (Good_process E jobId repoPath uploadedZipPath extractedDir zipFileName
              (history w) _ Hgood Hnew) as [Hfinal [snaps [Hh Hs]]].
  split; [exact Hfinal|].
  exists snaps. split; [exact Hh|].
  eapply List.Forall_impl; [|exact Hs].
  intros t Ht id row Hl. specialize (Ht id row Hl). split; [exact Ht|].
  intros Hpp. destruct (completed_at row) eqn:Hc; [|reflexivity].
  assert (Hne : Some n <> None) by discriminate.
  rewrite <- Hc in Hne. apply Ht in Hne.
  destruct Hpp as [Hp|Hp], Hne as [Hq|Hq]; rewrite Hp in Hq; discriminate.
Qed.

(* --------------------------------------------------------------------- *)
(** ** The [finally] block                                                *)
(* --------------------------------------------------------------------- *)

Lemma fs_failure_not_chdir (E : Env) (op : FsOp) (w : World) :
  (forall p, op <> FsChdir p) -> fs_failure E op w = env_fs_fails E op.
Proof.
  intros Hop. unfold fs_failure. destruct (env_fs_fails E op); [reflexivity|].
  destruct op; try reflexivity. now destruct (Hop p).
Qed.

(** One guarded removal, evaluated. *)
Lemma guarded_removal (E : Env) (what : string) (op : FsOp) (b : bool) (w : World) :
  (forall q, op <> FsChdir q) ->
  when_ b (attempt what (fs_do E op)) w = (after_removal E what op b w, Ok tt).
Proof.
  intros Hop. unfold after_removal. destruct b; simpl; [|reflexivity].
  unfold attempt, try_catch, fs_do. rewrite (fs_failure_not_chdir E op w Hop).
  destruct (env_fs_fails E op); simpl; [reflexivity|].
  destruct op; try reflexivity. now destruct (Hop p).
Qed.

Lemma after_removal_runningJobs E what op b w :
  runningJobs (after_removal E what op b w) = runningJobs w.
Proof.
  unfold after_removal. destruct b; [|reflexivity].
  destruct (env_fs_fails E op); reflexivity.
Qed.

Lemma after_removal_jobs E what op b w :
  jobs (after_removal E what op b w) = jobs w.
Proof.
  unfold after_removal. destruct b; [|reflexivity].
  destruct (env_fs_fails E op); reflexivity.
Qed.

Lemma fs_effect_removal_shrinks op (ps : gset string) (q : string) :
  (exists p, op = FsRm p \/ op = FsUnlink p) ->
  q ∈ fs_effect op ps -> q ∈ ps.
Proof.
  intros [p [-> | ->]]; simpl; intros Hq.
  - apply elem_of_filter in Hq. tauto.
  - apply elem_of_difference in Hq. tauto.
Qed.

Lemma after_removal_paths E what op b w q :
  (exists p, op = FsRm p \/ op = FsUnlink p) ->
  q ∈ paths (after_removal E what op b w) -> q ∈ paths w.
Proof.
  intros Hop. unfold after_removal. destruct b; [|auto].
  destruct (env_fs_fails E op); simpl; [auto|].
  now apply fs_effect_removal_shrinks.
Qed.

Lemma after_removal_logs E what op b w :
  exists new_trace new_warnings,
    fs_trace (after_removal E what op b w) = (fs_trace w ++ new_trace)%list
    /\ warnings (after_removal E what op b w) = (warnings w ++ new_warnings)%list.
Proof.
  unfold after_removal. destruct b.
  - destruct (env_fs_fails E op); simpl.
    + exists [(op, false)], [{| log_what := what; log_error := t |}]. split; reflexivity.
    + exists [(op, true)], []. split; [reflexivity|now rewrite app_nil_r].
  - exists [], []. now rewrite !app_nil_r.
Qed.

Lemma inside_dir_self (p : string) : inside_dir p p = true.
Proof. unfold inside_dir. now rewrite String.eqb_refl. Qed.

(** Right after its own step, a path is gone or its removal was reported. *)
Lemma after_removal_done E what op p w :
  op = FsRm p \/ op = FsUnlink p ->
  removed_or_reported E op what p w
    (after_removal E what op (bool_decide (p ∈ paths w)) w).
Proof.
  intros Hop. unfold removed_or_reported, after_removal.
  destruct (bool_decide (p ∈ paths w)) eqn:Hp.
  - destruct (env_fs_fails E op) as [e|] eqn:Hf; simpl.
    + right. exists e, [(op, false)], [{| log_what := what; log_error := e |}].
      repeat split; try reflexivity; now left.
    + left. destruct Hop as [-> | ->]; simpl.
      * intros Hq. apply elem_of_filter in Hq as [Hq _].
        rewrite inside_dir_self in Hq. discriminate Hq.
      * intros Hq. apply elem_of_difference in Hq as [_ Hq].
        apply Hq. now apply elem_of_singleton.
  - left. now apply bool_decide_eq_false in Hp.
Qed.

(** Later removals do not undo it. *)
Lemma removed_or_reported_later E op what p before w E' what' op' b :
  (exists p', op' = FsRm p' \/ op' = FsUnlink p') ->
  removed_or_reported E op what p before w ->
  removed_or_reported E op what p before (after_removal E' what' op' b w).
Proof.
  intros Hop' [Hgone | [e [tr [ws [Hf [Ht [Hw [Hin1 Hin2]]]]]]]].
  - left. intros Hq. apply Hgone. now apply (after_removal_paths E' what' op' b w p).
  - right. destruct (after_removal_logs E' what' op' b w) as [tr' [ws' [Ht' Hw']]].
    exists e, (tr ++ tr')%list, (ws ++ ws')%list.
    split; [exact Hf|]. split; [now rewrite Ht', Ht, app_assoc|].
    split; [now rewrite Hw', Hw, app_assoc|].
    split; apply in_or_app; now left.
Qed.

Lemma removed_or_reported_earlier E op what p before mid after :
  (exists tr ws, fs_trace mid = (fs_trace before ++ tr)%list
                 /\ warnings mid = (warnings before ++ ws)%list) ->
  removed_or_reported E op what p mid after ->
  removed_or_reported E op what p before after.
Proof.
  intros [tr0 [ws0 [Ht0 Hw0]]] [Hgone | [e [tr [ws [Hf [Ht [Hw [Hin1 Hin2]]]]]]]].
  - now left.
  - right. exists e, (tr0 ++ tr)%list, (ws0 ++ ws)%list.
    split; [exact Hf|]. split; [now rewrite Ht, Ht0, app_assoc|].
    split; [now rewrite Hw, Hw0, app_assoc|].
    split; apply in_or_app; now right.
Qed.

(** The [finally] block, evaluated: it never throws. *)
Lemma cleanup_eval (E : Env) (jobId : string) (u x : option string) (workDir : string)
    (w : World) :
  let w1 := set_runningJobs (base.delete jobId (runningJobs w)) w in
  let w2 := after_removal E ("Could not clean up work directory for job " ++ jobId)
              (FsRm workDir) (bool_decide (workDir ∈ paths w1)) w1 in
  let w3 := match u with
            | Some zip => after_removal E "Could not clean up uploaded ZIP file"
                            (FsUnlink zip) (truthy u && bool_decide (zip ∈ paths w2)) w2
            | None => w2
            end in
  let w4 := match x with
            | Some dir => after_removal E "Could not clean up extracted directory"
                            (FsRm dir) (truthy x && bool_decide (dir ∈ paths w3)) w3
            | None => w3
            end in
  cleanup E jobId u x workDir w = (w4, Ok tt).
Proof.
  intros w1 w2 w3 w4. unfold cleanup.
  rewrite (bind_Ok _ _ w w1 tt); [|reflexivity].
  rewrite (bind_Ok _ _ w1 w1 (bool_decide (workDir ∈ paths w1))); [|reflexivity].
  rewrite (bind_Ok _ _ w1 w2 tt);
    [|apply guarded_removal; intros q; discriminate].
  assert (H2 : match u with
               | Some zip =>
                   zipExists <- path_exists zip ;;
                   when_ (truthy u && zipExists)
                     (attempt "Could not clean up uploaded ZIP file" (fs_do E (FsUnlink zip)))
               | None => ret tt
               end w2 = (w3, Ok tt)).
  { destruct u as [zip|]; [|reflexivity].
    rewrite (bind_Ok _ _ w2 w2 (bool_decide (zip ∈ paths w2))); [|reflexivity].
    apply guarded_removal. intros q; discriminate. }
  rewrite (bind_Ok _ _ w2 w3 tt H2).
  destruct x as [dir|]; [|reflexivity].
  rewrite (bind_Ok _ _ w3 w3 (bool_decide (dir ∈ paths w3))); [|reflexivity].
  apply guarded_removal. intros q; discriminate.
Qed.

Lemma cleanup_returns E jobId u x workDir w :
  snd (cleanup E jobId u x workDir w) = Ok tt.
Proof. now rewrite cleanup_eval. Qed.

Lemma cleanup_jobs E jobId u x workDir w :
  jobs (fst (cleanup E jobId u x workDir w)) = jobs w.
Proof.
  rewrite cleanup_eval. simpl.
  destruct x as [dir|], u as [zip|]; now rewrite ?after_removal_jobs.
Qed.

(** The run is its [try]/[catch], followed by the clean-up. *)
Lemma process_eval E jobId repoPath u x z (w0 : World) :
  let attempt_ := try_catch (try_block E jobId repoPath u x z w0) (on_error jobId)
                    (register jobId u x w0) in
  processThreatModelingJob E jobId repoPath u x z w0
  = (fst (cleanup E jobId u x (workDir_of jobId w0) (fst attempt_)), snd attempt_).
Proof.
  intros attempt_. unfold processThreatModelingJob, try_finally. fold attempt_.
  destruct attempt_ as [w2 r]. simpl.
  pose proof (cleanup_returns E jobId u x (workDir_of jobId w0) w2) as Hc.
  destruct (cleanup E jobId u x (workDir_of jobId w0) w2) as [wf [[]|e]];
    simpl in *; [reflexivity|discriminate].
Qed.

(** C3.  Whatever the environment and however the [try] block ends (it
    returns, it throws, or the job is cancelled), the run ends as its
    [try]/[catch] ended, cleanup failures changing nothing to that; the
    job's entry is gone from [runningJobs]; and for the work directory, the
    uploaded ZIP file and the extraction directory alike: at the end the path
    does not exist, or its removal was attempted in the [finally] block,
    failed, and the failure was logged. *)
Theorem cleanup_on_every_path :
  forall (E : Env) (jobId repoPath : string)
         (uploadedZipPath extractedDir zipFileName : option string) (w0 : World),
    let attempt_ := try_catch
                      (try_block E jobId repoPath uploadedZipPath extractedDir
                         zipFileName w0)
                      (on_error jobId)
                      (register jobId uploadedZipPath extractedDir w0) in
    let result := processThreatModelingJob E jobId repoPath uploadedZipPath
                    extractedDir zipFileName w0 in
    snd result = snd attempt_
    /\ runningJobs (fst result) !! jobId = None
    /\ removed_or_reported E (FsRm (workDir_of jobId w0))
         ("Could not clean up work directory for job " ++ jobId)
         (workDir_of jobId w0) (fst attempt_) (fst result)
    /\ match uploadedZipPath with
       | Some zip =>
           if truthy uploadedZipPath then
             removed_or_reported E (FsUnlink zip)
               "Could not clean up uploaded ZIP file" zip (fst attempt_) (fst result)
           else True
       | None => True
       end
    /\ match extractedDir with
       | Some dir =>
           if truthy extractedDir then
             removed_or_reported E (FsRm dir)
               "Could not clean up extracted directory" dir (fst attempt_) (fst result)
           else True
       | None => True
       end.
Proof.
  intros E jobId repoPath u x z w0 attempt_ result.
  unfold result. rewrite process_eval. fold attempt_.
  set (wa := fst attempt_). set (wd := workDir_of jobId w0).
  pose proof (cleanup_eval E jobId u x wd wa) as Hc. cbv zeta in Hc.
  set (w1 := set_runningJobs (base.delete jobId (runningJobs wa)) wa) in *.
  set (w2 := after_removal E ("Could not clean up work directory for job " ++ jobId)
               (FsRm wd) (bool_decide (wd ∈ paths w1)) w1) in *.
  set (w3 := match u with
             | Some zip => after_removal E "Could not clean up uploaded ZIP file"
                             (FsUnlink zip) (truthy u && bool_decide (zip ∈ paths w2)) w2
             | None => w2
             end) in *.
  set (w4 := match x with
             | Some dir => after_removal E "Could not clean up extracted directory"
                             (FsRm dir) (truthy x && bool_decide (dir ∈ paths w3)) w3
             | None => w3
             end) in *.
  rewrite Hc. simpl.
  assert (Hlog12 : exists tr ws, fs_trace w2 = (fs_trace wa ++ tr)%list
                                 /\ warnings w2 = (warnings wa ++ ws)%list).
  { apply (after_removal_logs E _ (FsRm wd) _ w1). }
  assert (Hlog13 : exists tr ws, fs_trace w3 = (fs_trace wa ++ tr)%list
                                 /\ warnings w3 = (warnings wa ++ ws)%list).
  { unfold w3. destruct u as [zip|]; [|exact Hlog12].
    destruct Hlog12 as [tr [ws [Ht Hw]]].
    destruct (after_removal_logs E "Could not clean up uploaded ZIP file" (FsUnlink zip)
                (truthy (Some zip) && bool_decide (zip ∈ paths w2)) w2)
      as [tr' [ws' [Ht' Hw']]].
    exists (tr ++ tr')%list, (ws ++ ws')%list.
    now rewrite Ht', Hw', Ht, Hw, !app_assoc. }
  split; [reflexivity|]. split; [|split; [|split]].
  - unfold w4, w3, w2.
    destruct x as [dir|], u as [zip|]; rewrite ?after_removal_runningJobs;
      simpl; apply lookup_delete_eq.
  - assert (H2 : removed_or_reported E (FsRm wd)
                   ("Could not clean up work directory for job " ++ jobId) wd wa w2).
    { apply (removed_or_reported_earlier _ _ _ _ wa w1);
        [exists [], []; now rewrite !app_nil_r|].
      apply after_removal_done. now left. }
    assert (H3 : removed_or_reported E (FsRm wd)
                   ("Could not clean up work directory for job " ++ jobId) wd wa w3).
    { unfold w3. destruct u as [zip|]; [|exact H2].
      apply removed_or_reported_later; [exists zip; now right|exact H2]. }
    unfold w4. destruct x as [dir|]; [|exact H3].
    apply removed_or_reported_later; [exists dir; now left|exact H3].
  - destruct u as [zip|]; [|exact I].
    destruct (truthy (Some zip)) eqn:Hz; [|exact I].
    assert (H3 : removed_or_reported E (FsUnlink zip)
                   "Could not clean up uploaded ZIP file" zip wa w3).
    { apply (removed_or_reported_earlier _ _ _ _ wa w2); [exact Hlog12|].
      unfold w3. cbn [andb]. apply after_removal_done. now right. }
    unfold w4. destruct x as [dir|]; [|exact H3].
    apply removed_or_reported_later; [exists dir; now left|exact H3].
  - destruct x as [dir|]; [|exact I].
    destruct (truthy (Some dir)) eqn:Hd; [|exact I].
    apply (removed_or_reported_earlier _ _ _ _ wa w3); [exact Hlog13|].
    unfold w4. cbn [andb]. apply after_removal_done. now left.
Qed.

(* --------------------------------------------------------------------- *)
(** ** The [catch] block                                                  *)
(* --------------------------------------------------------------------- *)

Lemma findById_alter (f : ThreatModelingJob -> ThreatModelingJob) (id : string)
    (t : gmap string ThreatModelingJob) :
  ThreatModelingJobModel.findById (alter f id t) id
  = match t !! id with
    | Some job => Ok (f job)
    | None => Throw (JsError "Job not found")
    end.
Proof.
  unfold ThreatModelingJobModel.findById. rewrite lookup_alter_eq.
  now destruct (t !! id).
Qed.

Lemma delete_alter_same (f : ThreatModelingJob -> ThreatModelingJob) (id : string)
    (t : gmap string ThreatModelingJob) :
  base.delete id (alter f id t) = base.delete id t.
Proof.
  apply map_eq. intros k. destruct (decide (id = k)) as [<-|Hne].
  - now rewrite !lookup_delete_eq.
  - rewrite !lookup_delete_ne by exact Hne. now rewrite lookup_alter_ne.
Qed.

Lemma on_error_spec (jobId : string) (e : thrown) (w : World) :
  snd (on_error jobId e w) = Throw e
  /\ (jobId ∈ abortedJobs w -> fst (on_error jobId e w) = w)
  /\ failure_recorded jobId (message_or "Unknown error occurred" e)
       (bool_decide (jobId ∈ abortedJobs w)) (jobs w) (jobs (fst (on_error jobId e w))).
Proof.
  unfold on_error, failure_recorded.
  rewrite (bind_Ok _ _ w w (bool_decide (jobId ∈ abortedJobs w))); [|reflexivity].
  destruct (bool_decide (jobId ∈ abortedJobs w)) eqn:Hab; simpl.
  { repeat split. }
  assert (Hnot : jobId ∉ abortedJobs w) by now apply bool_decide_eq_false in Hab.
  unfold bind, attempt, try_catch, on_table, throw, ret, warn, modify.
  unfold ThreatModelingJobModel.updateErrorMessage, ThreatModelingJobModel.updateStatus.
  rewrite findById_alter.
  destruct (jobs w !! jobId) as [job|] eqn:Hrow; simpl.
  - rewrite findById_alter, lookup_alter_eq, Hrow. simpl.
    split; [reflexivity|]. split; [intros H; now destruct (Hnot H)|].
    split.
    + now rewrite !delete_alter_same.
    + rewrite !lookup_alter_eq, Hrow. simpl. eexists. split; [reflexivity|].
      repeat split; discriminate.
  - split; [reflexivity|]. split; [intros H; now destruct (Hnot H)|].
    split.
    + now rewrite delete_alter_same.
    + now rewrite lookup_alter_eq, Hrow.
Qed.

(** C5.  Let the [try] block of a run throw [e], leaving world [w2].  The
    run rethrows [e].  If the job's abort signal was triggered by then, the
    job table at the end of the run is the table the [try] block left, and no
    statement was executed on it.  Otherwise every other row is as it was,
    and the job's row, if it still exists, has status [failed], the message
    of [e] (['Unknown error occurred'] when [e] is not an [Error]) as its
    error message, and [completed_at] set. *)
Theorem failure_recorded_unless_cancelled :
  forall (E : Env) (jobId repoPath : string)
         (uploadedZipPath extractedDir zipFileName : option string)
         (w0 w2 : World) (e : thrown),
    try_block E jobId repoPath uploadedZipPath extractedDir zipFileName w0
      (register jobId uploadedZipPath extractedDir w0) = (w2, Throw e) ->
    let result := processThreatModelingJob E jobId repoPath uploadedZipPath
                    extractedDir zipFileName w0 in
    snd result = Throw e
    /\ failure_recorded jobId (message_or "Unknown error occurred" e)
         (bool_decide (jobId ∈ abortedJobs w2)) (jobs w2) (jobs (fst result))
    /\ (if bool_decide (jobId ∈ abortedJobs w2)
        then history (fst result) = history w2
        else True).
Proof.
  intros E jobId repoPath u x z w0 w2 e Hbody result.
  unfold result. rewrite process_eval. simpl.
  unfold try_catch. rewrite Hbody. rewrite cleanup_jobs.
  destruct (on_error_spec jobId e w2) as [Hr [Hsame Hrec]].
  split; [exact Hr|]. split; [exact Hrec|].
  destruct (bool_decide (jobId ∈ abortedJobs w2)) eqn:Hab; [|exact I].
  apply bool_decide_eq_true in Hab. rewrite (Hsame Hab).
  pose proof (stable_cleanup (fun w => history w = history w2)) as Hc.
  apply Hc; [|reflexivity].
  intros a b _ Hh _ Ha. now rewrite <- Hh.
Qed.

(* --------------------------------------------------------------------- *)
(** ** A run that gets past the agent was not cancelled                   *)
(* --------------------------------------------------------------------- *)

Lemma bind_Ok_inv {A B} (m : M A) (k : A -> M B) (w w' : World) (b : B) :
  bind m k w = (w', Ok b) ->
  exists a w1, m w = (w1, Ok a) /\ k a w1 = (w', Ok b).
Proof.
  unfold bind. destruct (m w) as [w1 [a|e]]; intros H; [|discriminate].
  now exists a, w1.
Qed.

Lemma try_catch_Ok {A} (m : M A) (h : thrown -> M A) (w w' : World) (a : A) :
  m w = (w', Ok a) -> try_catch m h w = (w', Ok a).
Proof. intros H. unfold try_catch. now rewrite H. Qed.

Lemma aborted_means_deleted_core_only jobId : core_only (aborted_means_deleted jobId).
Proof.
  intros w w' Hj _ Ha H. unfold aborted_means_deleted. now rewrite <- Hj, <- Ha.
Qed.

Lemma aborted_means_deleted_alter {A} jobId (f : ThreatModelingJob -> ThreatModelingJob)
    (id : string) (w : World) (r : Result A) :
  aborted_means_deleted jobId w ->
  aborted_means_deleted jobId (set_table (alter f id (jobs w)) w).
Proof.
  intros H Hab. simpl in *. specialize (H Hab).
  destruct (decide (id = jobId)) as [->|Hne].
  - now rewrite lookup_alter_eq, H.
  - now rewrite lookup_alter_ne.
Qed.

(** The part of the DELETE route that cancels a running job, evaluated. *)
Lemma cancel_running_eval (E : Env) (id : string) (rj : RunningJob) (w : World) :
  exists w',
    (modify (fun w => set_abortedJobs ({[id]} ∪ abortedJobs w) w) ;;
     workDirExists <- path_exists (rj_workDir rj) ;;
     when_ workDirExists
       (attempt "Could not clean up work directory"
          (fs_do E (FsRm (rj_workDir rj)))) ;;
     match rj_uploadedZipPath rj with
     | Some zip =>
         zipExists <- path_exists zip ;;
         when_ (truthy (Some zip) && zipExists)
           (attempt "Could not clean up uploaded ZIP file"
              (fs_do E (FsUnlink zip)))
     | None => ret tt
     end ;;
     match rj_extractedDir rj with
     | Some dir =>
         dirExists <- path_exists dir ;;
         when_ (truthy (Some dir) && dirExists)
           (attempt "Could not clean up extracted directory"
              (fs_do E (FsRm dir)))
     | None => ret tt
     end ;;
     modify (fun w => set_runningJobs (base.delete id (runningJobs w)) w)) w
    = (w', Ok tt)
    /\ jobs w' = jobs w /\ history w' = history w /\ clock w' = clock w
    /\ abortedJobs w' = {[id]} ∪ abortedJobs w.
Proof.
  set (w1 := set_abortedJobs ({[id]} ∪ abortedJobs w) w).
  set (w2 := after_removal E "Could not clean up work directory"
               (FsRm (rj_workDir rj)) (bool_decide (rj_workDir rj ∈ paths w1)) w1).
  set (w3 := match rj_uploadedZipPath rj with
             | Some zip => after_removal E "Could not clean up uploaded ZIP file"
                             (FsUnlink zip)
                             (truthy (Some zip) && bool_decide (zip ∈ paths w2)) w2
             | None => w2
             end).
  set (w4 := match rj_extractedDir rj with
             | Some dir => after_removal E "Could not clean up extracted directory"
                             (FsRm dir)
                             (truthy (Some dir) && bool_decide (dir ∈ paths w3)) w3
             | None => w3
             end).
  exists (set_runningJobs (base.delete id (runningJobs w4)) w4).
  assert (Hkeep : forall what op b v,
            jobs (after_removal E what op b v) = jobs v
            /\ history (after_removal E what op b v) = history v
            /\ clock (after_removal E what op b v) = clock v
            /\ abortedJobs (after_removal E what op b v) = abortedJobs v).
  { intros what op b v. unfold after_removal. destruct b; [|repeat split].
    destruct (env_fs_fails E op); repeat split. }
  split.
  - rewrite (bind_Ok _ _ w w1 tt); [|reflexivity].
    rewrite (bind_Ok _ _ w1 w1 (bool_decide (rj_workDir rj ∈ paths w1))); [|reflexivity].
    rewrite (bind_Ok _ _ w1 w2 tt); [|apply guarded_removal; intros q; discriminate].
    assert (H2 : match rj_uploadedZipPath rj with
                 | Some zip =>
                     zipExists <- path_exists zip ;;
                     when_ (truthy (Some zip) && zipExists)
                       (attempt "Could not clean up uploaded ZIP file"
                          (fs_do E (FsUnlink zip)))
                 | None => ret tt
                 end w2 = (w3, Ok tt)).
    { unfold w3. destruct (rj_uploadedZipPath rj) as [zip|]; [|reflexivity].
      rewrite (bind_Ok _ _ w2 w2 (bool_decide (zip ∈ paths w2))); [|reflexivity].
      apply guarded_removal. intros q; discriminate. }
    rewrite (bind_Ok _ _ w2 w3 tt H2).
    assert (H3 : match rj_extractedDir rj with
                 | Some dir =>
                     dirExists <- path_exists dir ;;
                     when_ (truthy (Some dir) && dirExists)
                       (attempt "Could not clean up extracted directory"
                          (fs_do E (FsRm dir)))
                 | None => ret tt
                 end w3 = (w4, Ok tt)).
    { unfold w4. destruct (rj_extractedDir rj) as [dir|]; [|reflexivity].
      rewrite (bind_Ok _ _ w3 w3 (bool_decide (dir ∈ paths w3))); [|reflexivity].
      apply guarded_removal. intros q; discriminate. }
    rewrite (bind_Ok _ _ w3 w4 tt H3). reflexivity.
  - assert (H2 : jobs w2 = jobs w /\ history w2 = history w /\ clock w2 = clock w
                 /\ abortedJobs w2 = {[id]} ∪ abortedJobs w).
    { unfold w2. destruct (Hkeep "Could not clean up work directory"
        (FsRm (rj_workDir rj)) (bool_decide (rj_workDir rj ∈ paths w1)) w1)
        as [-> [-> [-> ->]]]. repeat split. }
    assert (H3 : jobs w3 = jobs w /\ history w3 = history w /\ clock w3 = clock w
                 /\ abortedJobs w3 = {[id]} ∪ abortedJobs w).
    { unfold w3. destruct (rj_uploadedZipPath rj) as [zip|]; [|exact H2].
      destruct (Hkeep "Could not clean up uploaded ZIP file" (FsUnlink zip)
                  (truthy (Some zip) && bool_decide (zip ∈ paths w2)) w2)
        as [-> [-> [-> ->]]]. exact H2. }
    assert (H4 : jobs w4 = jobs w /\ history w4 = history w /\ clock w4 = clock w
                 /\ abortedJobs w4 = {[id]} ∪ abortedJobs w).
    { unfold w4. destruct (rj_extractedDir rj) as [dir|]; [|exact H3].
      destruct (Hkeep "Could not clean up extracted directory" (FsRm dir)
                  (truthy (Some dir) && bool_decide (dir ∈ paths w3)) w3)
        as [-> [-> [-> ->]]]. exact H3. }
    exact H4.
Qed.

(** The DELETE route either changes nothing to the table and the abort
    signals, or deletes the row of its job, having aborted at most the run
    of that job.  It always answers. *)
Lemma deleteRoute_effect (E : Env) (id : string) (userId : nat) (w : World) :
  exists w' code,
    deleteRoute E id userId w = (w', Ok code)
    /\ ((jobs w' = jobs w /\ history w' = history w /\ abortedJobs w' = abortedJobs w)
        \/ (jobs w' !! id = None
            /\ (forall k, k <> id -> jobs w' !! k = jobs w !! k)
            /\ abortedJobs w' ⊆ {[id]} ∪ abortedJobs w)).
Proof.
  unfold deleteRoute.
  destruct (jobs w !! id) as [job|] eqn:Hrow.
  2:{ exists w, 404. split; [|left; repeat split].
      unfold try_catch, bind, findJob, ThreatModelingJobModel.findById.
      rewrite Hrow. reflexivity. }
  enough (Hinner : exists w' code,
    (found <- try_catch (job <- findJob id ;; ret (Some job))
                (fun error =>
                   if includes (message_or "Unknown error occurred" error) "not found"
                   then ret None else throw error) ;;
     match found with
     | None => ret 404
     | Some job =>
         if negb (Nat.eqb (user_id job) userId) then ret 403
         else
           runningJob <- read (fun w => runningJobs w !! id) ;;
           match runningJob with
           | Some rj =>
               modify (fun w => set_abortedJobs ({[id]} ∪ abortedJobs w) w) ;;
               workDirExists <- path_exists (rj_workDir rj) ;;
               when_ workDirExists
                 (attempt "Could not clean up work directory"
                    (fs_do E (FsRm (rj_workDir rj)))) ;;
               match rj_uploadedZipPath rj with
               | Some zip =>
                   zipExists <- path_exists zip ;;
                   when_ (truthy (Some zip) && zipExists)
                     (attempt "Could not clean up uploaded ZIP file"
                        (fs_do E (FsUnlink zip)))
               | None => ret tt
               end ;;
               match rj_extractedDir rj with
               | Some dir =>
                   dirExists <- path_exists dir ;;
                   when_ (truthy (Some dir) && dirExists)
                     (attempt "Could not clean up extracted directory"
                        (fs_do E (FsRm dir)))
               | None => ret tt
               end ;;
               modify (fun w => set_runningJobs (base.delete id (runningJobs w)) w)
           | None => ret tt
           end ;;
           cwd0 <- read cwd ;;
           let jobReportDir := path_join [path_join [cwd0; "threat-modeling-reports"]; id] in
           reportDirExists <- path_exists jobReportDir ;;
           when_ reportDirExists
             (attempt "Could not delete report directory" (fs_do E (FsRm jobReportDir))) ;;
           on_table (fun _ t => (ThreatModelingJobModel.delete id t, Ok tt)) ;;
           ret 200
     end) w = (w', Ok code)
    /\ ((jobs w' = jobs w /\ history w' = history w /\ abortedJobs w' = abortedJobs w)
        \/ (jobs w' !! id = None
            /\ (forall k, k <> id -> jobs w' !! k = jobs w !! k)
            /\ abortedJobs w' ⊆ {[id]} ∪ abortedJobs w))).
  { destruct Hinner as [w' [code [Heq Hprop]]]. exists w', code.
    split; [|exact Hprop]. now apply try_catch_Ok. }
  assert (Hfound :
    try_catch (job <- findJob id ;; ret (Some job))
      (fun error =>
         if includes (message_or "Unknown error occurred" error) "not found"
         then ret None else throw error) w = (w, Ok (Some job))).
  { unfold try_catch, bind, findJob, ThreatModelingJobModel.findById.
    rewrite Hrow. reflexivity. }
  destruct (Nat.eqb (user_id job) userId) eqn:Howner.
  2:{ exists w, 403. split; [|left; repeat split].
      rewrite (bind_Ok _ _ _ _ _ Hfound). rewrite Howner. reflexivity. }
  assert (Hcancel : exists w1,
    match runningJobs w !! id with
    | Some rj =>
        modify (fun w => set_abortedJobs ({[id]} ∪ abortedJobs w) w) ;;
        workDirExists <- path_exists (rj_workDir rj) ;;
        when_ workDirExists
          (attempt "Could not clean up work directory"
             (fs_do E (FsRm (rj_workDir rj)))) ;;
        match rj_uploadedZipPath rj with
        | Some zip =>
            zipExists <- path_exists zip ;;
            when_ (truthy (Some zip) && zipExists)
              (attempt "Could not clean up uploaded ZIP file"
                 (fs_do E (FsUnlink zip)))
        | None => ret tt
        end ;;
        match rj_extractedDir rj with
        | Some dir =>
            dirExists <- path_exists dir ;;
            when_ (truthy (Some dir) && dirExists)
              (attempt "Could not clean up extracted directory"
                 (fs_do E (FsRm dir)))
        | None => ret tt
        end ;;
        modify (fun w => set_runningJobs (base.delete id (runningJobs w)) w)
    | None => ret tt
    end w = (w1, Ok tt)
    /\ jobs w1 = jobs w /\ abortedJobs w1 ⊆ {[id]} ∪ abortedJobs w).
  { destruct (runningJobs w !! id) as [rj|].
    - destruct (cancel_running_eval E id rj w) as [w1 [Heq [Hj [_ [_ Ha]]]]].
      exists w1. split; [exact Heq|]. split; [exact Hj|]. now rewrite Ha.
    - exists w. split; [reflexivity|]. split; [reflexivity|]. set_solver. }
  destruct Hcancel as [w1 [Heq [Hj Ha]]].
  set (dir := path_join [path_join [cwd w1; "threat-modeling-reports"]; id]).
  set (w2 := after_removal E "Could not delete report directory" (FsRm dir)
               (bool_decide (dir ∈ paths w1)) w1).
  assert (H2 : jobs w2 = jobs w /\ abortedJobs w2 ⊆ {[id]} ∪ abortedJobs w).
  { unfold w2, after_removal. destruct (bool_decide (dir ∈ paths w1)); [|now split].
    destruct (env_fs_fails E (FsRm dir)); now split. }
  destruct H2 as [Hj2 Ha2].
  exists (set_table (ThreatModelingJobModel.delete id (jobs w2)) w2), 200.
  split.
  - rewrite (bind_Ok _ _ _ _ _ Hfound). rewrite Howner. change (negb true) with false. cbv iota.
    rewrite (bind_Ok _ _ w w (runningJobs w !! id)); [|reflexivity].
    rewrite (bind_Ok _ _ w w1 tt Heq).
    rewrite (bind_Ok _ _ w1 w1 (cwd w1)); [|reflexivity].
    cbv zeta. fold dir.
    rewrite (bind_Ok _ _ w1 w1 (bool_decide (dir ∈ paths w1))); [|reflexivity].
    rewrite (bind_Ok _ _ w1 w2 tt);
      [|apply guarded_removal; intros q; discriminate].
    reflexivity.
  - right. simpl. unfold ThreatModelingJobModel.delete. rewrite Hj2.
    split; [apply lookup_delete_eq|]. split; [|exact Ha2].
    intros k Hk. now apply lookup_delete_ne.
Qed.

Lemma deleteRoute_aborted_means_deleted (E : Env) (jobId id : string) (userId : nat) :
  hoare (aborted_means_deleted jobId) (deleteRoute E id userId)
        (aborted_means_deleted jobId).
Proof.
  intros w Hw.
  destruct (deleteRoute_effect E id userId w)
    as [w' [code [Heq [[Hj [_ Ha]] | [Hgone [Hother Ha]]]]]];
    rewrite Heq; simpl; unfold aborted_means_deleted in *.
  - now rewrite Hj, Ha.
  - intros Hab. destruct (decide (jobId = id)) as [->|Hne]; [exact Hgone|].
    rewrite (Hother jobId Hne). apply Hw.
    apply Ha in Hab. apply elem_of_union in Hab as [Hab|Hab]; [|exact Hab].
    apply elem_of_singleton in Hab. now destruct Hne.
Qed.

Lemma runAgent_aborted_means_deleted (E : Env) (jobId workDir : string) :
  hoare (aborted_means_deleted jobId) (runAgent E jobId workDir)
        (aborted_means_deleted jobId).
Proof.
  apply stable_runAgent.
  - apply aborted_means_deleted_core_only.
  - intros id a b w Hw.
    now apply (aborted_means_deleted_alter (A:=unit) jobId _ id w (Ok tt)).
  - intros id userId. apply deleteRoute_aborted_means_deleted.
Qed.

(** A run whose metadata phase returned was not cancelled by then. *)
Lemma recordMetadata_Ok (E : Env) (jobId : string) (z : option string)
    (repoDir repoName : string) (w w' : World) :
  recordMetadata E jobId z repoDir repoName w = (w', Ok tt) ->
  jobId ∉ abortedJobs w'.
Proof.
  unfold recordMetadata. intros H.
  apply bind_Ok_inv in H as [_ [w1 [_ H]]].
  apply bind_Ok_inv in H as [_ [w2 [_ H]]].
  apply bind_Ok_inv in H as [currentJob [w3 [_ H]]].
  apply bind_Ok_inv in H as [_ [w4 [_ H]]].
  unfold checkCancellation in H.
  destruct (bool_decide (jobId ∈ abortedJobs w4)) eqn:Hab; [discriminate|].
  injection H as <-. now apply bool_decide_eq_false in Hab.
Qed.

(** A run whose agent phase returned still has its row. *)
Lemma runAgent_Ok (E : Env) (jobId workDir : string) (w w' : World) (exitCode : Z) :
  runAgent E jobId workDir w = (w', Ok exitCode) ->
  is_Some (jobs w' !! jobId).
Proof.
  unfold runAgent. intros H.
  apply bind_Ok_inv in H as [_ [w1 [_ H]]].
  apply bind_Ok_inv in H as [_ [w2 [_ H]]].
  apply bind_Ok_inv in H as [originalCwd [w3 [_ H]]].
  unfold try_catch in H.
  match type of H with
  | (match ?body with _ => _ end) = _ => destruct body as [w4 [c|e]] eqn:Hbody
  end.
  - injection H as <- <-.
    apply bind_Ok_inv in Hbody as [_ [v1 [_ Hbody]]].
    apply bind_Ok_inv in Hbody as [_ [v2 [_ Hbody]]].
    apply bind_Ok_inv in Hbody as [_ [v3 [_ Hbody]]].
    apply bind_Ok_inv in Hbody as [code [v4 [_ Hbody]]].
    apply bind_Ok_inv in Hbody as [_ [v5 [_ Hbody]]].
    apply bind_Ok_inv in Hbody as [_ [v6 [_ Hbody]]].
    apply bind_Ok_inv in Hbody as [[] [v7 [Hmetrics Hbody]]].
    injection Hbody as Hv7 _. subst w4.
    unfold record_metrics in Hmetrics.
    apply bind_Ok_inv in Hmetrics as [row [v8 [Hstmt Hret]]].
    injection Hret as Hv8. subst v7.
    unfold on_table, ThreatModelingJobModel.updateExecutionMetrics in Hstmt.
    injection Hstmt as Hv8 Hfind. subst v8. simpl.
    unfold ThreatModelingJobModel.findById in Hfind.
    destruct (alter _ jobId (jobs v6) !! jobId) as [r|]; [now exists r|discriminate].
  - exfalso.
    apply bind_Ok_inv in H as [_ [v1 [_ H]]].
    apply bind_Ok_inv in H as [_ [v2 [_ H]]].
    apply bind_Ok_inv in H as [_ [v3 [_ H]]].
    discriminate H.
Qed.

(** At the harvest, the run is not cancelled and the job's row exists. *)
Lemma harvest_state E jobId repoPath u x z (w0 w2 : World) repoDir exitCode :
  reaches_harvest E jobId repoPath u x z w0 w2 repoDir exitCode ->
  (jobId ∉ abortedJobs w2) /\ is_Some (jobs w2 !! jobId).
Proof.
  unfold reaches_harvest, run_until_harvest. intros H.
  apply bind_Ok_inv in H as [_ [wa [_ H]]].
  apply bind_Ok_inv in H as [repoName [wb [_ H]]].
  apply bind_Ok_inv in H as [_ [wc [_ H]]].
  apply bind_Ok_inv in H as [[] [w1 [Hmeta H]]].
  apply bind_Ok_inv in H as [code [w2' [Hagent H]]].
  injection H as <- _ _.
  pose proof (recordMetadata_Ok _ _ _ _ _ _ _ Hmeta) as Hnot.
  pose proof (runAgent_Ok _ _ _ _ _ _ Hagent) as Hrow.
  split; [|exact Hrow].
  assert (HJ : aborted_means_deleted jobId w2').
  { pose proof (runAgent_aborted_means_deleted E jobId (workDir_of jobId w0) w1) as Hrun.
    rewrite Hagent in Hrun. apply Hrun. intros Hab. now destruct (Hnot Hab). }
  intros Hab. specialize (HJ Hab). destruct Hrow as [row Hrow]. congruence.
Qed.


(* --------------------------------------------------------------------- *)
(** ** From the agent's exit to the job's final status                    *)
(* --------------------------------------------------------------------- *)

Lemma try_block_after_agent E jobId repoPath u x z (w0 w2 : World) repoDir exitCode :
  reaches_harvest E jobId repoPath u x z w0 w2 repoDir exitCode ->
  try_block E jobId repoPath u x z w0 (register jobId u x w0)
  = harvest_and_persist E jobId (workDir_of jobId w0) (jobReportDir_of jobId w0)
      repoDir exitCode w2.
Proof.
  intros H. unfold try_block, job_body. now rewrite (bind_Ok _ _ _ _ _ H).
Qed.


Lemma harvest_something E workDir repoDir exitCode (w : World) :
  find_reports E workDir repoDir w <> [] ->
  harvest E workDir repoDir exitCode w = (w, Ok (find_reports E workDir repoDir w)).
Proof.
  intros H. unfold harvest.
  destruct (find_reports E workDir repoDir w); [now destruct H|reflexivity].
Qed.


Lemma copy_reports_eval E jobReportDir (reportFiles : list ReportFile) :
  copies_succeed E jobReportDir reportFiles ->
  forall acc w,
    exists w',
      copy_reports E jobReportDir reportFiles acc w
      = (w', Ok (fold_left (fun acc rf =>
                              classify (rf_file rf)
                                (path_join [jobReportDir; rf_file rf]) acc)
                           reportFiles acc))
      /\ jobs w' = jobs w /\ abortedJobs w' = abortedJobs w.
Proof.
  induction reportFiles as [|rf rest IH]; intros Hok acc w; simpl.
  - exists w. repeat split.
  - inversion Hok as [|? ? Hrf Hrest]; subst.
    set (op := FsCopyFile (path_join [rf_sourceDir rf; rf_file rf])
                          (path_join [jobReportDir; rf_file rf])).
    set (w1 := set_paths (fs_effect op (paths w)) (log_fs op true w)).
    assert (Hcopy : fs_do E op w = (w1, Ok tt)).
    { unfold fs_do. rewrite fs_failure_not_chdir by (intros q; discriminate).
      unfold op at 1. rewrite Hrf. reflexivity. }
    rewrite (bind_Ok _ _ _ _ _ Hcopy).
    destruct (IH Hrest (classify (rf_file rf) (path_join [jobReportDir; rf_file rf]) acc) w1)
      as [w' [Heq [Hj Ha]]].
    exists w'. split; [exact Heq|]. split; [now rewrite Hj|now rewrite Ha].
Qed.

Lemma persist_eval (jobId : string) (found : ReportPaths) (w : World) (job : ThreatModelingJob) :
  jobId ∉ abortedJobs w ->
  jobs w !! jobId = Some job ->
  exists w' row,
    persist jobId found w = (w', Ok tt)
    /\ jobs w' !! jobId = Some row
    /\ marked_completed found row.
Proof.
  intros Hab Hrow. unfold persist.
  assert (Hcheck : checkCancellation jobId w = (w, Ok tt)).
  { unfold checkCancellation. now rewrite bool_decide_eq_false_2. }
  rewrite (bind_Ok _ _ _ _ _ Hcheck).
  set (f := ThreatModelingJobModel.status_update (clock w) completed
              (Some (threatModelPath found)) (Some None)
              (Some (dataFlowDiagramPath found)) (Some (threatModelPath found))
              (Some (riskRegistryPath found))).
  set (w1 := set_table (alter f jobId (jobs w)) w).
  assert (Hrow1 : jobs w1 !! jobId = Some (f job)).
  { simpl. now rewrite lookup_alter_eq, Hrow. }
  assert (Hupd : try_catch
      (on_table (fun now =>
         ThreatModelingJobModel.updateReports now jobId
           (dataFlowDiagramPath found) (threatModelPath found) (riskRegistryPath found)) ;;
       verifyJob <- findJob jobId ;;
       when_ (negb (JobStatus_eqb (status verifyJob) completed))
         (on_table (fun now =>
            ThreatModelingJobModel.updateStatus now jobId completed
              None None None None None) ;;
          ret tt))
      (fun updateError =>
         try_catch
           (on_table (fun now =>
              ThreatModelingJobModel.updateStatus now jobId completed
                None None None None None) ;;
            ret tt)
           (fun statusError =>
              throw (JsError ("Failed to update job status: "
                              ++ message_or "Unknown error" statusError)))) w
      = (w1, Ok tt)).
  { unfold try_catch, bind, on_table, findJob.
    unfold ThreatModelingJobModel.updateReports, ThreatModelingJobModel.updateStatus.
    rewrite findById_alter, Hrow. fold f. fold w1.
    unfold ThreatModelingJobModel.findById. rewrite Hrow1. reflexivity. }
  rewrite (bind_Ok _ _ _ _ _ Hupd).
  unfold attempt, try_catch, bind, findJob, ThreatModelingJobModel.findById.
  rewrite Hrow1.
  destruct (bool_decide (execution_duration (f job) <> None)
            || bool_decide (api_cost (f job) <> None)); simpl.
  - unfold on_table, ThreatModelingJobModel.updateExecutionMetrics.
    change (jobs w1) with (alter f jobId (jobs w)) in Hrow1.
    rewrite findById_alter, Hrow1. simpl.
    eexists _, _. split; [reflexivity|]. split.
    + simpl. rewrite lookup_alter_eq. rewrite Hrow1. reflexivity.
    + unfold marked_completed; simpl. repeat split; discriminate.
  - exists w1, (f job). split; [reflexivity|]. split; [exact Hrow1|].
    unfold marked_completed; simpl. repeat split; discriminate.
Qed.

Lemma collect_reports_are_reports exists_ listing (searchDirs : list string) :
  Forall (fun rf => report_type (rf_file rf) <> None)
         (collect_reports exists_ listing searchDirs).
Proof.
  induction searchDirs as [|d rest IH]; simpl; [constructor|].
  apply Forall_app. split; [|exact IH].
  destruct (exists_ d); [|constructor].
  destruct (listing d) as [dirFiles|]; [|constructor].
  eapply List.Forall_impl; [|apply scan_directory_are_reports].
  intros rf [Hm _]. unfold report_type.
  destruct (isDataFlow (rf_file rf)); [discriminate|].
  destruct (isThreatModel (rf_file rf)); [discriminate|].
  destruct (isRiskRegistry (rf_file rf)); [discriminate|]. discriminate Hm.
Qed.

Lemma some_path_is_set (jobReportDir : string) (reportFiles : list ReportFile) :
  reportFiles <> [] ->
  Forall (fun rf => report_type (rf_file rf) <> None) reportFiles ->
  exists t p, path_of_type t (classify_all jobReportDir reportFiles) = Some p.
Proof.
  intros Hne Hall.
  destruct (exists_last Hne) as [front [rf ->]].
  apply Forall_app in Hall as [_ Hrf]. inversion Hrf as [|? ? Ht _]; subst.
  destruct (report_type (rf_file rf)) as [t|] eqn:Hty; [|now destruct Ht].
  exists t, (path_join [jobReportDir; rf_file rf]).
  unfold classify_all. rewrite fold_left_app. simpl.
  rewrite path_of_type_classify. unfold has_type. rewrite Hty. now destruct t.
Qed.

(** C2.  A ['close'] event with an exit code, zero or not, resolves the
    awaited promise, so that the run goes on to the harvest.  Let a run get
    past the agent, which exited with a non-zero code, let the harvest find
    at least one report file, and let the copies into the report directory
    succeed.  Then the run returns normally and the job's row ends with
    status [completed], with [completed_at] set, no error message, and the
    three report paths (and the legacy path) as classified from the
    harvested files, at least one of them being set. *)
Theorem nonzero_exit_with_reports_completes :
  forall (E : Env) (jobId repoPath : string)
         (uploadedZipPath extractedDir zipFileName : option string)
         (w0 w2 : World) (repoDir : string) (exitCode : Z),
    reaches_harvest E jobId repoPath uploadedZipPath extractedDir zipFileName
      w0 w2 repoDir exitCode ->
    exitCode <> 0%Z ->
    find_reports E (workDir_of jobId w0) repoDir w2 <> [] ->
    copies_succeed E (jobReportDir_of jobId w0)
      (find_reports E (workDir_of jobId w0) repoDir w2) ->
    let result := processThreatModelingJob E jobId repoPath uploadedZipPath
                    extractedDir zipFileName w0 in
    let found := classify_all (jobReportDir_of jobId w0)
                   (find_reports E (workDir_of jobId w0) repoDir w2) in
    (forall signal, child_settles (Closed (Some exitCode) signal) = Ok exitCode)
    /\ snd result = Ok tt
    /\ (exists row, jobs (fst result) !! jobId = Some row /\ marked_completed found row)
    /\ (exists t p, path_of_type t found = Some p).
Proof.
  intros E jobId repoPath u x z w0 w2 repoDir exitCode Hreach Hcode Hsome Hcopies
    result found.
  split; [reflexivity|].
  destruct (harvest_state _ _ _ _ _ _ _ _ _ _ Hreach) as [Hab [job Hrow]].
  destruct (copy_reports_eval E _ _ Hcopies no_paths w2) as [w3 [Hcopy [Hj Ha]]].
  destruct (persist_eval jobId found w3 job) as [w4 [row [Hp [Hrow4 Hmark]]]];
    [now rewrite Ha|now rewrite Hj|].
  assert (Hbody : try_block E jobId repoPath u x z w0 (register jobId u x w0)
                  = (w4, Ok tt)).
  { rewrite (try_block_after_agent _ _ _ _ _ _ _ _ _ _ Hreach).
    unfold harvest_and_persist.
    rewrite (bind_Ok _ _ _ _ _ (harvest_something E _ _ exitCode w2 Hsome)).
    rewrite (bind_Ok _ _ _ _ _ Hcopy). exact Hp. }
  unfold result. rewrite process_eval. simpl.
  unfold try_catch. rewrite Hbody. simpl. rewrite cleanup_jobs.
  split; [reflexivity|]. split; [now exists row|].
  apply some_path_is_set; [exact Hsome|].
  apply collect_reports_are_reports.
Qed.

(* --------------------------------------------------------------------- *)
(** ** The statements at work on the sample run                           *)
(* --------------------------------------------------------------------- *)

Lemma failure_recorded_unless_cancelled_witness :
  try_block sample_env_no_reports "job-1"
    "/app/backend/uploads/threat-modeling/extracted-f3a9/myapp"
    sample_zip sample_extracted (Some "myapp.zip") sample_world
    (register "job-1" sample_zip sample_extracted sample_world)
  = (sample_after_try,
     Throw (JsError "No threat modeling report files were generated. agent-run exited with code 1. Error details: Error: output token limit exceeded"))
  /\ (let result := processThreatModelingJob sample_env_no_reports "job-1"
                      "/app/backend/uploads/threat-modeling/extracted-f3a9/myapp"
                      sample_zip sample_extracted (Some "myapp.zip") sample_world in
      snd result
      = Throw (JsError "No threat modeling report files were generated. agent-run exited with code 1. Error details: Error: output token limit exceeded")
      /\ failure_recorded "job-1"
           (message_or "Unknown error occurred"
              (JsError "No threat modeling report files were generated. agent-run exited with code 1. Error details: Error: output token limit exceeded"))
           (bool_decide ("job-1" ∈ abortedJobs sample_after_try))
           (jobs sample_after_try) (jobs (fst result))
      /\ (if bool_decide ("job-1" ∈ abortedJobs sample_after_try)
          then history (fst result) = history sample_after_try
          else True)).
Proof.
  assert (H : try_block sample_env_no_reports "job-1"
                "/app/backend/uploads/threat-modeling/extracted-f3a9/myapp"
                sample_zip sample_extracted (Some "myapp.zip") sample_world
                (register "job-1" sample_zip sample_extracted sample_world)
              = (sample_after_try,
                 Throw (JsError "No threat modeling report files were generated. agent-run exited with code 1. Error details: Error: output token limit exceeded"))).
  { vm_compute. reflexivity. }
  split; [exact H|].
  exact (failure_recorded_unless_cancelled sample_env_no_reports "job-1"
           "/app/backend/uploads/threat-modeling/extracted-f3a9/myapp"
           sample_zip sample_extracted (Some "myapp.zip") sample_world
           sample_after_try _ H).
Defined.


Lemma nonzero_exit_with_reports_completes_witness :
  reaches_harvest sample_env "job-1"
    "/app/backend/uploads/threat-modeling/extracted-f3a9/myapp"
    sample_zip sample_extracted (Some "myapp.zip")
    sample_world (sample_after_agent sample_env)
    "/app/backend/work_dir/job-1/myapp" 1%Z
  /\ 1%Z <> 0%Z
  /\ find_reports sample_env (workDir_of "job-1" sample_world)
       "/app/backend/work_dir/job-1/myapp" (sample_after_agent sample_env) <> []
  /\ copies_succeed sample_env (jobReportDir_of "job-1" sample_world)
       (find_reports sample_env (workDir_of "job-1" sample_world)
          "/app/backend/work_dir/job-1/myapp" (sample_after_agent sample_env))
  /\ (let result := processThreatModelingJob sample_env "job-1"
                      "/app/backend/uploads/threat-modeling/extracted-f3a9/myapp"
                      sample_zip sample_extracted (Some "myapp.zip") sample_world in
      let found := classify_all (jobReportDir_of "job-1" sample_world)
                     (find_reports sample_env (workDir_of "job-1" sample_world)
                        "/app/backend/work_dir/job-1/myapp"
                        (sample_after_agent sample_env)) in
      (forall signal, child_settles (Closed (Some 1%Z) signal) = Ok 1%Z)
      /\ snd result = Ok tt
      /\ (exists row, jobs (fst result) !! "job-1" = Some row
                      /\ marked_completed found row)
      /\ (exists t p, path_of_type t found = Some p)).
Proof.
  assert (H1 : reaches_harvest sample_env "job-1"
                 "/app/backend/uploads/threat-modeling/extracted-f3a9/myapp"
                 sample_zip sample_extracted (Some "myapp.zip")
                 sample_world (sample_after_agent sample_env)
                 "/app/backend/work_dir/job-1/myapp" 1%Z).
  { unfold reaches_harvest. vm_compute. reflexivity. }
  assert (H2 : 1%Z <> 0%Z) by discriminate.
  assert (H3 : find_reports sample_env (workDir_of "job-1" sample_world)
                 "/app/backend/work_dir/job-1/myapp" (sample_after_agent sample_env)
               <> []).
  { vm_compute. discriminate. }
  assert (H4 : copies_succeed sample_env (jobReportDir_of "job-1" sample_world)
                 (find_reports sample_env (workDir_of "job-1" sample_world)
                    "/app/backend/work_dir/job-1/myapp" (sample_after_agent sample_env))).
  { unfold copies_succeed. apply Forall_forall. intros rf _. reflexivity. }
  repeat (split; [assumption|]).
  exact (nonzero_exit_with_reports_completes sample_env "job-1"
           "/app/backend/uploads/threat-modeling/extracted-f3a9/myapp"
           sample_zip sample_extracted (Some "myapp.zip") sample_world
           (sample_after_agent sample_env) "/app/backend/work_dir/job-1/myapp" 1%Z
           H1 H2 H3 H4).
Defined.

Lemma completed_at_iff_terminal_status_witness :
  table_consistent (jobs sample_start)
  /\ ThreatModelingJobModel.create "job-1" (clock sample_start) 1 "[UPLOADED] myapp.zip"
       (Some "Perform threat modeling analysis") None None None (jobs sample_start)
     = (fst sample_created, Ok sample_row)
  /\ (let wf := fst (processThreatModelingJob sample_env "job-1"
                       "/app/backend/uploads/threat-modeling/extracted-f3a9/myapp"
                       sample_zip sample_extracted (Some "myapp.zip")
                       (set_table (fst sample_created) sample_start)) in
      status sample_row = pending /\ completed_at sample_row = None
      /\ table_consistent (jobs wf)
      /\ exists snaps,
           history wf = (history sample_start ++ snaps)%list
           /\ Forall (fun t => forall id row, t !! id = Some row ->
                        (completed_at row <> None
                         <-> (status row = completed \/ status row = failed))
                        /\ ((status row = pending \/ status row = processing)
                            -> completed_at row = None))
                     snaps).
Proof.
  assert (H1 : table_consistent (jobs sample_start)).
  { intros id job Hl. simpl in Hl. rewrite lookup_empty in Hl. discriminate Hl. }
  assert (H2 : ThreatModelingJobModel.create "job-1" (clock sample_start) 1
                 "[UPLOADED] myapp.zip" (Some "Perform threat modeling analysis")
                 None None None (jobs sample_start)
               = (fst sample_created, Ok sample_row)).
  { vm_compute. reflexivity. }
  split; [exact H1|]. split; [exact H2|].
  exact (completed_at_iff_terminal_status sample_env "job-1"
           "/app/backend/uploads/threat-modeling/extracted-f3a9/myapp"
           sample_zip sample_extracted (Some "myapp.zip") 1 "[UPLOADED] myapp.zip"
           (Some "Perform threat modeling analysis") None None None
           sample_start (fst sample_created) sample_row H1 H2).
Defined.

(** The controller itself can invoke its release callback twice: when the
    job is deleted while the agent runs and the agent exits with a code, the
    release of line 611 is followed by a failing [updateExecutionMetrics]
    (the row is gone) and then by the release of line 645.  The job is
    neither re-created nor marked: it stays deleted. *)
Example run_can_release_twice :
  let result := processThreatModelingJob sample_env_deleted "job-1"
                  "/app/backend/uploads/threat-modeling/extracted-f3a9/myapp"
                  sample_zip sample_extracted (Some "myapp.zip") sample_world in
  mutex_calls (fst result) = [Acquire 1; Release 1; Release 1]
  /\ snd result = Throw (JsError "Job not found")
  /\ jobs (fst result) !! "job-1" = None
  /\ holders (mutex_run mutex_init
                ([Acquire 1; Acquire 2; Acquire 3] ++ [Release 1; Release 1]))
     = [2; 3].
Proof. vm_compute. repeat split; reflexivity. Qed.

(* --------------------------------------------------------------------- *)
(** ** Roles and permissions                                              *)
(* --------------------------------------------------------------------- *)

(** X1.  The two middlewares and the two helper predicates of
    middleware/permissions.ts are readings of the one hierarchy of
    [hasRole]: [requireAdmin] lets a request through exactly when
    [canManageUsers] holds, which is [hasRole] for Admin;
    [requireJobScheduling] lets it through exactly when [canScheduleJobs]
    holds, which is [hasRole] for Operator. *)
Theorem permissions_follow_the_hierarchy (userRole : option UserRole) :
  (requireAdmin userRole = Next <-> canManageUsers userRole = true)
  /\ canManageUsers userRole = hasRole userRole Admin
  /\ (requireJobScheduling userRole = Next <-> canScheduleJobs userRole = true)
  /\ canScheduleJobs userRole = hasRole userRole Operator.
Proof.
  destruct userRole as [[]|]; cbn; repeat split; intros; congruence.
Qed.

(** X2.  [hasRole] is cumulative: a role that meets a requirement meets
    every requirement that is not higher; every authenticated role meets
    Auditor, Admin meets every requirement, and a request without a role
    meets none. *)
Theorem hasRole_is_cumulative (userRole : option UserRole) (required lower : UserRole) :
  (hasRole userRole required = true ->
   roleHierarchy lower <= roleHierarchy required ->
   hasRole userRole lower = true)
  /\ hasRole (Some Admin) required = true
  /\ (forall r, hasRole (Some r) Auditor = true)
  /\ hasRole None required = false.
Proof.
  split; [|split; [|split]].
  - destruct userRole as [r|]; cbn; [|discriminate].
    intros H Hle. apply Nat.leb_le in H. apply Nat.leb_le. lia.
  - now destruct required.
  - now intros [].
  - reflexivity.
Qed.

(* --------------------------------------------------------------------- *)
(** ** Listings                                                           *)
(* --------------------------------------------------------------------- *)

Lemma table_rows_spec (t : gmap string ThreatModelingJob) (job : ThreatModelingJob) :
  In job (table_rows t) <-> exists id, t !! id = Some job.
Proof.
  unfold table_rows. rewrite in_map_iff. split.
  - intros [[id j] [Heq Hin]]. simpl in Heq. subst j. exists id.
    apply elem_of_map_to_list. now apply list_elem_of_In.
  - intros [id Hid]. exists (id, job). split; [reflexivity|].
    apply list_elem_of_In. now apply elem_of_map_to_list.
Qed.

Lemma limit_rows_incl {A} (limit : Z) (rows : list A) (x : A) :
  In x (limit_rows limit rows) -> In x rows.
Proof.
  unfold limit_rows. destruct (limit <? 0)%Z; [trivial|].
  intros H. rewrite <- (take_drop (Z.to_nat limit) rows).
  apply in_or_app. now left.
Qed.

Lemma limit_rows_length {A} (limit : Z) (rows : list A) :
  (0 <= limit)%Z -> List.length (limit_rows limit rows) <= Z.to_nat limit.
Proof.
  intros H. unfold limit_rows. destruct (limit <? 0)%Z eqn:Hneg; [lia|].
  rewrite length_take. lia.
Qed.

Lemma limit_rows_all_or_full {A} (limit : Z) (rows : list A) :
  limit_rows limit rows = rows
  \/ ((0 <= limit)%Z /\ List.length (limit_rows limit rows) = Z.to_nat limit).
Proof.
  unfold limit_rows. destruct (limit <? 0)%Z eqn:Hneg; [now left|].
  destruct (le_lt_dec (List.length rows) (Z.to_nat limit)) as [Hle|Hlt].
  - left. now apply take_ge.
  - right. split; [lia|]. rewrite length_take. lia.
Qed.

Lemma limit_rows_sorted {A} (R : relation A) (limit : Z) (rows : list A) :
  StronglySorted R rows -> StronglySorted R (limit_rows limit rows).
Proof.
  unfold limit_rows. destruct (limit <? 0)%Z; [trivial|].
  intros H. rewrite <- (take_drop (Z.to_nat limit) rows) in H.
  now apply StronglySorted_app_1_l in H.
Qed.

#[local] Instance newest_first_trans : Transitive newest_first.
Proof. intros a b c. unfold newest_first. lia. Qed.

#[local] Instance newest_first_total : Total newest_first.
Proof. intros a b. unfold newest_first. lia. Qed.

Lemma sorted_rows_spec (rows : list ThreatModelingJob) (job : ThreatModelingJob) :
  In job (merge_sort newest_first rows) <-> In job rows.
Proof.
  rewrite <- !list_elem_of_In.
  now rewrite (merge_sort_Permutation newest_first rows).
Qed.

Lemma findByUserId_own (t : gmap string ThreatModelingJob) (userId : nat) (limit : Z)
    (job : ThreatModelingJob) :
  In job (findByUserId t userId limit) ->
  user_id job = userId /\ exists id, t !! id = Some job.
Proof.
  unfold findByUserId. intros Hin.
  apply limit_rows_incl, sorted_rows_spec, filter_In in Hin as [Hin Hu].
  split; [now apply Nat.eqb_eq|now apply table_rows_spec].
Qed.

(** X3.  [findByUserId] returns rows of the table that belong to the
    user, newest first and at most [limit] of them when the limit is not
    negative; a job of the user is missing from the result only when the
    limit is reached. *)
Theorem findByUserId_lists_the_users_jobs
    (t : gmap string ThreatModelingJob) (userId : nat) (limit : Z) :
  let found := findByUserId t userId limit in
  Forall (fun job => user_id job = userId /\ exists id, t !! id = Some job) found
  /\ StronglySorted newest_first found
  /\ ((0 <= limit)%Z -> List.length found <= Z.to_nat limit)
  /\ (forall id job,
        t !! id = Some job -> user_id job = userId ->
        In job found \/ ((0 <= limit)%Z /\ List.length found = Z.to_nat limit)).
Proof.
  cbv zeta. unfold findByUserId. split; [|split; [|split]].
  - apply List.Forall_forall. intros job Hin. now apply findByUserId_own in Hin.
  - apply limit_rows_sorted. apply StronglySorted_merge_sort; apply _.
  - apply limit_rows_length.
  - intros id job Hrow Hu.
    destruct (limit_rows_all_or_full limit
                (merge_sort newest_first
                   (List.filter (fun job => Nat.eqb (user_id job) userId) (table_rows t))))
      as [->|Hfull]; [left|now right].
    apply sorted_rows_spec, filter_In. split.
    + apply table_rows_spec. now exists id.
    + now apply Nat.eqb_eq.
Qed.

(** X4.  GET /jobs, asked by anyone who is not an Auditor, lists only
    rows of the table owned by the requester, without an owner field. *)
Theorem listJobs_shows_only_own_jobs
    (t : gmap string ThreatModelingJob) (users : gmap nat User)
    (userId : nat) (userRole : option UserRole) :
  role_is userRole Auditor = false ->
  exists views,
    listJobsRoute t users userId userRole = Success views
    /\ Forall (fun view =>
                 exists id job,
                   t !! id = Some job /\ user_id job = userId
                   /\ view = job_json job None) views.
Proof.
  intros Hrole. unfold listJobsRoute. rewrite Hrole. eexists. split; [reflexivity|].
  apply List.Forall_forall. intros view Hin.
  apply in_map_iff in Hin as [job [<- Hin]].
  destruct (findByUserId_own t userId default_limit job Hin) as [Hu [id Hid]].
  now exists id, job.
Qed.

Lemma listJobs_shows_only_own_jobs_witness :
  role_is (Some Operator) Auditor = false
  /\ exists views,
       listJobsRoute sample_completed_table sample_users 1 (Some Operator) = Success views
       /\ Forall (fun view =>
                    exists id job,
                      sample_completed_table !! id = Some job /\ user_id job = 1
                      /\ view = job_json job None) views.
Proof.
  split; [reflexivity|].
  exact (listJobs_shows_only_own_jobs sample_completed_table sample_users 1
           (Some Operator) eq_refl).
Defined.

(* --------------------------------------------------------------------- *)
(** ** The routes that read one job                                       *)
(* --------------------------------------------------------------------- *)

Lemma findById_spec (t : gmap string ThreatModelingJob) (id : string) :
  ThreatModelingJobModel.findById t id
  = match t !! id with
    | Some job => Ok job
    | None => Throw (JsError "Job not found")
    end.
Proof. reflexivity. Qed.

(** X5.  GET /jobs/:id answers 404 when the table has no such row and 403
    when the row belongs to someone else and the requester is not an
    Auditor; otherwise it answers with that row.  The owner's name is added
    for Auditors only, and the report contents are all null unless the
    job is completed. *)
Theorem getJob_access_control
    (t : gmap string ThreatModelingJob) (users : gmap nat User) (disk : Disk)
    (id : string) (userId : nat) (userRole : option UserRole) :
  match t !! id with
  | None =>
      getJobRoute t users disk id userId userRole
      = Failure 404 "Job not found" (Some "Job not found")
  | Some job =>
      if role_is userRole Auditor || Nat.eqb (user_id job) userId then
        exists detail owner,
          getJobRoute t users disk id userId userRole = Success detail
          /\ jd_job detail = job_json job owner
          /\ (role_is userRole Auditor = false -> owner = None)
          /\ jd_reportContent detail = jd_threatModelContent detail
          /\ (status job <> completed ->
              jd_dataFlowDiagramContent detail = None
              /\ jd_threatModelContent detail = None
              /\ jd_riskRegistryContent detail = None)
      else
        getJobRoute t users disk id userId userRole = Failure 403 "Access denied" None
  end.
Proof.
  unfold getJobRoute. rewrite findById_spec.
  destruct (t !! id) as [job|]; [|reflexivity].
  destruct (role_is userRole Auditor) eqn:Hrole; simpl.
  - eexists _, _. split; [reflexivity|]. simpl.
    split; [reflexivity|]. split; [discriminate|]. split; [reflexivity|].
    intros Hst. destruct (status job); try (now destruct Hst); now simpl.
  - destruct (Nat.eqb (user_id job) userId); simpl; [|reflexivity].
    eexists _, _. split; [reflexivity|]. simpl.
    split; [reflexivity|]. split; [reflexivity|]. split; [reflexivity|].
    intros Hst. destruct (status job); try (now destruct Hst); now simpl.
Qed.

Lemma truthy_or_else (a b : option string) :
  truthy a || truthy b = truthy (or_else a b).
Proof. unfold or_else. destruct (truthy a) eqn:Ha; simpl; [now rewrite Ha|reflexivity]. Qed.

(** X6.  GET /reports lists only completed jobs of the requester, each with
    a non-empty [reportPath]: the stored [report_path], or the threat model
    path when that column is empty. *)
Theorem reports_are_own_completed_jobs
    (t : gmap string ThreatModelingJob) (userId : nat) :
  exists reports,
    reportsRoute t userId = Success reports
    /\ Forall (fun report =>
                 truthy (rj_reportPath report) = true
                 /\ exists id job,
                      t !! id = Some job /\ user_id job = userId
                      /\ status job = completed /\ report = report_json job) reports.
Proof.
  unfold reportsRoute. eexists. split; [reflexivity|].
  apply List.Forall_forall. intros report Hin.
  apply in_map_iff in Hin as [job [<- Hin]].
  apply filter_In in Hin as [Hin Hrep].
  apply findByUserId_own in Hin as [Hu [id Hid]].
  unfold has_report in Hrep. apply andb_true_iff in Hrep as [Hst Hpath].
  split.
  - simpl. rewrite <- truthy_or_else. now rewrite orb_comm.
  - exists id, job. repeat split; try assumption.
    now destruct (status job).
Qed.

Lemma archive_member_spec (disk : Disk) (p : option string) (file : string) :
  In file (map fst (archive_member disk p)) ->
  p = Some file /\ disk_exists disk file = true.
Proof.
  unfold archive_member. destruct p as [f|]; [|intros []].
  destruct (truthy (Some f) && disk_exists disk f) eqn:H; [|intros []].
  apply andb_true_iff in H as [_ H]. simpl. intros [<-|[]]. now split.
Qed.

(** X7.  The download route sends data only for a completed job that the
    requester owns (an Auditor is refused like anyone else), and every path
    it sends is one of the four report paths stored in that row and exists
    on the disk. *)
Theorem download_sends_only_own_reports
    (t : gmap string ThreatModelingJob) (disk : Disk) (jobId : string)
    (type : option QueryValue) (userId : nat) :
  let reply := downloadRoute t disk jobId type userId in
  if sends_data reply then
    exists job,
      t !! jobId = Some job /\ user_id job = userId /\ status job = completed
      /\ Forall (fun p => In (Some p) (stored_report_paths job)
                          /\ disk_exists disk p = true) (sent_paths reply)
  else True.
Proof.
  cbv zeta. unfold downloadRoute. rewrite findById_spec.
  destruct (t !! jobId) as [job|];
    [|exact I].
  destruct (Nat.eqb (user_id job) userId) eqn:Hu; simpl; [|trivial].
  apply Nat.eqb_eq in Hu.
  destruct (JobStatus_eqb (status job) completed) eqn:Hst; simpl; [|trivial].
  assert (Hc : status job = completed) by now destruct (status job).
  destruct (query_is _ "all").
  - simpl. exists job. repeat split; try assumption.
    apply List.Forall_forall. intros p Hp. rewrite !map_app in Hp.
    unfold stored_report_paths.
    repeat (apply in_app_or in Hp as [Hp|Hp]).
    + apply archive_member_spec in Hp as [-> ?]. split; [|assumption]. simpl. tauto.
    + apply archive_member_spec in Hp as [-> ?]. split; [|assumption]. simpl. tauto.
    + apply archive_member_spec in Hp as [-> ?]. split; [|assumption]. simpl. tauto.
    + destruct (negb (truthy (threat_model_path job))); [|destruct Hp].
      apply archive_member_spec in Hp as [-> ?]. split; [|assumption]. simpl. tauto.
  - assert (Hsend : forall (p : option string) (name : string),
              In p (stored_report_paths job) ->
              let reply := match p with
                           | Some filePath =>
                               if negb (truthy p) || negb (disk_exists disk filePath)
                               then DownloadFailure 404 "Report file not found" None
                               else SendFile filePath name
                           | None => DownloadFailure 404 "Report file not found" None
                           end in
              if sends_data reply then
                exists job0,
                  Some job = Some job0 /\ user_id job0 = userId /\ status job0 = completed
                  /\ Forall (fun q => In (Some q) (stored_report_paths job0)
                                      /\ disk_exists disk q = true) (sent_paths reply)
              else True).
    { intros p name Hp. cbv zeta. destruct p as [filePath|]; [|exact I].
      destruct (negb (truthy (Some filePath)) || negb (disk_exists disk filePath)) eqn:Hg;
        [exact I|].
      apply orb_false_iff in Hg as [_ Hex]. apply negb_false_iff in Hex.
      simpl. exists job. repeat split; try assumption.
      constructor; [|constructor]. now split. }
    unfold stored_report_paths in Hsend.
    destruct (query_is _ "data_flow_diagram" && truthy (data_flow_diagram_path job));
      [apply Hsend; simpl; tauto|].
    destruct (query_is _ "threat_model" && truthy (threat_model_path job));
      [apply Hsend; simpl; tauto|].
    destruct (query_is _ "risk_registry" && truthy (risk_registry_path job));
      [apply Hsend; simpl; tauto|].
    destruct (query_is _ "threat_model" && truthy (report_path job));
      [apply Hsend; simpl; tauto|].
    exact I.
Qed.

(* --------------------------------------------------------------------- *)
(** ** The DELETE route                                                   *)
(* --------------------------------------------------------------------- *)





(** X8.  A DELETE request for a job that is not in the table, or that is
    in the table but belongs to another user, changes nothing: not the
    table, not the running jobs, not a file.  It is answered 404 and 403. *)
Theorem deleteRoute_refuses_without_effect
    (E : Env) (id : string) (userId : nat) (w : World) :
  match jobs w !! id with
  | None => deleteRoute E id userId w = (w, Ok 404)
  | Some job =>
      user_id job <> userId -> deleteRoute E id userId w = (w, Ok 403)
  end.
Proof.
  unfold deleteRoute.
  destruct (jobs w !! id) as [job|] eqn:Hrow.
  - intros Hforeign. apply try_catch_Ok.
    assert (Hfound :
      try_catch (job <- findJob id ;; ret (Some job))
        (fun error =>
           if includes (message_or "Unknown error occurred" error) "not found"
           then ret None else throw error) w = (w, Ok (Some job))).
    { unfold try_catch, bind, findJob, ThreatModelingJobModel.findById.
      rewrite Hrow. reflexivity. }
    rewrite (bind_Ok _ _ _ _ _ Hfound).
    apply Nat.eqb_neq in Hforeign. rewrite Hforeign. reflexivity.
  - unfold try_catch, bind, findJob, ThreatModelingJobModel.findById.
    rewrite Hrow. reflexivity.
Qed.



(* --------------------------------------------------------------------- *)
(** ** The data access layer on its own                                   *)
(* --------------------------------------------------------------------- *)

Lemma alter_missing {A} (f : A -> A) (id : string) (t : gmap string A) :
  t !! id = None -> alter f id t = t.
Proof.
  intros Hid. apply map_eq. intros k. destruct (decide (id = k)) as [<-|Hne].
  - now rewrite lookup_alter_eq, Hid.
  - now rewrite lookup_alter_ne.
Qed.



(** X11.  On an identifier that is not in the table every update changes
    nothing and throws 'Job not found' (the UPDATE matches no row, the
    read-back fails), [delete] changes nothing, and [create] with an
    identifier that is in the table throws and changes nothing. *)
Theorem updates_of_a_missing_job_change_nothing
    (now : nat) (id : string) (t : gmap string ThreatModelingJob) :
  t !! id = None ->
  let notFound := Throw (JsError "Job not found") in
  (forall st a b c d e,
     ThreatModelingJobModel.updateStatus now id st a b c d e t = (t, notFound))
  /\ (forall a b c, ThreatModelingJobModel.updateReports now id a b c t = (t, notFound))
  /\ (forall message,
        ThreatModelingJobModel.updateErrorMessage now id message t = (t, notFound))
  /\ (forall a b c, ThreatModelingJobModel.updateMetadata now id a b c t = (t, notFound))
  /\ (forall a b,
        ThreatModelingJobModel.updateExecutionMetrics now id a b t = (t, notFound))
  /\ ThreatModelingJobModel.delete id t = t
  /\ (forall other job userId repoPath q a b c,
        t !! other = Some job ->
        exists e,
          ThreatModelingJobModel.create other now userId repoPath q a b c t
          = (t, Throw e)).
Proof.
  intros Hid. cbv zeta.
  assert (Hup : forall f : ThreatModelingJob -> ThreatModelingJob,
            (alter f id t, ThreatModelingJobModel.findById (alter f id t) id)
            = (t, Throw (JsError "Job not found"))).
  { intros f. rewrite findById_alter, Hid. now rewrite alter_missing. }
  repeat split; intros; try apply Hup.
  - unfold ThreatModelingJobModel.delete. now apply delete_id.
  - unfold ThreatModelingJobModel.create. rewrite H. now eexists.
Qed.

Lemma updates_of_a_missing_job_change_nothing_witness :
  jobs sample_world !! "job-2" = None
  /\ ThreatModelingJobModel.updateErrorMessage 7 "job-2" "boom" (jobs sample_world)
     = (jobs sample_world, Throw (JsError "Job not found")).
Proof.
  split; [reflexivity|].
  exact (proj1 (proj2 (proj2
           (updates_of_a_missing_job_change_nothing 7 "job-2" (jobs sample_world)
              eq_refl))) "boom").
Defined.

(** X12.  No update ever clears [completed_at], and only an update to a
    terminal status sets it.  So [updateStatus] back to pending or
    processing on a finished job leaves a row whose [completed_at] is set
    although its status is not terminal: the invariant of the data model is
    kept by the order in which the controller calls the model, not by the
    model. *)
Theorem updates_never_clear_completed_at
    (now : nat) (id : string) (t : gmap string ThreatModelingJob)
    (job : ThreatModelingJob) :
  t !! id = Some job ->
  (forall st a b c d e,
     exists row,
       ThreatModelingJobModel.updateStatus now id st a b c d e t
       = (<[id := row]> t, Ok row)
       /\ status row = st
       /\ completed_at row = (match st with
                              | completed | failed => Some now
                              | pending | processing => completed_at job
                              end)
       /\ (completed_at job <> None -> st = pending \/ st = processing ->
           ~ completed_at_consistent row))
  /\ (forall a b c,
        exists row,
          ThreatModelingJobModel.updateMetadata now id a b c t = (<[id := row]> t, Ok row)
          /\ status row = status job /\ completed_at row = completed_at job)
  /\ (forall a b,
        exists row,
          ThreatModelingJobModel.updateExecutionMetrics now id a b t
          = (<[id := row]> t, Ok row)
          /\ status row = status job /\ completed_at row = completed_at job).
Proof.
  intros Hid.
  assert (Hup : forall f : ThreatModelingJob -> ThreatModelingJob,
            (alter f id t, ThreatModelingJobModel.findById (alter f id t) id)
            = (<[id := f job]> t, Ok (f job))).
  { intros f. rewrite findById_alter, Hid. f_equal.
    apply map_eq. intros k. destruct (decide (id = k)) as [<-|Hne].
    - now rewrite lookup_alter_eq, lookup_insert_eq, Hid.
    - now rewrite lookup_alter_ne, lookup_insert_ne. }
  split; [|split].
  - intros st a b c d e. eexists.
    split; [unfold ThreatModelingJobModel.updateStatus; cbv zeta; rewrite Hup; reflexivity|].
    cbn. split; [reflexivity|]. split; [reflexivity|].
    intros Hset Hst [Hcons _]. cbn in Hcons.
    destruct Hst as [-> | ->]; destruct (Hcons Hset); discriminate.
  - intros a b c. eexists.
    split; [unfold ThreatModelingJobModel.updateMetadata; cbv zeta; rewrite Hup; reflexivity|].
    now cbn.
  - intros a b. eexists.
    split; [unfold ThreatModelingJobModel.updateExecutionMetrics; cbv zeta; rewrite Hup;
            reflexivity|].
    now cbn.
Qed.

Lemma updates_never_clear_completed_at_witness :
  sample_completed_table !! "job-1" = Some sample_completed_row
  /\ exists row,
       ThreatModelingJobModel.updateStatus 140 "job-1" processing None None None None None
         sample_completed_table
       = (<["job-1" := row]> sample_completed_table, Ok row)
       /\ status row = processing
       /\ completed_at row = completed_at sample_completed_row
       /\ (completed_at sample_completed_row <> None ->
           processing = pending \/ processing = processing ->
           ~ completed_at_consistent row).
Proof.
  split; [reflexivity|].
  exact (proj1 (updates_never_clear_completed_at 140 "job-1" sample_completed_table
                  sample_completed_row eq_refl)
           processing None None None None None).
Defined.

(** X13.  [delete] removes the row and nothing else; deleting twice is
    deleting once; and after it [findById] and every update of that job
    throw 'Job not found'. *)
Theorem delete_removes_one_row (now : nat) (id : string) (t : gmap string ThreatModelingJob) :
  let t' := ThreatModelingJobModel.delete id t in
  t' !! id = None
  /\ (forall other, other <> id -> t' !! other = t !! other)
  /\ ThreatModelingJobModel.delete id t' = t'
  /\ ThreatModelingJobModel.findById t' id = Throw (JsError "Job not found")
  /\ (forall st a b c d e,
        ThreatModelingJobModel.updateStatus now id st a b c d e t'
        = (t', Throw (JsError "Job not found"))).
Proof.
  cbv zeta. unfold ThreatModelingJobModel.delete.
  assert (Hgone : base.delete id t !! id = None) by apply lookup_delete_eq.
  split; [exact Hgone|]. split; [|split; [|split]].
  - intros other Hne. now apply lookup_delete_ne.
  - now apply delete_id.
  - unfold ThreatModelingJobModel.findById. now rewrite Hgone.
  - intros st a b c d e. unfold ThreatModelingJobModel.updateStatus.
    rewrite findById_alter, Hgone. now rewrite alter_missing.
Qed.

(* --------------------------------------------------------------------- *)
(** ** Encryption                                                         *)
(* --------------------------------------------------------------------- *)

Lemma hex_digit_not_colon (n : nat) : Ascii.eqb (hex_digit n) ":" = false.
Proof. do 16 (destruct n as [|n]; [reflexivity|]). reflexivity. Qed.

Lemma fromHex_toHex (bytes : list Byte.byte) : fromHex (toHex bytes) = bytes.
Proof.
  induction bytes as [|b rest IH]; [reflexivity|].
  cbn [toHex fromHex]. rewrite IH. now destruct b.
Qed.

(** A hexadecimal string in front of a colon is one segment. *)
Lemma split_on_toHex (bytes : list Byte.byte) (rest : string) :
  split_on ":" (toHex bytes ++ String ":" rest) = toHex bytes :: split_on ":" rest.
Proof.
  induction bytes as [|b bytes IH]; [reflexivity|].
  cbn [toHex]. change (String ?a (String ?b ?s) ++ ?t) with (String a (String b (s ++ t))).
  cbn [split_on]. rewrite !hex_digit_not_colon, IH. reflexivity.
Qed.

Lemma split_on_toHex_last (bytes : list Byte.byte) :
  split_on ":" (toHex bytes) = [toHex bytes].
Proof.
  induction bytes as [|b bytes IH]; [reflexivity|].
  cbn [toHex split_on]. rewrite !hex_digit_not_colon, IH. reflexivity.
Qed.

Lemma colon_append (s : string) : ":" ++ s = String ":" s.
Proof. reflexivity. Qed.

Lemma append_colon_not_empty (s t : string) : String.eqb (s ++ String ":" t) "" = false.
Proof. now destruct s. Qed.

Lemma encrypt_with_not_empty (C : Crypto) (salt iv : list Byte.byte)
    (text encryptionKey : string) :
  encrypt_with C salt iv text encryptionKey <> "".
Proof.
  unfold encrypt_with. cbv zeta. rewrite colon_append. intros H.
  apply String.eqb_eq in H. now rewrite append_colon_not_empty in H.
Qed.

Lemma decrypt_encrypt_with (C : Crypto) (salt iv : list Byte.byte)
    (text encryptionKey : string) :
  authentic C ->
  decrypt C (encrypt_with C salt iv text encryptionKey) encryptionKey = Ok text.
Proof.
  intros HC. unfold decrypt, encrypt_with. cbv zeta.
  rewrite !colon_append, append_colon_not_empty.
  rewrite !split_on_toHex, split_on_toHex_last, !fromHex_toHex.
  now rewrite HC.
Qed.

Lemma sample_crypto_authentic : authentic sample_crypto.
Proof.
  intros key iv text. unfold sample_crypto. cbn [cr_decipher cr_cipher fst snd].
  rewrite String.eqb_refl. now rewrite string_of_list_byte_of_string.
Qed.

(** X14.  What [encrypt] seals under a key, [decrypt] opens under the same
    key, whatever the salt and the IV drawn: the colon-separated hexadecimal
    layout survives the round trip, and the empty text is its own
    encryption.  The one thing assumed is that the cipher itself
    authenticates. *)
Theorem decrypt_inverts_encrypt (C : Crypto) (text encryptionKey : string)
    (st : SettingsStore) :
  authentic C ->
  exists sealed st',
    encrypt C text encryptionKey st = (st', Ok sealed)
    /\ decrypt C sealed encryptionKey = Ok text
    /\ settings_row st' = settings_row st
    /\ (text = "" <-> sealed = "").
Proof.
  intros HC. unfold encrypt.
  destruct (String.eqb text "") eqn:Hempty.
  - apply String.eqb_eq in Hempty. subst text. exists "", st. now repeat split.
  - apply String.eqb_neq in Hempty.
    eexists _, _. split; [reflexivity|]. split; [now apply decrypt_encrypt_with|].
    split; [reflexivity|]. split; [intros ->; now destruct Hempty|].
    intros Hsealed. now apply encrypt_with_not_empty in Hsealed.
Qed.

Lemma decrypt_inverts_encrypt_witness :
  authentic sample_crypto
  /\ exists sealed st',
       encrypt sample_crypto "sk-ant-123" sample_key sample_store
       = (st', Ok sealed)
       /\ decrypt sample_crypto sealed sample_key = Ok "sk-ant-123"
       /\ settings_row st' = settings_row sample_store
       /\ ("sk-ant-123" = "" <-> sealed = "").
Proof.
  split; [exact sample_crypto_authentic|].
  exact (decrypt_inverts_encrypt sample_crypto "sk-ant-123" sample_key sample_store
           sample_crypto_authentic).
Defined.

(** X15.  Every failure of [decrypt] is an [Error] whose message begins
    with 'Decryption failed: '; and a non-empty input that is not four
    colon-separated fields (a key stored in the clear, say) fails with
    'Decryption failed: Invalid encrypted data format' before the cipher is
    consulted. *)
Theorem decrypt_failures (C : Crypto) (encryptedData encryptionKey : string) :
  (forall e, decrypt C encryptedData encryptionKey = Throw e ->
             exists detail, e = JsError ("Decryption failed: " ++ detail))
  /\ (encryptedData <> "" ->
      List.length (split_on ":" encryptedData) <> 4 ->
      decrypt C encryptedData encryptionKey
      = Throw (JsError "Decryption failed: Invalid encrypted data format")).
Proof.
  unfold decrypt. split.
  - intros e. destruct (String.eqb encryptedData ""); [discriminate|].
    cbv zeta.
    match goal with
    | |- match ?a with _ => _ end = _ -> _ => destruct a as [text|error]
    end; [discriminate|].
    intros H. injection H as <-. now eexists.
  - intros Hne Hlen. apply String.eqb_neq in Hne. rewrite Hne. cbv zeta.
    destruct (split_on ":" encryptedData) as [|a [|b [|c [|d [|e rest]]]]];
      try reflexivity.
    now destruct Hlen.
Qed.

(* --------------------------------------------------------------------- *)
(** ** The settings store                                                 *)
(* --------------------------------------------------------------------- *)

Lemma op_bind_Ok {A B} (m : Op A) (k : A -> Op B) (st st' : SettingsStore) (a : A) :
  m st = (st', Ok a) -> op_bind m k st = k a st'.
Proof. intros H. unfold op_bind. now rewrite H. Qed.

Lemma op_bind_Throw {A B} (m : Op A) (k : A -> Op B) (st st' : SettingsStore) (e : thrown) :
  m st = (st', Throw e) -> op_bind m k st = (st', Throw e).
Proof. intros H. unfold op_bind. now rewrite H. Qed.

(** [get(false)] never hands out the API key. *)
Lemma get_false (C : Crypto) (st : SettingsStore) (s : Settings) :
  settings_row st = Some s ->
  SettingsModel.get C false st
  = (st, Ok {| sv_encryption_key := encryption_key s;
               sv_anthropic_api_key := None;
               sv_anthropic_base_url := anthropic_base_url s;
               sv_claude_code_max_output_tokens := claude_code_max_output_tokens s;
               sv_updated_at := settings_updated_at s |}).
Proof.
  intros Hrow. unfold SettingsModel.get. rewrite Hrow.
  now destruct (anthropic_api_key s).
Qed.

Lemma get_true_sealed (C : Crypto) (st : SettingsStore) (s : Settings)
    (sealed apiKey : string) :
  settings_row st = Some s ->
  anthropic_api_key s = Some sealed -> sealed <> "" ->
  decrypt C sealed (encryption_key s) = Ok apiKey ->
  SettingsModel.get C true st
  = (st, Ok {| sv_encryption_key := encryption_key s;
               sv_anthropic_api_key := Some apiKey;
               sv_anthropic_base_url := anthropic_base_url s;
               sv_claude_code_max_output_tokens := claude_code_max_output_tokens s;
               sv_updated_at := settings_updated_at s |}).
Proof.
  intros Hrow Hkey Hne Hdec. unfold SettingsModel.get. rewrite Hrow, Hkey.
  destruct sealed; [now destruct Hne|]. cbn [truthy andb]. now rewrite Hdec.
Qed.

Lemma get_true_unset (C : Crypto) (st : SettingsStore) (s : Settings) :
  settings_row st = Some s ->
  truthy (anthropic_api_key s) = false ->
  SettingsModel.get C true st
  = (st, Ok {| sv_encryption_key := encryption_key s;
               sv_anthropic_api_key := None;
               sv_anthropic_base_url := anthropic_base_url s;
               sv_claude_code_max_output_tokens := claude_code_max_output_tokens s;
               sv_updated_at := settings_updated_at s |}).
Proof.
  intros Hrow Hkey. unfold SettingsModel.get. rewrite Hrow.
  destruct (anthropic_api_key s); [|reflexivity]. now rewrite Hkey.
Qed.

Lemma long_key_is_truthy (key : string) :
  32 <= String.length key ->
  truthy (Some key) = true /\ Nat.ltb (String.length key) 32 = false.
Proof.
  intros H. split; [destruct key; [cbn in H; lia|reflexivity]|].
  apply Nat.ltb_ge. exact H.
Qed.

(** X16.  [regenerateEncryptionKey] reads the current settings with
    [get(false)], which never carries the API key, so it finds nothing to
    re-encrypt: it stores the new encryption key together with a NULL API
    key.  Whatever API key was configured is lost, and
    [getAnthropicConfig] reports that none is configured, while the route
    answers the Admin with success and the new key. *)
Theorem regenerateEncryptionKey_erases_the_api_key
    (C : Crypto) (st : SettingsStore) (s : Settings) :
  settings_row st = Some s ->
  let newKey := toHex (cr_randomBytes C (random_calls st) 32) in
  exists st',
    SettingsModel.regenerateEncryptionKey C st = (st', Ok newKey)
    /\ settings_row st'
       = Some {| encryption_key := newKey;
                 anthropic_api_key := None;
                 anthropic_base_url := anthropic_base_url s;
                 claude_code_max_output_tokens := claude_code_max_output_tokens s;
                 settings_updated_at := settings_clock st |}
    /\ snd (SettingsModel.getAnthropicConfig C st')
       = Throw (JsError "Anthropic API key not configured in database. Please configure it in the admin settings panel.")
    /\ regenerateEncryptionKeyRoute C (Some Admin) st = (st', Success newKey).
Proof.
  intros Hrow newKey.
  set (st2 := {| settings_row :=
                   Some {| encryption_key := newKey;
                           anthropic_api_key := None;
                           anthropic_base_url := anthropic_base_url s;
                           claude_code_max_output_tokens :=
                             claude_code_max_output_tokens s;
                           settings_updated_at := settings_clock st |};
                 settings_clock := S (settings_clock st);
                 random_calls := S (random_calls st) |}).
  assert (Hreg : SettingsModel.regenerateEncryptionKey C st = (st2, Ok newKey)).
  { unfold SettingsModel.regenerateEncryptionKey.
    set (st1 := {| settings_row := settings_row st; settings_clock := settings_clock st;
                   random_calls := S (random_calls st) |}).
    rewrite (op_bind_Ok _ _ st st1 (cr_randomBytes C (random_calls st) 32)); [|reflexivity].
    cbv zeta. fold newKey.
    rewrite (op_bind_Ok _ _ st1 st1 _ (get_false C st1 s Hrow)).
    cbn [sv_anthropic_api_key truthy].
    rewrite (op_bind_Ok _ _ st1 st1 None); [|reflexivity].
    unfold op_bind, update_row, op_ret. cbn. rewrite Hrow. reflexivity. }
  exists st2. split; [exact Hreg|]. split; [reflexivity|]. split.
  - unfold SettingsModel.getAnthropicConfig, op_try, op_bind, SettingsModel.get. cbn.
    reflexivity.
  - unfold regenerateEncryptionKeyRoute. cbn [role_is UserRole_eqb negb].
    now rewrite Hreg.
Qed.

Lemma regenerateEncryptionKey_erases_the_api_key_witness :
  settings_row sample_store_with_key
  = Some {| encryption_key := sample_key;
            anthropic_api_key :=
              Some (encrypt_with sample_crypto (repeat Byte.x2a 64) (repeat Byte.x2a 16)
                      "sk-ant-123" sample_key);
            anthropic_base_url := "https://api.anthropic.com";
            claude_code_max_output_tokens := Some (QArith_base.inject_Z 32000);
            settings_updated_at := 10 |}
  /\ exists st',
       SettingsModel.regenerateEncryptionKey sample_crypto sample_store_with_key
       = (st', Ok (toHex (repeat Byte.x2a 32)))
       /\ settings_row st'
          = Some {| encryption_key := toHex (repeat Byte.x2a 32);
                    anthropic_api_key := None;
                    anthropic_base_url := "https://api.anthropic.com";
                    claude_code_max_output_tokens := Some (QArith_base.inject_Z 32000);
                    settings_updated_at := 11 |}
       /\ snd (SettingsModel.getAnthropicConfig sample_crypto st')
          = Throw (JsError "Anthropic API key not configured in database. Please configure it in the admin settings panel.")
       /\ regenerateEncryptionKeyRoute sample_crypto (Some Admin) sample_store_with_key
          = (st', Success (toHex (repeat Byte.x2a 32))).
Proof.
  split; [reflexivity|].
  exact (regenerateEncryptionKey_erases_the_api_key sample_crypto sample_store_with_key
           _ eq_refl).
Defined.

(** X17.  [update] with a new encryption key reads the current settings
    with [get(false)] too, so it never decrypts nor re-encrypts the API key:
    the encryption key is replaced and the stored API key stays sealed
    under the old one. *)
Theorem update_of_the_encryption_key_does_not_reencrypt
    (C : Crypto) (st : SettingsStore) (s : Settings) (newKey : string) :
  settings_row st = Some s ->
  32 <= String.length newKey ->
  exists st' view,
    SettingsModel.update C
      {| up_encryption_key := Some newKey; up_anthropic_api_key := None;
         up_anthropic_base_url := None; up_claude_code_max_output_tokens := None |} st
    = (st', Ok view)
    /\ settings_row st'
       = Some {| encryption_key := newKey;
                 anthropic_api_key := anthropic_api_key s;
                 anthropic_base_url := anthropic_base_url s;
                 claude_code_max_output_tokens := claude_code_max_output_tokens s;
                 settings_updated_at := settings_clock st |}
    /\ sv_encryption_key view = newKey
    /\ sv_anthropic_api_key view = None.
Proof.
  intros Hrow Hlen. destruct (long_key_is_truthy newKey Hlen) as [Htruthy Hlong].
  unfold SettingsModel.update.
  rewrite (op_bind_Ok _ _ st st _ (get_false C st s Hrow)).
  cbn [up_encryption_key up_anthropic_api_key up_anthropic_base_url
       up_claude_code_max_output_tokens sv_anthropic_api_key sv_encryption_key
       is_defined].
  rewrite Htruthy, Hlong.
  set (st1 := {| settings_row :=
                   Some (set_encryption_key newKey (anthropic_api_key s)
                           (settings_clock st) s);
                 settings_clock := S (settings_clock st);
                 random_calls := random_calls st |}).
  assert (Hstep :
    (currentApiKey <- op_ret None ;;
     update_row (fun now s0 => set_encryption_key newKey (anthropic_api_key s0) now s0) ;;
     match currentApiKey with
     | Some apiKey =>
         if truthy currentApiKey then
           encryptedApiKey <- encrypt C apiKey newKey ;;
           update_row (set_anthropic_api_key (Some encryptedApiKey))
         else op_ret tt
     | None => op_ret tt
     end)%settings st = (st1, Ok tt)).
  { unfold op_bind, op_ret, update_row. cbn. now rewrite Hrow. }
  rewrite (op_bind_Ok _ _ st st1 tt Hstep).
  rewrite (op_bind_Ok _ _ st1 st1 tt); [|reflexivity].
  rewrite (op_bind_Ok _ _ st1 st1 tt); [|reflexivity].
  rewrite (op_bind_Ok _ _ st1 st1 tt); [|reflexivity].
  eexists _, _. split; [apply (get_false C st1); reflexivity|].
  now repeat split.
Qed.

Lemma update_of_the_encryption_key_does_not_reencrypt_witness :
  settings_row sample_store_with_key
  = Some {| encryption_key := sample_key;
            anthropic_api_key :=
              Some (encrypt_with sample_crypto (repeat Byte.x2a 64) (repeat Byte.x2a 16)
                      "sk-ant-123" sample_key);
            anthropic_base_url := "https://api.anthropic.com";
            claude_code_max_output_tokens := Some (QArith_base.inject_Z 32000);
            settings_updated_at := 10 |}
  /\ 32 <= String.length sample_new_key
  /\ exists st' view,
       SettingsModel.update sample_crypto
         {| up_encryption_key := Some sample_new_key; up_anthropic_api_key := None;
            up_anthropic_base_url := None; up_claude_code_max_output_tokens := None |}
         sample_store_with_key
       = (st', Ok view)
       /\ settings_row st'
          = Some {| encryption_key := sample_new_key;
                    anthropic_api_key :=
                      Some (encrypt_with sample_crypto (repeat Byte.x2a 64)
                              (repeat Byte.x2a 16) "sk-ant-123" sample_key);
                    anthropic_base_url := "https://api.anthropic.com";
                    claude_code_max_output_tokens := Some (QArith_base.inject_Z 32000);
                    settings_updated_at := 11 |}
       /\ sv_encryption_key view = sample_new_key
       /\ sv_anthropic_api_key view = None.
Proof.
  split; [reflexivity|]. split; [cbn; lia|].
  exact (update_of_the_encryption_key_does_not_reencrypt sample_crypto
           sample_store_with_key _ sample_new_key eq_refl ltac:(cbn; lia)).
Defined.

(** With the stand-in cipher: after that update the stored key no longer
    opens, and the job controller is told so. *)
Example update_of_the_encryption_key_strands_the_api_key :
  let st' := fst (SettingsModel.update sample_crypto
                    {| up_encryption_key := Some sample_new_key;
                       up_anthropic_api_key := None; up_anthropic_base_url := None;
                       up_claude_code_max_output_tokens := None |}
                    sample_store_with_key) in
  snd (SettingsModel.getAnthropicConfig sample_crypto sample_store_with_key)
  = Ok ("sk-ant-123", "https://api.anthropic.com")
  /\ snd (SettingsModel.getAnthropicConfig sample_crypto st')
     = Throw (JsError "Failed to decrypt API key. The encryption key may have changed. Please update the API key in the admin settings panel.").
Proof. vm_compute. split; reflexivity. Qed.

Lemma get_true_inv (C : Crypto) (st st1 : SettingsStore) (view : SettingsView)
    (apiKey : string) :
  SettingsModel.get C true st = (st1, Ok view) ->
  sv_anthropic_api_key view = Some apiKey ->
  exists s sealed,
    settings_row st = Some s /\ anthropic_api_key s = Some sealed /\ sealed <> ""
    /\ decrypt C sealed (encryption_key s) = Ok apiKey.
Proof.
  unfold SettingsModel.get. destruct (settings_row st) as [s|]; [|discriminate].
  destruct (anthropic_api_key s) as [sealed|] eqn:Hkey.
  - destruct sealed as [|c sealed]; cbn [truthy andb].
    + intros H Hv. injection H as _ Hview. subst view. discriminate Hv.
    + destruct (decrypt C (String c sealed) (encryption_key s)) as [k|e] eqn:Hdec;
        [|discriminate].
      intros H Hv. injection H as _ Hview. subst view. cbn in Hv.
      injection Hv as Hk. subst k.
      exists s, (String c sealed).
      split; [reflexivity|]. split; [exact Hkey|]. split; [discriminate|exact Hdec].
  - intros H Hv. injection H as _ Hview. subst view. discriminate Hv.
Qed.

(** X18.  [updateEncryptionKey] does re-encrypt: when the API key could be
    read before (it is stored and opens under the current encryption key),
    then after [updateEncryptionKey] with a key of at least 32 characters
    the same API key is read under the new encryption key, and the base URL
    and the token limit are as before. *)
Theorem updateEncryptionKey_keeps_the_api_key
    (C : Crypto) (st : SettingsStore) (before : SettingsView)
    (apiKey newKey : string) :
  authentic C ->
  SettingsModel.get C true st = (st, Ok before) ->
  sv_anthropic_api_key before = Some apiKey -> apiKey <> "" ->
  32 <= String.length newKey ->
  exists st' after,
    SettingsModel.updateEncryptionKey C newKey st = (st', Ok tt)
    /\ SettingsModel.get C true st' = (st', Ok after)
    /\ sv_anthropic_api_key after = Some apiKey
    /\ sv_encryption_key after = newKey
    /\ sv_anthropic_base_url after = sv_anthropic_base_url before
    /\ sv_claude_code_max_output_tokens after = sv_claude_code_max_output_tokens before.
Proof.
  intros HC Hget Hkey Hne Hlen.
  destruct (long_key_is_truthy newKey Hlen) as [Htruthy Hlong].
  destruct (get_true_inv C st st before apiKey Hget Hkey)
    as (s & sealed & Hrow & Hsealed & Hsne & Hdec).
  rewrite (get_true_sealed C st s sealed apiKey Hrow Hsealed Hsne Hdec) in Hget.
  injection Hget as <-.
  unfold SettingsModel.updateEncryptionKey. rewrite Htruthy, Hlong. cbn [negb orb].
  rewrite (op_bind_Ok _ _ st st _
             (get_true_sealed C st s sealed apiKey Hrow Hsealed Hsne Hdec)).
  cbn [sv_anthropic_api_key].
  unfold SettingsModel.encrypt_if_set, encrypt.
  destruct apiKey as [|c apiKey]; [now destruct Hne|]. cbn [truthy String.eqb].
  replace (String.eqb (String c apiKey) "") with false by now destruct c.
  set (salt := cr_randomBytes C (random_calls st) SALT_LENGTH).
  set (iv := cr_randomBytes C (S (random_calls st)) IV_LENGTH).
  set (resealed := encrypt_with C salt iv (String c apiKey) newKey).
  set (st' := {| settings_row := Some (set_encryption_key newKey (Some resealed)
                                         (settings_clock st) s);
                 settings_clock := S (settings_clock st);
                 random_calls := S (S (random_calls st)) |}).
  exists st'. eexists. split; [|split].
  - unfold op_bind, op_ret, update_row, randomBytes. cbn.
    rewrite Hrow. reflexivity.
  - apply (get_true_sealed C st'
             (set_encryption_key newKey (Some resealed) (settings_clock st) s)
             resealed (String c apiKey)); try reflexivity.
    + apply encrypt_with_not_empty.
    + now apply decrypt_encrypt_with.
  - now repeat split.
Qed.

Lemma updateEncryptionKey_keeps_the_api_key_witness :
  authentic sample_crypto
  /\ "sk-ant-123" <> ""
  /\ 32 <= String.length sample_new_key
  /\ exists before st' after,
       SettingsModel.get sample_crypto true sample_store_with_key
       = (sample_store_with_key, Ok before)
       /\ sv_anthropic_api_key before = Some "sk-ant-123"
       /\ SettingsModel.updateEncryptionKey sample_crypto sample_new_key
            sample_store_with_key = (st', Ok tt)
       /\ SettingsModel.get sample_crypto true st' = (st', Ok after)
       /\ sv_anthropic_api_key after = Some "sk-ant-123"
       /\ sv_encryption_key after = sample_new_key
       /\ sv_anthropic_base_url after = sv_anthropic_base_url before
       /\ sv_claude_code_max_output_tokens after
          = sv_claude_code_max_output_tokens before.
Proof.
  split; [exact sample_crypto_authentic|]. split; [discriminate|].
  split; [cbn; lia|].
  eexists.
  destruct (updateEncryptionKey_keeps_the_api_key sample_crypto sample_store_with_key
              _ "sk-ant-123" sample_new_key sample_crypto_authentic
              ltac:(vm_compute; reflexivity) eq_refl ltac:(discriminate)
              ltac:(cbn; lia)) as (st' & after & H1 & H2 & H3 & H4 & H5 & H6).
  exists st', after. split; [vm_compute; reflexivity|]. split; [reflexivity|].
  repeat split; assumption.
Defined.

(** X19.  [updateAnthropicApiKey] then [get(true)] is a round trip: a
    non-empty key saved is the key read back, under the encryption key in
    force, and [getAnthropicConfig] hands it to the job controller with the
    base URL unless the key is blank. *)
Theorem updateAnthropicApiKey_round_trip
    (C : Crypto) (st : SettingsStore) (s : Settings) (apiKey : string) :
  authentic C ->
  settings_row st = Some s ->
  apiKey <> "" ->
  exists st' after,
    SettingsModel.updateAnthropicApiKey C apiKey st = (st', Ok tt)
    /\ SettingsModel.get C true st' = (st', Ok after)
    /\ sv_anthropic_api_key after = Some apiKey
    /\ sv_encryption_key after = encryption_key s
    /\ SettingsModel.getAnthropicConfig C st'
       = (st', if Nat.eqb (String.length (trim apiKey)) 0
               then Throw (JsError "Anthropic API key is configured but empty. Please update it in the admin settings panel.")
               else Ok (apiKey, anthropic_base_url s)).
Proof.
  intros HC Hrow Hne.
  unfold SettingsModel.updateAnthropicApiKey.
  rewrite (op_bind_Ok _ _ st st _ (get_false C st s Hrow)).
  cbn [sv_encryption_key]. unfold encrypt.
  destruct apiKey as [|c apiKey]; [now destruct Hne|].
  replace (String.eqb (String c apiKey) "") with false by now destruct c.
  set (salt := cr_randomBytes C (random_calls st) SALT_LENGTH).
  set (iv := cr_randomBytes C (S (random_calls st)) IV_LENGTH).
  set (sealed := encrypt_with C salt iv (String c apiKey) (encryption_key s)).
  set (s' := set_anthropic_api_key (Some sealed) (settings_clock st) s).
  set (st' := {| settings_row := Some s';
                 settings_clock := S (settings_clock st);
                 random_calls := S (S (random_calls st)) |}).
  assert (Hget : SettingsModel.get C true st'
                 = (st', Ok {| sv_encryption_key := encryption_key s';
                               sv_anthropic_api_key := Some (String c apiKey);
                               sv_anthropic_base_url := anthropic_base_url s';
                               sv_claude_code_max_output_tokens :=
                                 claude_code_max_output_tokens s';
                               sv_updated_at := settings_updated_at s' |})).
  { apply (get_true_sealed C st' s' sealed (String c apiKey)); try reflexivity.
    - apply encrypt_with_not_empty.
    - now apply decrypt_encrypt_with. }
  exists st'. eexists. split; [|split; [exact Hget|]].
  - unfold op_bind, op_ret, update_row, randomBytes. cbn.
    rewrite Hrow. reflexivity.
  - split; [reflexivity|]. split; [reflexivity|].
    unfold SettingsModel.getAnthropicConfig, op_try.
    rewrite (op_bind_Ok _ _ st' st' _ Hget).
    cbn [sv_anthropic_api_key sv_anthropic_base_url truthy negb orb].
    destruct (Nat.eqb (String.length (trim (String c apiKey))) 0); [|reflexivity].
    unfold SettingsModel.report_missing_key. cbn [settings_row st'].
    replace (truthy (anthropic_api_key s')) with true; [reflexivity|].
    cbn. pose proof (encrypt_with_not_empty C salt iv (String c apiKey) (encryption_key s)).
    fold sealed in H. now destruct sealed.
Qed.

Lemma updateAnthropicApiKey_round_trip_witness :
  authentic sample_crypto
  /\ settings_row sample_store = Some sample_settings
  /\ "sk-ant-123" <> ""
  /\ exists st' after,
       SettingsModel.updateAnthropicApiKey sample_crypto "sk-ant-123" sample_store
       = (st', Ok tt)
       /\ SettingsModel.get sample_crypto true st' = (st', Ok after)
       /\ sv_anthropic_api_key after = Some "sk-ant-123"
       /\ sv_encryption_key after = encryption_key sample_settings
       /\ SettingsModel.getAnthropicConfig sample_crypto st'
          = (st', if Nat.eqb (String.length (trim "sk-ant-123")) 0
                  then Throw (JsError "Anthropic API key is configured but empty. Please update it in the admin settings panel.")
                  else Ok ("sk-ant-123", anthropic_base_url sample_settings)).
Proof.
  split; [exact sample_crypto_authentic|]. split; [reflexivity|].
  split; [discriminate|].
  exact (updateAnthropicApiKey_round_trip sample_crypto sample_store sample_settings
           "sk-ant-123" sample_crypto_authentic eq_refl ltac:(discriminate)).
Defined.

(** X20.  GET /api/settings answers Admins only and changes nothing.  Its
    answer carries the encryption key itself, and never any sign of the API
    key: the field is null whether or not a key is stored, because the
    route reads the settings with [get(false)]. *)
Theorem getSettings_shows_no_api_key
    (C : Crypto) (userRole : option UserRole) (st : SettingsStore) :
  fst (getSettingsRoute C userRole st) = st
  /\ match snd (getSettingsRoute C userRole st) with
     | Success json =>
         userRole = Some Admin
         /\ sj_anthropic_api_key json = None
         /\ exists s, settings_row st = Some s
                      /\ sj_encryption_key json = encryption_key s
                      /\ sj_anthropic_base_url json = anthropic_base_url s
     | Failure code _ _ =>
         (code = 403 /\ userRole <> Some Admin)
         \/ (code = 500 /\ userRole = Some Admin /\ settings_row st = None)
     end.
Proof.
  unfold getSettingsRoute.
  destruct userRole as [[]|]; cbn [role_is UserRole_eqb negb];
    try (split; [reflexivity|]; left; split; [reflexivity|discriminate]).
  destruct (settings_row st) as [s|] eqn:Hrow.
  - rewrite (get_false C st s Hrow). cbn. split; [reflexivity|].
    split; [reflexivity|]. split; [reflexivity|]. now exists s.
  - unfold SettingsModel.get. rewrite Hrow. cbn. split; [reflexivity|].
    right. now repeat split.
Qed.

(** X21.  [getAnthropicConfig] never changes the store, and its outcome is
    decided in this order: no settings row, 'Settings not found'; no stored
    key, 'not configured'; a stored key that does not open, the
    'Failed to decrypt' message that asks for the key to be entered again; a
    key that opens to blank text, 'configured but empty'; otherwise the key
    and the base URL.  So a returned key is never blank. *)
Theorem getAnthropicConfig_outcomes (C : Crypto) (st : SettingsStore) :
  SettingsModel.getAnthropicConfig C st
  = (st,
     match settings_row st with
     | None => Throw (JsError "Settings not found")
     | Some s =>
         match anthropic_api_key s with
         | Some sealed =>
             if truthy (anthropic_api_key s) then
               match decrypt C sealed (encryption_key s) with
               | Ok apiKey =>
                   if Nat.eqb (String.length (trim apiKey)) 0
                   then Throw (JsError "Anthropic API key is configured but empty. Please update it in the admin settings panel.")
                   else Ok (apiKey, anthropic_base_url s)
               | Throw _ =>
                   Throw (JsError "Failed to decrypt API key. The encryption key may have changed. Please update the API key in the admin settings panel.")
               end
             else Throw (JsError "Anthropic API key not configured in database. Please configure it in the admin settings panel.")
         | None =>
             Throw (JsError "Anthropic API key not configured in database. Please configure it in the admin settings panel.")
         end
     end).
Proof.
  unfold SettingsModel.getAnthropicConfig, op_try, op_bind, SettingsModel.get,
    SettingsModel.report_missing_key.
  destruct (settings_row st) as [s|] eqn:Hrow; [|reflexivity].
  destruct (anthropic_api_key s) as [sealed|] eqn:Hkey;
    [|cbn; rewrite Hrow, Hkey; reflexivity].
  destruct sealed as [|c sealed]; cbn [truthy andb];
    [cbn; rewrite Hrow, Hkey; reflexivity|].
  destruct (decrypt C (String c sealed) (encryption_key s)) as [apiKey|e];
    [|reflexivity].
  cbn [sv_anthropic_api_key sv_anthropic_base_url].
  destruct apiKey as [|a apiKey].
  - cbn. rewrite Hrow, Hkey. reflexivity.
  - cbn [truthy negb orb].
    destruct (Nat.eqb (String.length (trim (String a apiKey))) 0); [|reflexivity].
    rewrite Hrow, Hkey. reflexivity.
Qed.

Lemma op_keeps_bind {A B} (P : SettingsStore -> Prop) (m : Op A) (k : A -> Op B) :
  op_keeps P m -> (forall a, op_keeps P (k a)) -> op_keeps P (op_bind m k).
Proof.
  intros Hm Hk st Hst. unfold op_bind. specialize (Hm st Hst).
  destruct (m st) as [st' [a|e]]; [now apply Hk|exact Hm].
Qed.

Lemma op_keeps_try {A} (P : SettingsStore -> Prop) (m : Op A) (h : thrown -> Op A) :
  op_keeps P m -> (forall e, op_keeps P (h e)) -> op_keeps P (op_try m h).
Proof.
  intros Hm Hh st Hst. unfold op_try. specialize (Hm st Hst).
  destruct (m st) as [st' [a|e]]; [exact Hm|now apply Hh].
Qed.

Lemma op_keeps_ret {A} (P : SettingsStore -> Prop) (a : A) : op_keeps P (op_ret a).
Proof. intros st Hst. exact Hst. Qed.

Lemma op_keeps_throw {A} (P : SettingsStore -> Prop) (e : thrown) :
  op_keeps P (@op_throw A e).
Proof. intros st Hst. exact Hst. Qed.

Lemma valid_get (C : Crypto) (b : bool) : op_keeps store_valid (SettingsModel.get C b).
Proof.
  intros st Hst. unfold SettingsModel.get.
  destruct (settings_row st) as [s|]; [|exact Hst].
  match goal with
  | |- store_valid (fst (match ?d with _ => _ end)) => destruct d
  end; exact Hst.
Qed.

Lemma valid_encrypt (C : Crypto) (text key : string) :
  op_keeps store_valid (encrypt C text key).
Proof.
  intros st Hst. unfold encrypt.
  destruct (String.eqb text ""); exact Hst.
Qed.

Lemma valid_encrypt_if_set (C : Crypto) (apiKey : option string) (key : string) :
  op_keeps store_valid (SettingsModel.encrypt_if_set C apiKey key).
Proof.
  unfold SettingsModel.encrypt_if_set. destruct apiKey as [text|];
    [|apply op_keeps_ret].
  destruct (truthy (Some text)); [|apply op_keeps_ret].
  apply op_keeps_bind; [apply valid_encrypt|intros a; apply op_keeps_ret].
Qed.

Lemma valid_update_row (change : nat -> Settings -> Settings) :
  (forall now s, settings_valid s -> settings_valid (change now s)) ->
  op_keeps store_valid (update_row change).
Proof.
  intros Hc st Hst s' Hrow. cbn in Hrow.
  destruct (settings_row st) as [s|] eqn:Hs; [|discriminate].
  injection Hrow as <-. apply Hc. now apply Hst.
Qed.

Lemma valid_set_anthropic_api_key (apiKey : option string) (now : nat) (s : Settings) :
  settings_valid s -> settings_valid (set_anthropic_api_key apiKey now s).
Proof. intros H. exact H. Qed.

Lemma valid_set_encryption_key (key : string) (apiKey : option string) (now : nat)
    (s : Settings) :
  32 <= String.length key ->
  settings_valid s -> settings_valid (set_encryption_key key apiKey now s).
Proof. intros Hlen [_ Ht]. split; [exact Hlen|exact Ht]. Qed.

Lemma valid_updateClaudeCodeMaxOutputTokens (maxTokens : option QArith_base.Q) :
  op_keeps store_valid (SettingsModel.updateClaudeCodeMaxOutputTokens maxTokens).
Proof.
  unfold SettingsModel.updateClaudeCodeMaxOutputTokens.
  destruct maxTokens as [n|].
  - destruct (tokens_out_of_range n) eqn:Hn; [apply op_keeps_throw|].
    apply valid_update_row. intros now s [Hk _]. split; [exact Hk|exact Hn].
  - apply valid_update_row. intros now s [Hk _]. split; [exact Hk|exact I].
Qed.

Lemma toHex_length (bytes : list Byte.byte) :
  String.length (toHex bytes) = 2 * List.length bytes.
Proof. induction bytes as [|b rest IH]; [reflexivity|]. cbn. rewrite IH. lia. Qed.

(** X22.  The model keeps the settings row acceptable: an encryption key
    of at least 32 characters and a token limit that is NULL or between 1
    and 1000000.  Every update keeps that, whether it returns or throws
    half-way; [regenerateEncryptionKey] keeps it provided
    [crypto.randomBytes(32)] yields at least 16 bytes. *)
Theorem settings_stay_valid (C : Crypto) :
  (forall updates, op_keeps store_valid (SettingsModel.update C updates))
  /\ (forall key, op_keeps store_valid (SettingsModel.updateEncryptionKey C key))
  /\ (forall apiKey, op_keeps store_valid (SettingsModel.updateAnthropicApiKey C apiKey))
  /\ (forall baseUrl, op_keeps store_valid (SettingsModel.updateAnthropicBaseUrl baseUrl))
  /\ (forall maxTokens,
        op_keeps store_valid (SettingsModel.updateClaudeCodeMaxOutputTokens maxTokens))
  /\ (forall st,
        store_valid st ->
        16 <= List.length (cr_randomBytes C (random_calls st) 32) ->
        store_valid (fst (SettingsModel.regenerateEncryptionKey C st))).
Proof.
  assert (Hurl : forall baseUrl,
            op_keeps store_valid (SettingsModel.updateAnthropicBaseUrl baseUrl)).
  { intros baseUrl. apply valid_update_row. intros now s H. exact H. }
  assert (Hapi : forall sealed,
            op_keeps store_valid (update_row (set_anthropic_api_key sealed))).
  { intros sealed. apply valid_update_row. intros now s H. exact H. }
  split; [|split; [|split; [|split; [|split]]]].
  - intros updates. unfold SettingsModel.update.
    apply op_keeps_bind; [apply valid_get|intros currentSettings].
    apply op_keeps_bind; [|intros _].
    { destruct (up_encryption_key updates) as [newKey|]; [|apply op_keeps_ret].
      destruct (truthy (Some newKey)); [|apply op_keeps_ret].
      destruct (Nat.ltb (String.length newKey) 32) eqn:Hlen; [apply op_keeps_throw|].
      apply Nat.ltb_ge in Hlen.
      apply op_keeps_bind; [|intros currentApiKey].
      { destruct (sv_anthropic_api_key currentSettings) as [stored|];
          [|apply op_keeps_ret].
        destruct (truthy (Some stored)); [|apply op_keeps_ret].
        intros st Hst. now destruct (decrypt C stored _). }
      apply op_keeps_bind; [|intros _].
      { apply valid_update_row. intros now s. now apply valid_set_encryption_key. }
      destruct currentApiKey as [apiKey|]; [|apply op_keeps_ret].
      destruct (truthy (Some apiKey)); [|apply op_keeps_ret].
      apply op_keeps_bind; [apply valid_encrypt|intros sealed; apply Hapi]. }
    apply op_keeps_bind; [|intros _].
    { destruct (up_anthropic_api_key updates) as [apiKey|]; [|apply op_keeps_ret].
      destruct (Nat.eqb (String.length (trim apiKey)) 0); [apply op_keeps_throw|].
      apply op_keeps_bind; [apply valid_get|intros current].
      apply op_keeps_bind; [apply valid_encrypt|intros sealed].
      apply op_keeps_bind; [apply Hapi|intros _].
      intros st Hst. destruct (settings_row st) as [verify|]; [|exact Hst].
      now destruct (truthy (anthropic_api_key verify)). }
    apply op_keeps_bind; [|intros _].
    { destruct (up_anthropic_base_url updates); [apply Hurl|apply op_keeps_ret]. }
    apply op_keeps_bind; [|intros _; apply valid_get].
    destruct (up_claude_code_max_output_tokens updates);
      [apply valid_updateClaudeCodeMaxOutputTokens|apply op_keeps_ret].
  - intros key. unfold SettingsModel.updateEncryptionKey.
    destruct (negb (truthy (Some key)) || Nat.ltb (String.length key) 32) eqn:Hbad;
      [apply op_keeps_throw|].
    apply orb_false_iff in Hbad as [_ Hlen]. apply Nat.ltb_ge in Hlen.
    apply op_keeps_bind; [apply valid_get|intros current].
    apply op_keeps_bind; [apply valid_encrypt_if_set|intros sealed].
    apply valid_update_row. intros now s. now apply valid_set_encryption_key.
  - intros apiKey. unfold SettingsModel.updateAnthropicApiKey.
    apply op_keeps_bind; [apply valid_get|intros current].
    apply op_keeps_bind; [apply valid_encrypt|intros sealed; apply Hapi].
  - exact Hurl.
  - apply valid_updateClaudeCodeMaxOutputTokens.
  - intros st Hst Hbytes. unfold SettingsModel.regenerateEncryptionKey.
    unfold op_bind at 1. cbn [randomBytes].
    set (st1 := {| settings_row := settings_row st; settings_clock := settings_clock st;
                   random_calls := S (random_calls st) |}).
    assert (H1 : store_valid st1) by exact Hst.
    revert H1. generalize st1. clear st1.
    change (op_keeps store_valid
      (currentSettings <- SettingsModel.get C false ;;
       encryptedApiKey <-
         (if truthy (sv_anthropic_api_key currentSettings) then
            op_try
              (settingsWithKey <- SettingsModel.get C true ;;
               SettingsModel.encrypt_if_set C (sv_anthropic_api_key settingsWithKey)
                 (toHex (cr_randomBytes C (random_calls st) 32)))
              (fun _ =>
                 op_throw (JsError "Failed to re-encrypt API key. The existing API key may be corrupted or the encryption key may have changed."))
          else op_ret None) ;;
       update_row (set_encryption_key (toHex (cr_randomBytes C (random_calls st) 32))
                     encryptedApiKey) ;;
       op_ret (toHex (cr_randomBytes C (random_calls st) 32)))%settings).
    apply op_keeps_bind; [apply valid_get|intros current].
    apply op_keeps_bind; [|intros sealed].
    { destruct (truthy (sv_anthropic_api_key current)); [|apply op_keeps_ret].
      apply op_keeps_try; [|intros e; apply op_keeps_throw].
      apply op_keeps_bind; [apply valid_get|intros withKey].
      apply valid_encrypt_if_set. }
    apply op_keeps_bind; [|intros _; apply op_keeps_ret].
    apply valid_update_row. intros now s. apply valid_set_encryption_key.
    rewrite toHex_length. lia.
Qed.

(* --------------------------------------------------------------------- *)
(** ** What extractZip does guarantee                                     *)
(* --------------------------------------------------------------------- *)

(** Whatever holds of the entries written so far, and of every entry that
    passes the two tests of the ['entry'] handler, holds of all the entries
    written in the end. *)
Lemma extract_entries_written_all (P : string * string -> Prop) (extractTo : string)
    (entries : list Entry) :
  (forall entry,
     In entry entries ->
     is_directory_entry (fileName entry) = false ->
     startsWith (normalize (path_join [extractTo; fileName entry]))
                (normalize extractTo) = true ->
     P (fileName entry, normalize (path_join [extractTo; fileName entry]))) ->
  forall fs written,
    Forall P written ->
    Forall P (snd (extract_entries extractTo entries fs written)).
Proof.
  induction entries as [|entry rest IH]; intros Hp fs written Hw; simpl; [exact Hw|].
  assert (Hrest : forall e, In e rest ->
            is_directory_entry (fileName e) = false ->
            startsWith (normalize (path_join [extractTo; fileName e]))
                       (normalize extractTo) = true ->
            P (fileName e, normalize (path_join [extractTo; fileName e]))).
  { intros e He. apply Hp. now right. }
  destruct (is_directory_entry (fileName entry)) eqn:Hd; [now apply IH|].
  destruct (startsWith (normalize (path_join [extractTo; fileName entry]))
                       (normalize extractTo)) eqn:Hs; simpl; [|now apply IH].
  destruct (if existsSync fs (dirname (normalize (path_join [extractTo; fileName entry])))
            then Ok fs
            else mkdirSync (dirname (normalize (path_join [extractTo; fileName entry]))) fs)
    as [fs1|e]; simpl; [|exact Hw].
  destruct (readOutcome entry) as [e| |data [e|]]; simpl;
    [exact Hw|now apply IH|exact Hw|].
  destruct (bool_decide _); simpl; [exact Hw|].
  apply IH; [exact Hrest|]. apply Forall_app. split; [exact Hw|].
  constructor; [|constructor]. apply Hp; [now left|exact Hd|exact Hs].
Qed.

Lemma startsWith_inside_dir (dir p : string) :
  endsWith_slash dir = true -> startsWith p dir = true -> inside_dir dir p = true.
Proof.
  intros Hslash Hp. unfold inside_dir. rewrite Hslash, Hp. apply orb_true_r.
Qed.

(** X23.  What the guard of [extractZip] does ensure.  An entry is written
    only if its name does not end in a slash, and then to the normalized
    join of the destination and that name, which has the normalized
    destination as a string prefix.  When the normalized destination ends in
    a separator, that prefix is a directory prefix, and everything written
    lies inside the destination. *)
Theorem extractZip_writes_under_the_prefix
    (opened : OpenOutcome) (extractTo : string) (fs : FileSys) :
  let written := snd (extractZip opened extractTo fs) in
  Forall (fun w =>
            is_directory_entry (fst w) = false
            /\ snd w = normalize (path_join [extractTo; fst w])
            /\ startsWith (snd w) (normalize extractTo) = true) written
  /\ (endsWith_slash (normalize extractTo) = true ->
      Forall (fun w => inside_dir (normalize extractTo) (snd w) = true) written).
Proof.
  cbv zeta.
  assert (Hall : Forall (fun w =>
            is_directory_entry (fst w) = false
            /\ snd w = normalize (path_join [extractTo; fst w])
            /\ startsWith (snd w) (normalize extractTo) = true)
            (snd (extractZip opened extractTo fs))).
  { unfold extractZip. destruct opened as [e| |entries]; simpl; try constructor.
    destruct (if existsSync fs extractTo then Ok fs else mkdirSync extractTo fs)
      as [fs1|e]; simpl; [|constructor].
    apply extract_entries_written_all; [|constructor].
    intros entry _ Hd Hs. simpl. now repeat split. }
  split; [exact Hall|].
  intros Hslash. eapply List.Forall_impl; [|exact Hall].
  intros w (_ & _ & Hs). now apply startsWith_inside_dir.
Qed.

(* --------------------------------------------------------------------- *)
(** ** Where the repository directory lies                                *)
(* --------------------------------------------------------------------- *)

Lemma string_append_cons (c : ascii) (s t : string) : String c s ++ t = String c (s ++ t).
Proof. reflexivity. Qed.

Lemma string_append_assoc (a b c : string) : (a ++ b) ++ c = a ++ b ++ c.
Proof.
  induction a as [|x a IH]; [reflexivity|].
  rewrite !string_append_cons. now rewrite IH.
Qed.

Lemma string_length_append (a b : string) :
  String.length (a ++ b) = String.length a + String.length b.
Proof.
  induction a as [|x a IH]; [reflexivity|].
  rewrite string_append_cons. cbn [String.length]. now rewrite IH.
Qed.

Lemma list_ascii_of_string_append (a b : string) :
  list_ascii_of_string (a ++ b)
  = (list_ascii_of_string a ++ list_ascii_of_string b)%list.
Proof.
  induction a as [|x a IH]; [reflexivity|].
  rewrite string_append_cons. cbn [list_ascii_of_string]. now rewrite IH.
Qed.

Lemma startsWith_append (a b : string) : startsWith (a ++ b) a = true.
Proof.
  induction a as [|x a IH]; [now destruct b|].
  rewrite string_append_cons. cbn [startsWith]. now rewrite Ascii.eqb_refl.
Qed.

Lemma startsWith_root (s : string) : startsWith (String "/" s) "/" = true.
Proof. now destruct s. Qed.

Lemma startsWith_length (s p : string) :
  startsWith s p = true -> String.length p <= String.length s.
Proof.
  revert s. induction p as [|b p IH]; intros s; [cbn; lia|].
  destruct s as [|a s]; [discriminate|]. cbn [startsWith String.length].
  destruct (Ascii.eqb a b); [|discriminate]. intros H. apply IH in H. lia.
Qed.

Lemma endsWith_slash_append (s n : string) :
  n <> "" -> endsWith_slash (s ++ n) = endsWith_slash n.
Proof.
  intros Hn. unfold endsWith_slash. rewrite list_ascii_of_string_append, rev_app_distr.
  destruct n as [|c n]; [congruence|]. cbn [list_ascii_of_string].
  destruct (rev (c :: list_ascii_of_string n)) as [|x l] eqn:Hrev; [|reflexivity].
  apply (f_equal (@List.length ascii)) in Hrev. rewrite length_rev in Hrev. discriminate.
Qed.

Lemma no_slash_endsWith (n : string) : no_slash n = true -> endsWith_slash n = false.
Proof.
  intros H. unfold endsWith_slash.
  assert (Hall : Forall (fun c => Ascii.eqb c "/" = false) (list_ascii_of_string n)).
  { induction n as [|c n IH]; [constructor|]. cbn in H.
    apply andb_true_iff in H as [Hc Hn]. constructor; [|now apply IH].
    now apply negb_true_iff. }
  apply List.Forall_rev in Hall.
  destruct (rev (list_ascii_of_string n)) as [|x l]; [reflexivity|].
  now inversion Hall.
Qed.

Lemma split_on_no_slash (s : string) : no_slash s = true -> split_on "/" s = [s].
Proof.
  induction s as [|c s IH]; [reflexivity|]. cbn [no_slash split_on]. intros H.
  apply andb_true_iff in H as [Hc Hs]. apply negb_true_iff in Hc.
  rewrite Hc, (IH Hs). reflexivity.
Qed.

Lemma split_on_segment (s t : string) :
  no_slash s = true -> split_on "/" (s ++ String "/" t) = s :: split_on "/" t.
Proof.
  induction s as [|c s IH]; [reflexivity|]. cbn [no_slash]. intros H.
  apply andb_true_iff in H as [Hc Hs]. apply negb_true_iff in Hc.
  rewrite string_append_cons. cbn [split_on]. rewrite Hc, (IH Hs). reflexivity.
Qed.

Lemma join_cons (sep a : string) (l : list string) :
  l <> [] -> join sep (a :: l) = a ++ sep ++ join sep l.
Proof. destruct l; [intros H; congruence|reflexivity]. Qed.

Lemma split_on_join (segs : list string) :
  segs <> [] -> forallb no_slash segs = true -> split_on "/" (join "/" segs) = segs.
Proof.
  induction segs as [|a segs IH]; [intros H; congruence|]. intros _ Hall.
  cbn [forallb] in Hall. apply andb_true_iff in Hall as [Ha Hrest].
  destruct segs as [|b segs]; [now apply split_on_no_slash|].
  rewrite join_cons by discriminate.
  change ("/" ++ join "/" (b :: segs)) with (String "/" (join "/" (b :: segs))).
  rewrite (split_on_segment _ _ Ha). f_equal. now apply IH.
Qed.

Lemma join_snoc (segs : list string) (n : string) :
  segs <> [] -> join "/" (segs ++ [n]) = join "/" segs ++ "/" ++ n.
Proof.
  induction segs as [|a segs IH]; [intros H; congruence|]. intros _.
  destruct segs as [|b segs]; [reflexivity|].
  change ((a :: b :: segs) ++ [n])%list with (a :: ((b :: segs) ++ [n]))%list.
  rewrite (join_cons "/" a ((b :: segs) ++ [n])) by discriminate.
  rewrite IH by discriminate. rewrite (join_cons "/" a (b :: segs)) by discriminate.
  now rewrite !string_append_assoc.
Qed.

Lemma plain_segment_spec (s : string) :
  plain_segment s = true ->
  no_slash s = true /\ String.eqb s "" = false /\ String.eqb s "." = false
  /\ String.eqb s ".." = false.
Proof.
  unfold plain_segment. intros H.
  apply andb_true_iff in H as [H H4]. apply andb_true_iff in H as [H H3].
  apply andb_true_iff in H as [H1 H2].
  now rewrite (proj1 (negb_true_iff _) H2), (proj1 (negb_true_iff _) H3),
    (proj1 (negb_true_iff _) H4).
Qed.

(** Plain segments are pushed on the stack of [normalizeString]. *)
Lemma norm_segs_plain (above : bool) (segs stack rest : list string) :
  forallb plain_segment segs = true ->
  norm_segs above stack (segs ++ rest) = norm_segs above (rev segs ++ stack) rest.
Proof.
  revert stack. induction segs as [|a segs IH]; intros stack Hall; [reflexivity|].
  cbn [forallb] in Hall. apply andb_true_iff in Hall as [Ha Hrest].
  destruct (plain_segment_spec a Ha) as (_ & H1 & H2 & H3).
  change ((a :: segs) ++ rest)%list with (a :: (segs ++ rest))%list.
  cbn [norm_segs]. rewrite H1, H2, H3. cbn [orb].
  rewrite (IH (a :: stack) Hrest). cbn [rev]. now rewrite <- app_assoc.
Qed.

Lemma norm_segs_skip_empty (above : bool) (stack rest : list string) :
  norm_segs above stack ("" :: rest) = norm_segs above stack rest.
Proof. reflexivity. Qed.

Lemma forallb_plain_no_slash (segs : list string) :
  forallb plain_segment segs = true -> forallb no_slash segs = true.
Proof.
  induction segs as [|a segs IH]; [reflexivity|]. cbn [forallb]. intros H.
  apply andb_true_iff in H as [Ha Hrest].
  rewrite (proj1 (plain_segment_spec a Ha)). now apply IH.
Qed.

(** [path.normalize] of an absolute path whose segments are plain, followed
    by one more segment [n] without a separator. *)
Lemma normalize_absolute_snoc (segs : list string) (n : string) :
  segs <> [] -> forallb plain_segment segs = true ->
  no_slash n = true -> n <> "" ->
  normalize (absolute_path segs ++ "/" ++ n)
  = (let body := join "/" (norm_segs false (rev segs) [n]) in
     if String.eqb body "" then "/" else "/" ++ body).
Proof.
  intros Hne Hplain Hn Hn0. unfold absolute_path.
  assert (Hp : ("/" ++ join "/" segs) ++ "/" ++ n = String "/" (join "/" (segs ++ [n]))).
  { rewrite join_snoc by exact Hne. now rewrite string_append_assoc. }
  rewrite Hp. unfold normalize. cbv iota.
  rewrite startsWith_root. cbv iota. cbn [negb].
  assert (Hslash : endsWith_slash (String "/" (join "/" (segs ++ [n]))) = false).
  { rewrite <- Hp. rewrite <- string_append_assoc.
    rewrite endsWith_slash_append by exact Hn0. now apply no_slash_endsWith. }
  rewrite Hslash.
  assert (Hsplit : split_on "/" (String "/" (join "/" (segs ++ [n])))
                   = "" :: (segs ++ [n])%list).
  { change (String "/" ?s) with ("" ++ String "/" s).
    rewrite split_on_segment by reflexivity. f_equal.
    apply split_on_join; [destruct segs; discriminate|].
    rewrite forallb_app. cbn. rewrite Hn.
    now rewrite (forallb_plain_no_slash segs Hplain). }
  rewrite Hsplit. rewrite norm_segs_skip_empty.
  rewrite (norm_segs_plain false segs [] [n] Hplain). rewrite app_nil_r.
  destruct (String.eqb (join "/" (norm_segs false (rev segs) [n])) "");
    [reflexivity|].
  now rewrite append_empty_r.
Qed.

Lemma append_char_not_empty (s t : string) (c : ascii) :
  String.eqb (s ++ String c t) "" = false.
Proof. now destruct s. Qed.

Lemma join_plain_not_empty (segs : list string) :
  segs <> [] -> forallb plain_segment segs = true ->
  String.eqb (join "/" segs) "" = false.
Proof.
  destruct segs as [|a segs]; [intros H; congruence|]. intros _ Hall.
  cbn [forallb] in Hall. apply andb_true_iff in Hall as [Ha _].
  destruct (plain_segment_spec a Ha) as (_ & Hne & _).
  destruct segs as [|b segs]; [exact Hne|].
  rewrite join_cons by discriminate.
  change ("/" ++ join "/" (b :: segs)) with (String "/" (join "/" (b :: segs))).
  apply append_char_not_empty.
Qed.

Lemma name_chars_no_slash (s : string) :
  Forall (fun c => is_name_char c = true) (list_ascii_of_string s) -> no_slash s = true.
Proof.
  induction s as [|c s IH]; [reflexivity|]. cbn [list_ascii_of_string no_slash].
  intros H. inversion H as [|? ? Hc Hs]; subst. rewrite (IH Hs), andb_true_r.
  apply negb_true_iff. destruct (Ascii.eqb c "/") eqn:Heq; [|reflexivity].
  apply Ascii.eqb_eq in Heq. subst c. discriminate Hc.
Qed.

Lemma absolute_path_no_trailing_slash (segs : list string) :
  segs <> [] -> forallb plain_segment segs = true ->
  endsWith_slash (absolute_path segs) = false.
Proof.
  intros Hne Hall. unfold absolute_path.
  destruct (exists_last Hne) as (init & lastSeg & ->).
  rewrite forallb_app in Hall. apply andb_true_iff in Hall as [_ Hl].
  cbn [forallb] in Hl. rewrite andb_true_r in Hl.
  destruct (plain_segment_spec lastSeg Hl) as (Hns & Hne' & _).
  apply String.eqb_neq in Hne'.
  destruct init as [|a init].
  - cbn [app join]. rewrite endsWith_slash_append by exact Hne'.
    now apply no_slash_endsWith.
  - rewrite join_snoc by discriminate. rewrite <- !string_append_assoc.
    rewrite endsWith_slash_append by exact Hne'. now apply no_slash_endsWith.
Qed.

Lemma join_removelast_shorter (segs : list string) :
  segs <> [] -> forallb plain_segment segs = true ->
  String.length (join "/" (removelast segs)) < String.length (join "/" segs).
Proof.
  intros Hne Hall. destruct (exists_last Hne) as (init & lastSeg & ->).
  rewrite removelast_last.
  rewrite forallb_app in Hall. apply andb_true_iff in Hall as [_ Hl].
  cbn [forallb] in Hl. rewrite andb_true_r in Hl.
  destruct (plain_segment_spec lastSeg Hl) as (_ & Hne' & _).
  assert (0 < String.length lastSeg) by (destruct lastSeg; [discriminate|cbn; lia]).
  destruct init as [|a init].
  - cbn [app join String.length]. lia.
  - rewrite join_snoc by discriminate. rewrite !string_length_append. lia.
Qed.

(** X24.  The repository directory is the job's work directory joined with
    the sanitized name.  For every sanitized name but two it is the child of
    the work directory of that name.  The sanitized names ['.'] and ['..'],
    which the sanitizer lets through, give the work directory itself and its
    parent: with ['..'] the sources are copied next to the directories of
    the other jobs. *)
Theorem repoDir_leaves_the_workDir_for_dot_names (segs : list string) (name : string) :
  segs <> [] -> forallb plain_segment segs = true ->
  let workDir := absolute_path segs in
  let repoName := sanitizeRepoName name in
  let repoDir := path_join [workDir; repoName] in
  (if String.eqb repoName "." then repoDir = workDir
   else if String.eqb repoName ".." then
     repoDir = absolute_path (removelast segs) /\ inside_dir workDir repoDir = false
   else
     repoDir = workDir ++ "/" ++ repoName
     /\ inside_dir workDir repoDir = true /\ repoDir <> workDir)
  /\ sanitizeRepoName "." = "." /\ sanitizeRepoName ".." = "..".
Proof.
  intros Hne Hplain. cbv zeta. split; [|split; reflexivity].
  set (n := sanitizeRepoName name).
  assert (Hn0 : n <> "") by apply sanitizeRepoName_nonempty.
  assert (Hns : no_slash n = true)
    by (apply name_chars_no_slash, sanitizeRepoName_allowed).
  assert (Hjoin : path_join [absolute_path segs; n]
                  = normalize (absolute_path segs ++ "/" ++ n)).
  { unfold path_join, absolute_path. cbn [List.filter].
    change (String.eqb ("/" ++ join "/" segs) "") with false. cbn [negb].
    apply String.eqb_neq in Hn0. rewrite Hn0. reflexivity. }
  rewrite Hjoin, (normalize_absolute_snoc segs n Hne Hplain Hns Hn0). cbv zeta.
  pose proof (absolute_path_no_trailing_slash segs Hne Hplain) as Hslash.
  destruct (String.eqb n ".") eqn:Hdot; [|destruct (String.eqb n "..") eqn:Hdots].
  - apply String.eqb_eq in Hdot. rewrite Hdot. cbn [norm_segs].
    change (String.eqb "." "" || String.eqb "." ".") with true. cbv iota.
    rewrite rev_involutive, (join_plain_not_empty segs Hne Hplain). reflexivity.
  - apply String.eqb_eq in Hdots. rewrite Hdots. cbn [norm_segs].
    change (String.eqb ".." "" || String.eqb ".." ".") with false.
    change (String.eqb ".." "..") with true. cbv iota.
    destruct (exists_last Hne) as (init & lastSeg & Hsegs).
    assert (Hlast : plain_segment lastSeg = true).
    { rewrite Hsegs, forallb_app in Hplain. apply andb_true_iff in Hplain as [_ Hl].
      cbn [forallb] in Hl. now rewrite andb_true_r in Hl. }
    destruct (plain_segment_spec lastSeg Hlast) as (_ & _ & _ & Hnd).
    assert (Hbody : match rev segs with
                    | [] => rev []
                    | top :: stack' =>
                        if String.eqb top ".." then rev (".." :: rev segs) else rev stack'
                    end = removelast segs).
    { rewrite Hsegs, rev_app_distr. cbn [rev app]. rewrite Hnd.
      now rewrite rev_involutive, removelast_last. }
    rewrite Hbody.
    assert (Hres : (if String.eqb (join "/" (removelast segs)) "" then "/"
                    else "/" ++ join "/" (removelast segs))
                   = absolute_path (removelast segs)).
    { unfold absolute_path.
      destruct (String.eqb (join "/" (removelast segs)) "") eqn:He; [|reflexivity].
      apply String.eqb_eq in He. now rewrite He. }
    rewrite Hres. split; [reflexivity|].
    unfold inside_dir. rewrite Hslash.
    pose proof (join_removelast_shorter segs Hne Hplain) as Hlen.
    apply orb_false_iff. split.
    + apply String.eqb_neq. intros Heq. unfold absolute_path in Heq.
      apply (f_equal String.length) in Heq. rewrite !string_length_append in Heq. lia.
    + destruct (startsWith (absolute_path (removelast segs)) (absolute_path segs ++ "/"))
        eqn:Hs; [|reflexivity].
      apply startsWith_length in Hs. unfold absolute_path in Hs.
      rewrite !string_length_append in Hs. lia.
  - assert (Hpl : norm_segs false (rev segs) [n] = (segs ++ [n])%list).
    { cbn [norm_segs]. apply String.eqb_neq in Hn0. rewrite Hn0, Hdot, Hdots.
      cbn [orb rev]. now rewrite rev_involutive. }
    rewrite Hpl, join_snoc by exact Hne.
    change ("/" ++ n) with (String "/" n). rewrite append_char_not_empty.
    assert (Heq : "/" ++ join "/" segs ++ String "/" n
                  = absolute_path segs ++ "/" ++ n).
    { unfold absolute_path. now rewrite string_append_assoc. }
    rewrite Heq. split; [reflexivity|]. split.
    + unfold inside_dir. rewrite Hslash. rewrite <- string_append_assoc.
      rewrite startsWith_append. apply orb_true_r.
    + intros H. apply (f_equal String.length) in H.
      rewrite !string_length_append in H. cbn in H. lia.
Qed.

Lemma repoDir_leaves_the_workDir_for_dot_names_witness :
  ["app"; "backend"; "work_dir"; "job-1"] <> []
  /\ forallb plain_segment ["app"; "backend"; "work_dir"; "job-1"] = true
  /\ path_join ["/app/backend/work_dir/job-1"; sanitizeRepoName ".."]
     = "/app/backend/work_dir"
  /\ inside_dir "/app/backend/work_dir/job-1"
       (path_join ["/app/backend/work_dir/job-1"; sanitizeRepoName ".."]) = false.
Proof.
  split; [discriminate|]. split; [reflexivity|].
  exact (proj1 (repoDir_leaves_the_workDir_for_dot_names
                  ["app"; "backend"; "work_dir"; "job-1"] ".."
                  ltac:(discriminate) eq_refl)).
Defined.

(** The name ['..'] is within reach of an upload: an archive with several
    top-level entries, sent under the file name [...zip]. *)
Example workspace_repo_name_can_be_dot_dot :
  workspaceRepoName "/app/backend" true
    [mkDirEnt "src" (Some KDirectory); mkDirEnt "README.md" (Some KFile)]
    NoManifest NoGitDir sample_zip sample_extracted (Some "...zip")
  = Ok "..".
Proof. reflexivity. Qed.

(* --------------------------------------------------------------------- *)
(** ** The cost read from the agent's output                              *)
(* --------------------------------------------------------------------- *)

Lemma take_amount_chars (s : string) :
  Forall (fun c => amount_char c = true) (list_ascii_of_string (take_amount s)).
Proof.
  induction s as [|c s IH]; [constructor|]. cbn [take_amount].
  destruct ((Nat.leb 48 (code c) && Nat.leb (code c) 57) || Nat.eqb (code c) 46) eqn:Hc;
    [|constructor].
  cbn [list_ascii_of_string]. constructor; [exact Hc|exact IH].
Qed.

Lemma cost_here_spec (s amount : string) :
  cost_here s = Some amount ->
  startsWith (toLowerCase s) "cost:" = true
  /\ exists digits,
       amount = String "$" digits /\ digits <> ""
       /\ Forall (fun c => amount_char c = true) (list_ascii_of_string digits).
Proof.
  unfold cost_here. destruct (startsWith (toLowerCase s) "cost:"); [|discriminate].
  destruct (skip_spaces (drop_chars 5 s)) as [|c rest]; [discriminate|].
  destruct (Ascii.eqb c "$"); [|discriminate].
  pose proof (take_amount_chars rest) as Hchars.
  destruct (take_amount rest) as [|d digits]; [discriminate|].
  intros H. injection H as <-. split; [reflexivity|].
  exists (String d digits). now repeat split.
Qed.

Lemma includes_here (s sub : string) : startsWith s sub = true -> includes s sub = true.
Proof. intros H. destruct s; cbn [includes]; now rewrite H. Qed.

Lemma includes_later (c : ascii) (s sub : string) :
  includes s sub = true -> includes (String c s) sub = true.
Proof. intros H. cbn [includes]. rewrite H. apply orb_true_r. Qed.

Lemma match_cost_spec (line amount : string) :
  match_cost line = Some amount ->
  includes (toLowerCase line) "cost:" = true
  /\ exists digits,
       amount = String "$" digits /\ digits <> ""
       /\ Forall (fun c => amount_char c = true) (list_ascii_of_string digits).
Proof.
  induction line as [|c line IH]; cbn [match_cost].
  - destruct (cost_here "") eqn:Hc; [|discriminate].
    intros H. injection H as <-. apply cost_here_spec in Hc as [Hs Hd].
    split; [now apply includes_here|exact Hd].
  - destruct (cost_here (String c line)) eqn:Hc.
    + intros H. injection H as <-. apply cost_here_spec in Hc as [Hs Hd].
      split; [now apply includes_here|exact Hd].
    + intros H. apply IH in H as [Hi Hd]. split; [|exact Hd].
      cbn [toLowerCase]. now apply includes_later.
Qed.

Lemma match_cost_none (line : string) :
  includes (toLowerCase line) "cost:" = false -> match_cost line = None.
Proof.
  intros H. destruct (match_cost line) as [amount|] eqn:Hm; [|reflexivity].
  apply match_cost_spec in Hm as [Hi _]. congruence.
Qed.

(** X25.  The API cost recorded for a run, when there is one, is a dollar
    sign followed by at least one character, all of them digits or dots,
    and it is read from the last line of the captured output that carries
    such an amount after 'cost:' (in any letter case); when no line of the
    output contains 'cost:', no cost is recorded. *)
Theorem parse_cost_is_a_dollar_amount (capturedOutput : string) :
  match parse_cost capturedOutput with
  | Some cost =>
      exists digits before line after,
        cost = String "$" digits /\ digits <> ""
        /\ Forall (fun c => amount_char c = true) (list_ascii_of_string digits)
        /\ split_on newline capturedOutput = (before ++ line :: after)%list
        /\ match_cost line = Some cost
        /\ includes (toLowerCase line) "cost:" = true
        /\ Forall (fun later => match_cost later = None) after
  | None =>
      Forall (fun line => match_cost line = None) (split_on newline capturedOutput)
  end
  /\ (Forall (fun line => includes (toLowerCase line) "cost:" = false)
             (split_on newline capturedOutput) ->
      parse_cost capturedOutput = None).
Proof.
  unfold parse_cost.
  set (search := fix search (ls : list string) : option string :=
                   match ls with
                   | [] => None
                   | line :: rest =>
                       match match_cost line with
                       | Some amount => Some amount
                       | None => search rest
                       end
                   end).
  assert (Hsearch : forall ls,
            match search ls with
            | Some cost =>
                exists skipped line rest,
                  ls = (skipped ++ line :: rest)%list
                  /\ Forall (fun l => match_cost l = None) skipped
                  /\ match_cost line = Some cost
            | None => Forall (fun line => match_cost line = None) ls
            end).
  { induction ls as [|line rest IH]; [constructor|]. cbn [search].
    destruct (match_cost line) as [amount|] eqn:Hm.
    - exists [], line, rest. split; [reflexivity|]. split; [constructor|exact Hm].
    - destruct (search rest) as [cost|].
      + destruct IH as (skipped & l & rest' & -> & Hskip & Hl).
        exists (line :: skipped), l, rest'. split; [reflexivity|].
        split; [now constructor|exact Hl].
      + now constructor. }
  split.
  - specialize (Hsearch (rev (split_on newline capturedOutput))).
    destruct (search (rev (split_on newline capturedOutput))) as [cost|].
    + destruct Hsearch as (skipped & line & rest & Heq & Hskip & Hm).
      destruct (match_cost_spec line cost Hm) as [Hi (digits & Hc & Hne & Hall)].
      exists digits, (rev rest), line, (rev skipped).
      split; [exact Hc|]. split; [exact Hne|]. split; [exact Hall|].
      split; [|split; [exact Hm|split; [exact Hi|now apply List.Forall_rev]]].
      apply (f_equal (@rev string)) in Heq. rewrite rev_involutive in Heq.
      rewrite Heq, rev_app_distr. cbn [rev]. now rewrite <- app_assoc.
    + apply List.Forall_rev in Hsearch. now rewrite rev_involutive in Hsearch.
  - intros Hnone.
    specialize (Hsearch (rev (split_on newline capturedOutput))).
    destruct (search (rev (split_on newline capturedOutput))) as [cost|]; [|reflexivity].
    destruct Hsearch as (skipped & line & rest & Heq & _ & Hm).
    assert (Hin : In line (split_on newline capturedOutput)).
    { apply in_rev. rewrite Heq. apply in_or_app. right. now left. }
    rewrite List.Forall_forall in Hnone. specialize (Hnone line Hin).
    now rewrite (match_cost_none line Hnone) in Hm.
Qed.

(* --------------------------------------------------------------------- *)
(** ** The critical section of a run                                      *)
(* --------------------------------------------------------------------- *)

Lemma quiet_refl (w : World) : quiet_step w w.
Proof. split; [reflexivity|]. split; [reflexivity|]. exists []. now rewrite app_nil_r. Qed.

Lemma quiet_trans (w1 w2 w3 : World) :
  quiet_step w1 w2 -> quiet_step w2 w3 -> quiet_step w1 w3.
Proof.
  intros (Hc1 & Hm1 & l1 & Hl1) (Hc2 & Hm2 & l2 & Hl2).
  split; [congruence|]. split; [congruence|].
  exists (l1 ++ l2)%list. rewrite Hl2, Hl1. now rewrite app_assoc.
Qed.

Lemma relates_bind {A B} (R : World -> World -> Prop) (m : M A) (k : A -> M B) :
  (forall a b c, R a b -> R b c -> R a c) ->
  relates R m -> (forall a, relates R (k a)) -> relates R (bind m k).
Proof.
  intros Htrans Hm Hk w. unfold bind. specialize (Hm w).
  destruct (m w) as [w1 [a|e]]; cbn in *; [|exact Hm].
  exact (Htrans _ _ _ Hm (Hk a w1)).
Qed.

Lemma relates_try_catch {A} (R : World -> World -> Prop) (m : M A) (h : thrown -> M A) :
  (forall a b c, R a b -> R b c -> R a c) ->
  relates R m -> (forall e, relates R (h e)) -> relates R (try_catch m h).
Proof.
  intros Htrans Hm Hh w. unfold try_catch. specialize (Hm w).
  destruct (m w) as [w1 [a|e]]; cbn in *; [exact Hm|].
  exact (Htrans _ _ _ Hm (Hh e w1)).
Qed.

Lemma quiet_bind {A B} (m : M A) (k : A -> M B) :
  relates quiet_step m -> (forall a, relates quiet_step (k a)) ->
  relates quiet_step (bind m k).
Proof. apply relates_bind. exact quiet_trans. Qed.

Lemma quiet_try_catch {A} (m : M A) (h : thrown -> M A) :
  relates quiet_step m -> (forall e, relates quiet_step (h e)) ->
  relates quiet_step (try_catch m h).
Proof. apply relates_try_catch. exact quiet_trans. Qed.

Lemma quiet_same {A} (m : M A) : (forall w, fst (m w) = w) -> relates quiet_step m.
Proof. intros H w. rewrite H. apply quiet_refl. Qed.

Lemma quiet_modify (f : World -> World) :
  (forall w, quiet_step w (f w)) -> relates quiet_step (modify f).
Proof. intros H w. exact (H w). Qed.

Lemma quiet_when (b : bool) (m : M unit) :
  relates quiet_step m -> relates quiet_step (when_ b m).
Proof. intros H. destruct b; [exact H|]. now apply quiet_same. Qed.

Lemma quiet_warn (what : string) (e : thrown) : relates quiet_step (warn what e).
Proof.
  intros w. split; [reflexivity|]. split; [reflexivity|]. now eexists.
Qed.

Lemma quiet_attempt (what : string) (m : M unit) :
  relates quiet_step m -> relates quiet_step (attempt what m).
Proof. intros H. apply quiet_try_catch; [exact H|]. intros e. apply quiet_warn. Qed.

Lemma quiet_on_table {A}
    (stmt : nat -> gmap string ThreatModelingJob ->
            gmap string ThreatModelingJob * Result A) :
  relates quiet_step (on_table stmt).
Proof.
  intros w. unfold on_table. destruct (stmt (clock w) (jobs w)) as [t r]. cbn.
  split; [reflexivity|]. split; [reflexivity|]. exists []. now rewrite app_nil_r.
Qed.

Lemma quiet_fs_do (E : Env) (op : FsOp) :
  (forall p, op <> FsChdir p) -> relates quiet_step (fs_do E op).
Proof.
  intros Hop w. unfold fs_do. destruct (fs_failure E op w); cbn.
  - split; [reflexivity|]. split; [reflexivity|]. exists []. now rewrite app_nil_r.
  - destruct op; cbn; try (split; [reflexivity|]; split; [reflexivity|];
      exists []; now rewrite app_nil_r).
    now destruct (Hop p).
Qed.

Ltac quiet_field_tac :=
  let w := fresh "w" in
  intros w; split; [reflexivity|]; split; [reflexivity|];
  exists []; cbn; now rewrite app_nil_r.

(** One step of a proof that a computation is quiet. *)
Ltac quiet_tac :=
  lazymatch goal with
  | |- relates quiet_step (bind _ _) => apply quiet_bind; [|intros ?]
  | |- relates quiet_step (try_catch _ _) => apply quiet_try_catch; [|intros ?]
  | |- relates quiet_step (when_ _ _) => apply quiet_when
  | |- relates quiet_step (attempt _ _) => apply quiet_attempt
  | |- relates quiet_step (warn _ _) => apply quiet_warn
  | |- relates quiet_step (on_table _) => apply quiet_on_table
  | |- relates quiet_step (fs_do _ _) => apply quiet_fs_do; intros ?; discriminate
  | |- relates quiet_step (modify _) => apply quiet_modify; quiet_field_tac
  | |- relates quiet_step (ret _) => apply quiet_same; reflexivity
  | |- relates quiet_step (throw _) => apply quiet_same; reflexivity
  | |- relates quiet_step (lift _) => apply quiet_same; reflexivity
  | |- relates quiet_step (read _) => apply quiet_same; reflexivity
  | |- relates quiet_step (findJob _) => apply quiet_same; reflexivity
  | |- relates quiet_step (path_exists _) => apply quiet_same; reflexivity
  | |- relates quiet_step (match ?x with _ => _ end) => destruct x
  | |- relates quiet_step (let _ := _ in _) => cbv zeta
  end.

Lemma quiet_checkCancellation (jobId : string) :
  relates quiet_step (checkCancellation jobId).
Proof.
  apply quiet_same. intros w. unfold checkCancellation. now destruct (bool_decide _).
Qed.

Lemma quiet_findAgentRunPath (E : Env) : relates quiet_step (findAgentRunPath E).
Proof.
  apply quiet_same. intros w. unfold findAgentRunPath. now destruct (List.filter _ _).
Qed.

Lemma quiet_deleteRoute (E : Env) (id : string) (userId : nat) :
  relates quiet_step (deleteRoute E id userId).
Proof. unfold deleteRoute. repeat quiet_tac. Qed.

Lemma quiet_delete_request (E : Env) (jobId : string) (by_user : option nat) :
  relates quiet_step (delete_request E jobId by_user).
Proof.
  unfold delete_request. destruct by_user; [|now apply quiet_same].
  apply quiet_bind; [apply quiet_deleteRoute|intros ?; now apply quiet_same].
Qed.

Lemma quiet_ensure_dir (E : Env) (p : string) : relates quiet_step (ensure_dir E p).
Proof. unfold ensure_dir. repeat quiet_tac. Qed.

Lemma quiet_prepare (E : Env) (jobId a b c d : string) :
  relates quiet_step (prepare E jobId a b c d).
Proof.
  unfold prepare.
  repeat first [ apply quiet_checkCancellation | apply quiet_findAgentRunPath
               | apply quiet_ensure_dir | quiet_tac ].
Qed.

Lemma quiet_determineRepoName (E : Env) (u x z : option string) :
  relates quiet_step (determineRepoName E u x z).
Proof. now apply quiet_same. Qed.

Lemma quiet_unpack (E : Env) (repoPath : string) (u x : option string) (repoDir : string) :
  relates quiet_step (unpack E repoPath u x repoDir).
Proof. unfold unpack. repeat quiet_tac. Qed.

Lemma quiet_recordMetadata (E : Env) (jobId : string) (z : option string)
    (repoDir repoName : string) :
  relates quiet_step (recordMetadata E jobId z repoDir repoName).
Proof.
  unfold recordMetadata. repeat first [apply quiet_checkCancellation | quiet_tac].
Qed.

Lemma quiet_record_metrics (E : Env) (jobId : string) :
  relates quiet_step (record_metrics E jobId).
Proof. unfold record_metrics. repeat quiet_tac. Qed.

Lemma quiet_harvest (E : Env) (workDir repoDir : string) (exitCode : Z) :
  relates quiet_step (harvest E workDir repoDir exitCode).
Proof. apply quiet_same. intros w. unfold harvest. now destruct (Nat.eqb _ _). Qed.

Lemma quiet_copy_reports (E : Env) (jobReportDir : string) (reportFiles : list ReportFile) :
  forall acc, relates quiet_step (copy_reports E jobReportDir reportFiles acc).
Proof.
  induction reportFiles as [|rf rest IH]; intros acc; cbn [copy_reports].
  - now apply quiet_same.
  - apply quiet_bind; [apply quiet_fs_do; intros ?; discriminate|intros _; apply IH].
Qed.

Lemma quiet_persist (jobId : string) (found : ReportPaths) :
  relates quiet_step (persist jobId found).
Proof. unfold persist. repeat first [apply quiet_checkCancellation | quiet_tac]. Qed.

Lemma quiet_harvest_and_persist (E : Env) (jobId workDir jobReportDir repoDir : string)
    (exitCode : Z) :
  relates quiet_step (harvest_and_persist E jobId workDir jobReportDir repoDir exitCode).
Proof.
  unfold harvest_and_persist.
  apply quiet_bind; [apply quiet_harvest|intros reportFiles].
  apply quiet_bind; [apply quiet_copy_reports|intros found; apply quiet_persist].
Qed.

Lemma quiet_on_error (jobId : string) (error : thrown) :
  relates quiet_step (on_error jobId error).
Proof. unfold on_error. repeat quiet_tac. Qed.

Lemma quiet_cleanup (E : Env) (jobId : string) (u x : option string) (workDir : string) :
  relates quiet_step (cleanup E jobId u x workDir).
Proof. unfold cleanup. repeat quiet_tac. Qed.

(** [process.chdir(p)]: it moves the process to [p], or throws and leaves
    it where it was; it logs nothing and does not touch the mutex. *)
Lemma chdir_spec (E : Env) (p : string) (w : World) :
  warnings (fst (fs_do E (FsChdir p) w)) = warnings w
  /\ mutex_calls (fst (fs_do E (FsChdir p) w)) = mutex_calls w
  /\ ((snd (fs_do E (FsChdir p) w) = Ok tt /\ cwd (fst (fs_do E (FsChdir p) w)) = p)
      \/ ((exists e, snd (fs_do E (FsChdir p) w) = Throw e)
          /\ cwd (fst (fs_do E (FsChdir p) w)) = cwd w)).
Proof.
  unfold fs_do. destruct (fs_failure E (FsChdir p) w) as [e|]; cbn.
  - split; [reflexivity|]. split; [reflexivity|]. right. split; [now exists e|reflexivity].
  - split; [reflexivity|]. split; [reflexivity|]. left. now split.
Qed.

Section CriticalSection.

Variable E : Env.
Variables (jobId workDir originalCwd : string).

(** Lines 638-649: the [catch] around the agent. *)
Lemma restore_handler_spec (error : thrown) (w : World) :
  let after :=
    fst ((attempt "Failed to restore working directory on error"
            (fs_do E (FsChdir originalCwd)) ;;
          modify (log_mutex (Release (env_ticket E))) ;;
          record_metrics E jobId ;;
          throw (A := Z) error) w) in
  mutex_calls after = (mutex_calls w ++ [Release (env_ticket E)])%list
  /\ exists logged,
       warnings after = (warnings w ++ logged)%list
       /\ (cwd after = originalCwd
           \/ (cwd after = cwd w /\ exists e, In (restore_warning e) logged)).
Proof.
  intros after.
  destruct (chdir_spec E originalCwd w) as (Hw & Hm & Hc).
  assert (H1 : exists w1,
             attempt "Failed to restore working directory on error"
               (fs_do E (FsChdir originalCwd)) w = (w1, Ok tt)
             /\ mutex_calls w1 = mutex_calls w
             /\ exists logged,
                  warnings w1 = (warnings w ++ logged)%list
                  /\ (cwd w1 = originalCwd
                      \/ (cwd w1 = cwd w /\ exists e, In (restore_warning e) logged))).
  { unfold attempt, try_catch.
    destruct (fs_do E (FsChdir originalCwd) w) as [v [[]|e]]; cbn in *.
    - exists v. split; [reflexivity|]. split; [exact Hm|]. exists [].
      rewrite app_nil_r. split; [exact Hw|]. left.
      destruct Hc as [[_ Hc]|[[e He] _]]; [exact Hc|discriminate].
    - exists (log_warning (restore_warning e) v). split; [reflexivity|]. cbn.
      split; [exact Hm|].
      exists [restore_warning e]. split; [now rewrite Hw|]. right.
      split; [|exists e; now left].
      destruct Hc as [[Hc _]|[_ Hc]]; [discriminate|exact Hc]. }
  destruct H1 as (w1 & Heq & Hm1 & l1 & Hl1 & Hc1).
  destruct (quiet_record_metrics E jobId (log_mutex (Release (env_ticket E)) w1))
    as (Hc2 & Hm2 & l2 & Hl2).
  destruct (record_metrics E jobId (log_mutex (Release (env_ticket E)) w1))
    as [w2 r2] eqn:Hrm. cbn in Hc2, Hm2, Hl2.
  assert (Hafter : after = w2).
  { unfold after. rewrite (bind_Ok _ _ w w1 tt Heq).
    rewrite (bind_Ok _ _ w1 (log_mutex (Release (env_ticket E)) w1) tt); [|reflexivity].
    unfold bind. rewrite Hrm. now destruct r2 as [[]|e]. }
  rewrite Hafter.
  split; [now rewrite Hm2, Hm1|]. exists (l1 ++ l2)%list.
  split; [now rewrite Hl2, Hl1, app_assoc|]. rewrite Hc2.
  destruct Hc1 as [Hc1|[Hc1 [e He]]]; [now left|right].
  split; [exact Hc1|]. exists e. apply in_or_app. now left.
Qed.

(** Lines 497-636: the [try] around the agent.  The release callback has
    been invoked only if the working directory was restored before. *)
Lemma critical_body_spec (w : World) :
  cwd w = originalCwd ->
  let result :=
    (fs_do E (FsChdir workDir) ;;
     modify (fun w => set_paths (list_to_set (env_agentCreates E) ∪ paths w) w) ;;
     delete_request E jobId (env_deleteWhileRunning E) ;;
     processExitCode <- lift (child_settles (env_child E)) ;;
     fs_do E (FsChdir originalCwd) ;;
     modify (log_mutex (Release (env_ticket E))) ;;
     record_metrics E jobId ;;
     ret processExitCode) w in
  exists logged,
    warnings (fst result) = (warnings w ++ logged)%list
    /\ ((mutex_calls (fst result) = (mutex_calls w ++ [Release (env_ticket E)])%list
         /\ cwd (fst result) = originalCwd)
        \/ ((exists e, snd result = Throw e)
            /\ mutex_calls (fst result) = mutex_calls w
            /\ (cwd (fst result) = originalCwd \/ cwd (fst result) = workDir))).
Proof.
  intros Hcwd result.
  destruct (chdir_spec E workDir w) as (Hw1 & Hm1 & Hc1).
  destruct (fs_do E (FsChdir workDir) w) as [w1 [[]|e1]] eqn:H1;
    cbn in Hw1, Hm1, Hc1.
  2:{ assert (Hres : result = (w1, Throw e1))
        by (unfold result; now rewrite (bind_Throw _ _ w w1 e1 H1)).
      rewrite Hres. cbn. exists []. rewrite app_nil_r. split; [exact Hw1|]. right.
      split; [now exists e1|]. split; [exact Hm1|]. left.
      destruct Hc1 as [[Hc1 _]|[_ Hc1]]; [discriminate|congruence]. }
  assert (Hcw1 : cwd w1 = workDir)
    by (destruct Hc1 as [[_ Hc1]|[[e He] _]]; [exact Hc1|discriminate]).
  set (w2 := set_paths (list_to_set (env_agentCreates E) ∪ paths w1) w1).
  destruct (quiet_delete_request E jobId (env_deleteWhileRunning E) w2)
    as (Hc3 & Hm3 & l3 & Hl3).
  destruct (delete_request E jobId (env_deleteWhileRunning E) w2) as [w3 r3] eqn:H3.
  cbn in Hc3, Hm3, Hl3.
  assert (Hw3 : warnings w3 = (warnings w ++ l3)%list) by (now rewrite Hl3, <- Hw1).
  assert (Hmu3 : mutex_calls w3 = mutex_calls w) by (now rewrite Hm3, <- Hm1).
  assert (Hcw3 : cwd w3 = workDir) by (now rewrite Hc3).
  destruct r3 as [[]|e3].
  2:{ assert (Hres : result = (w3, Throw e3)).
      { unfold result. rewrite (bind_Ok _ _ w w1 tt H1).
        rewrite (bind_Ok _ _ w1 w2 tt); [|reflexivity].
        now rewrite (bind_Throw _ _ w2 w3 e3 H3). }
      rewrite Hres. cbn. exists l3. split; [exact Hw3|]. right.
      split; [now exists e3|]. split; [exact Hmu3|now right]. }
  destruct (child_settles (env_child E)) as [code|e4] eqn:H4.
  2:{ assert (Hres : result = (w3, Throw e4)).
      { unfold result. rewrite (bind_Ok _ _ w w1 tt H1).
        rewrite (bind_Ok _ _ w1 w2 tt); [|reflexivity].
        rewrite (bind_Ok _ _ w2 w3 tt H3).
        rewrite (bind_Throw _ _ w3 w3 e4); [reflexivity|].
        unfold lift. rewrite ?H4. reflexivity. }
      rewrite Hres. cbn. exists l3. split; [exact Hw3|]. right.
      split; [now exists e4|]. split; [exact Hmu3|now right]. }
  destruct (chdir_spec E originalCwd w3) as (Hw5 & Hm5 & Hc5).
  destruct (fs_do E (FsChdir originalCwd) w3) as [w5 [[]|e5]] eqn:H5;
    cbn in Hw5, Hm5, Hc5.
  2:{ assert (Hres : result = (w5, Throw e5)).
      { unfold result. rewrite (bind_Ok _ _ w w1 tt H1).
        rewrite (bind_Ok _ _ w1 w2 tt); [|reflexivity].
        rewrite (bind_Ok _ _ w2 w3 tt H3).
        rewrite (bind_Ok _ _ w3 w3 code); [|unfold lift; rewrite ?H4; reflexivity].
        now rewrite (bind_Throw _ _ w3 w5 e5 H5). }
      rewrite Hres. cbn. exists l3. split; [now rewrite Hw5|]. right.
      split; [now exists e5|]. split; [now rewrite Hm5|]. right.
      destruct Hc5 as [[Hc5 _]|[_ Hc5]]; [discriminate|congruence]. }
  assert (Hcw5 : cwd w5 = originalCwd)
    by (destruct Hc5 as [[_ Hc5]|[[e He] _]]; [exact Hc5|discriminate]).
  destruct (quiet_record_metrics E jobId (log_mutex (Release (env_ticket E)) w5))
    as (Hc7 & Hm7 & l7 & Hl7).
  destruct (record_metrics E jobId (log_mutex (Release (env_ticket E)) w5))
    as [w7 r7] eqn:H7. cbn in Hc7, Hm7, Hl7.
  assert (Hres : fst result = w7).
  { unfold result. rewrite (bind_Ok _ _ w w1 tt H1).
    rewrite (bind_Ok _ _ w1 w2 tt); [|reflexivity].
    rewrite (bind_Ok _ _ w2 w3 tt H3).
    rewrite (bind_Ok _ _ w3 w3 code); [|unfold lift; rewrite ?H4; reflexivity].
    rewrite (bind_Ok _ _ w3 w5 tt H5).
    rewrite (bind_Ok _ _ w5 (log_mutex (Release (env_ticket E)) w5) tt); [|reflexivity].
    unfold bind. rewrite H7. now destruct r7 as [[]|e7]. }
  rewrite Hres. exists (l3 ++ l7)%list.
  split; [rewrite Hl7; cbn; rewrite Hw5, Hw3; now rewrite app_assoc|].
  left. split; [rewrite Hm7; cbn; now rewrite Hm5, Hmu3|now rewrite Hc7].
Qed.

End CriticalSection.

Lemma delete_request_returns (E : Env) (jobId : string) (by_user : option nat) (w : World) :
  snd (delete_request E jobId by_user w) = Ok tt.
Proof.
  unfold delete_request. destruct by_user as [userId|]; [|reflexivity].
  destruct (deleteRoute_effect E jobId userId w) as (w' & code & Heq & _).
  unfold bind. now rewrite Heq.
Qed.

(** Lines 484-667: the lock is asked for, and released on every path. *)
Lemma runAgent_critical (E : Env) (jobId workDir : string) :
  relates (critical_step (env_ticket E) workDir) (runAgent E jobId workDir).
Proof.
  intros w. unfold runAgent.
  set (w1 := log_mutex (Acquire (env_ticket E)) w).
  rewrite (bind_Ok _ _ w w1 tt); [|reflexivity].
  destruct (quiet_delete_request E jobId (env_deleteWhileQueued E) w1)
    as (Hc2 & Hm2 & l2 & Hl2).
  pose proof (delete_request_returns E jobId (env_deleteWhileQueued E) w1) as Hr2.
  destruct (delete_request E jobId (env_deleteWhileQueued E) w1) as [w2 r2] eqn:H2.
  cbn in Hc2, Hm2, Hl2, Hr2. subst r2.
  rewrite (bind_Ok _ _ w1 w2 tt H2).
  rewrite (bind_Ok _ _ w2 w2 (cwd w2)); [|reflexivity].
  pose proof (critical_body_spec E jobId workDir (cwd w2) w2 eq_refl) as Hbody.
  cbv zeta in Hbody. unfold try_catch.
  match type of Hbody with
  | context [fst (?b w2)] => destruct (b w2) as [w3 r3] eqn:H3
  end.
  cbn in Hbody. destruct Hbody as (l3 & Hl3 & Hcase).
  assert (Hm1 : mutex_calls w2 = (mutex_calls w ++ [Acquire (env_ticket E)])%list)
    by now rewrite Hm2.
  assert (Hcw : cwd w2 = cwd w) by now rewrite Hc2.
  assert (Hw2 : warnings w2 = (warnings w ++ l2)%list) by now rewrite Hl2.
  destruct r3 as [code|e3].
  - cbn. destruct Hcase as [[Hm3 Hc3]|[[e He] _]]; [|discriminate].
    split.
    + left. rewrite Hm3, Hm1. now rewrite <- app_assoc.
    + exists (l2 ++ l3)%list. split; [now rewrite Hl3, Hw2, app_assoc|].
      left. now rewrite Hc3.
  - pose proof (restore_handler_spec E jobId (cwd w2) e3 w3) as Hh.
    cbv zeta in Hh. destruct Hh as (Hm4 & l4 & Hl4 & Hc4).
    match type of Hm4 with
    | mutex_calls (fst ?x) = _ => set (final := fst x) in *
    end.
    change (critical_step (env_ticket E) workDir w final).
    split.
    + destruct Hcase as [[Hm3 _]|[_ [Hm3 _]]]; rewrite Hm4, Hm3, Hm1.
      * right. now rewrite <- !app_assoc.
      * left. now rewrite <- app_assoc.
    + exists (l2 ++ l3 ++ l4)%list.
      split; [rewrite Hl4, Hl3, Hw2; now rewrite !app_assoc|].
      destruct Hc4 as [Hc4|[Hc4 [e He]]]; [left; congruence|].
      destruct Hcase as [[_ Hc3]|[_ [_ [Hc3|Hc3]]]].
      * left. congruence.
      * left. congruence.
      * right. split; [congruence|]. exists e.
        apply in_or_app. right. apply in_or_app. now right.
Qed.

Lemma run_after_quiet (t : nat) (workDir : string) (w1 w2 w3 : World) :
  quiet_step w1 w2 -> run_step t workDir w2 w3 -> run_step t workDir w1 w3.
Proof.
  intros Hq [Hr|Hr]; [left; now apply (quiet_trans w1 w2 w3)|right].
  destruct Hq as (Hc1 & Hm1 & l1 & Hl1). destruct Hr as (Hm & l & Hl & Hc).
  split; [now rewrite <- Hm1|]. exists (l1 ++ l)%list.
  split; [now rewrite Hl, Hl1, app_assoc|]. rewrite <- Hc1.
  destruct Hc as [Hc|[Hc [e He]]]; [now left|right].
  split; [exact Hc|]. exists e. apply in_or_app. now right.
Qed.

Lemma quiet_after_run (t : nat) (workDir : string) (w1 w2 w3 : World) :
  run_step t workDir w1 w2 -> quiet_step w2 w3 -> run_step t workDir w1 w3.
Proof.
  intros [Hr|Hr] Hq; [left; now apply (quiet_trans w1 w2 w3)|right].
  destruct Hq as (Hc2 & Hm2 & l2 & Hl2). destruct Hr as (Hm & l & Hl & Hc).
  split; [now rewrite Hm2|]. exists (l ++ l2)%list.
  split; [now rewrite Hl2, Hl, app_assoc|]. rewrite Hc2.
  destruct Hc as [Hc|[Hc [e He]]]; [now left|right].
  split; [exact Hc|]. exists e. apply in_or_app. now left.
Qed.

Lemma run_bind_quiet_first {A B} (t : nat) (workDir : string) (m : M A) (k : A -> M B) :
  relates quiet_step m -> (forall a, relates (run_step t workDir) (k a)) ->
  relates (run_step t workDir) (bind m k).
Proof.
  intros Hm Hk w. unfold bind. specialize (Hm w).
  destruct (m w) as [w1 [a|e]]; cbn in *; [|now left].
  exact (run_after_quiet t workDir _ _ _ Hm (Hk a w1)).
Qed.

Lemma run_bind_quiet_last {A B} (t : nat) (workDir : string) (m : M A) (k : A -> M B) :
  relates (run_step t workDir) m -> (forall a, relates quiet_step (k a)) ->
  relates (run_step t workDir) (bind m k).
Proof.
  intros Hm Hk w. unfold bind. specialize (Hm w).
  destruct (m w) as [w1 [a|e]]; cbn in *; [|exact Hm].
  exact (quiet_after_run t workDir _ _ _ Hm (Hk a w1)).
Qed.

(** The whole run: quiet steps around at most one pass through the
    critical section. *)
Lemma process_run_step (E : Env) (jobId repoPath : string)
    (u x z : option string) (w0 : World) :
  run_step (env_ticket E) (workDir_of jobId w0) w0
    (fst (processThreatModelingJob E jobId repoPath u x z w0)).
Proof.
  assert (Hbody : relates (run_step (env_ticket E) (workDir_of jobId w0))
                    (try_block E jobId repoPath u x z w0)).
  { unfold try_block, job_body.
    apply run_bind_quiet_last; [|intros reached; apply quiet_harvest_and_persist].
    unfold run_until_harvest.
    apply run_bind_quiet_first; [apply quiet_prepare|intros _].
    apply run_bind_quiet_first; [apply quiet_determineRepoName|intros repoName].
    cbv zeta.
    apply run_bind_quiet_first; [apply quiet_unpack|intros _].
    apply run_bind_quiet_first; [apply quiet_recordMetadata|intros _].
    apply run_bind_quiet_last; [|intros code; now apply quiet_same].
    intros w. right. apply runAgent_critical. }
  unfold processThreatModelingJob, try_finally.
  set (w1 := register jobId u x w0).
  assert (H1 : quiet_step w0 w1).
  { unfold w1, register, quiet_step. cbn. repeat split. exists []. now rewrite app_nil_r. }
  assert (H2 : run_step (env_ticket E) (workDir_of jobId w0) w1
                 (fst (try_catch (try_block E jobId repoPath u x z w0)
                         (on_error jobId) w1))).
  { unfold try_catch. specialize (Hbody w1).
    destruct (try_block E jobId repoPath u x z w0 w1) as [w2 [[]|e]]; cbn in *;
      [exact Hbody|].
    exact (quiet_after_run _ _ _ _ _ Hbody (quiet_on_error jobId e w2)). }
  destruct (try_catch (try_block E jobId repoPath u x z w0) (on_error jobId) w1)
    as [w2 r2]. cbn in H2.
  pose proof (quiet_cleanup E jobId u x (workDir_of jobId w0) w2) as H3.
  destruct (cleanup E jobId u x (workDir_of jobId w0) w2) as [w3 [[]|e]]; cbn in *;
    exact (run_after_quiet _ _ _ _ _ H1 (quiet_after_run _ _ _ _ _ H2 H3)).
Qed.

(** X26.  A run never keeps the mutex: whatever happens, it either does
    not reach the critical section and calls nothing on the mutex, or it
    calls [acquire] once and then invokes the release callback it was
    given, once or (when the metrics update fails after the first release)
    twice. *)
Theorem run_releases_the_mutex
    (E : Env) (jobId repoPath : string)
    (uploadedZipPath extractedDir zipFileName : option string) (w0 : World) :
  let t := env_ticket E in
  let calls := mutex_calls (fst (processThreatModelingJob E jobId repoPath
                                   uploadedZipPath extractedDir zipFileName w0)) in
  calls = mutex_calls w0
  \/ calls = (mutex_calls w0 ++ [Acquire t; Release t])%list
  \/ calls = (mutex_calls w0 ++ [Acquire t; Release t; Release t])%list.
Proof.
  cbv zeta.
  destruct (process_run_step E jobId repoPath uploadedZipPath extractedDir zipFileName w0)
    as [(_ & Hm & _)|([Hm|Hm] & _)]; tauto.
Qed.

(* --------------------------------------------------------------------- *)
(** ** The cleanup of orphaned uploads                                    *)
(* --------------------------------------------------------------------- *)

Lemma tidy_refl (P : FsOp -> Prop) (w : World) : tidy_step P w w.
Proof.
  repeat (split; [reflexivity|]). try (split; [set_solver|]).
  exists []. split; [now rewrite app_nil_r|constructor].
Qed.

Lemma tidy_trans (P : FsOp -> Prop) (w1 w2 w3 : World) :
  tidy_step P w1 w2 -> tidy_step P w2 w3 -> tidy_step P w1 w3.
Proof.
  intros (Ha1 & Hb1 & Hc1 & Hd1 & He1 & Hf1 & Hg1 & Hp1 & l1 & I1 & J1)
         (Ha2 & Hb2 & Hc2 & Hd2 & He2 & Hf2 & Hg2 & Hp2 & l2 & I2 & J2).
  repeat (split; [congruence|]). split; [now transitivity (paths w2)|].
  exists (l1 ++ l2)%list. split; [now rewrite I2, I1, app_assoc|].
  apply Forall_app. now split.
Qed.

Lemma tidy_weaken (P Q : FsOp -> Prop) (w w' : World) :
  (forall op, P op -> Q op) -> tidy_step P w w' -> tidy_step Q w w'.
Proof.
  intros HPQ (Ha1 & Hb1 & Hc1 & Hd1 & He1 & Hf1 & Hg1 & Hp1 & l1 & I1 & J1).
  repeat (split; [assumption|]). exists l1. split; [assumption|].
  eapply Forall_impl; [exact J1|]. intros call. apply HPQ.
Qed.

Lemma tidy_bind {A B} (P : FsOp -> Prop) (m : M A) (k : A -> M B) :
  relates (tidy_step P) m -> (forall a, relates (tidy_step P) (k a)) ->
  relates (tidy_step P) (bind m k).
Proof. apply relates_bind. apply tidy_trans. Qed.

Lemma tidy_same {A} (P : FsOp -> Prop) (m : M A) :
  (forall w, fst (m w) = w) -> relates (tidy_step P) m.
Proof. intros H w. rewrite H. apply tidy_refl. Qed.

Lemma tidy_warn (P : FsOp -> Prop) (what : string) (e : thrown) :
  relates (tidy_step P) (warn what e).
Proof.
  intros w. cbn. repeat (split; [reflexivity|]). try (split; [set_solver|]).
  exists []. split; [now rewrite app_nil_r|constructor].
Qed.

Lemma tidy_attempt (P : FsOp -> Prop) (what : string) (m : M unit) :
  relates (tidy_step P) m -> relates (tidy_step P) (attempt what m).
Proof.
  intros H. apply relates_try_catch; [apply tidy_trans|exact H|].
  intros e. apply tidy_warn.
Qed.

Lemma tidy_when (P : FsOp -> Prop) (b : bool) (m : M unit) :
  (b = true -> relates (tidy_step P) m) -> relates (tidy_step P) (when_ b m).
Proof. intros H. destruct b; [now apply H|]. now apply tidy_same. Qed.

(** A removal takes paths away and is recorded, whether it succeeds or not. *)
Lemma tidy_removal (E : Env) (P : FsOp -> Prop) (op : FsOp) :
  (exists p, op = FsRm p \/ op = FsUnlink p) -> P op ->
  relates (tidy_step P) (fs_do E op).
Proof.
  intros [p Hop] HP w. unfold fs_do.
  assert (Hfail : fs_failure E op w = env_fs_fails E op).
  { unfold fs_failure. destruct (env_fs_fails E op); [reflexivity|].
    now destruct Hop as [-> | ->]. }
  rewrite Hfail. destruct (env_fs_fails E op) as [e|]; cbn.
  - repeat (split; [reflexivity|]). try (split; [set_solver|]).
    exists [(op, false)]. split; [reflexivity|]. now repeat constructor.
  - assert (Hw : forall v : World,
               match op with FsChdir q => set_cwd q v | _ => v end = v)
      by (intros v; now destruct Hop as [-> | ->]).
    rewrite Hw. cbn. repeat (split; [reflexivity|]). split.
    + intros q Hq. destruct Hop as [-> | ->]; cbn in Hq.
      * now apply elem_of_filter in Hq as [_ Hq].
      * now apply elem_of_difference in Hq as [Hq _].
    + exists [(op, true)]. split; [reflexivity|]. now repeat constructor.
Qed.

Lemma tidy_statSync (U : UploadsDisk) (P : FsOp -> Prop) (p : string) :
  relates (tidy_step P) (statSync U p).
Proof.
  apply tidy_same. intros w. unfold statSync. now destruct (ud_stat_fails U p).
Qed.

Lemma attempt_returns (what : string) (m : M unit) (w : World) :
  snd (attempt what m w) = Ok tt.
Proof.
  unfold attempt, try_catch. now destruct (m w) as [w' [[]|e]].
Qed.

Lemma for_each_tidy {A} (P : FsOp -> Prop) (body : A -> M unit) (l : list A) :
  (forall x, In x l -> relates (tidy_step P) (body x)) ->
  relates (tidy_step P) (for_each body l).
Proof.
  induction l as [|x rest IH]; intros H; cbn [for_each].
  - now apply tidy_same.
  - apply tidy_bind; [apply H; now left|].
    intros _. apply IH. intros y Hy. apply H. now right.
Qed.

Lemma for_each_returns {A} (body : A -> M unit) (l : list A) :
  (forall x w, snd (body x w) = Ok tt) ->
  forall w, snd (for_each body l w) = Ok tt.
Proof.
  intros H. induction l as [|x rest IH]; intros w; cbn [for_each]; [reflexivity|].
  unfold bind. specialize (H x w). destruct (body x w) as [w1 r]. cbn in H. subst r.
  apply IH.
Qed.

(** A loop whose steps all return and are tidy reaches each of its
    elements, and what a step establishes about the paths that are gone
    lasts to the end of the loop. *)
Lemma for_each_reaches {A} (body : A -> M unit) (l : list A) (x : A)
    (gone : World -> Prop) :
  (forall y w, snd (body y w) = Ok tt) ->
  (forall y, relates (tidy_step (fun _ => True)) (body y)) ->
  (forall w1 w2, gone w1 -> tidy_step (fun _ => True) w1 w2 -> gone w2) ->
  In x l -> (forall w, gone (fst (body x w))) ->
  forall w, gone (fst (for_each body l w)).
Proof.
  intros Hret Htidy Hstable Hin Hx.
  induction l as [|y rest IH]; [destruct Hin|]. intros w. cbn [for_each]. unfold bind.
  pose proof (Hret y w) as Hr. pose proof (Hx w) as Hg.
  destruct (body y w) as [w1 r] eqn:Hy. cbn in Hr. subst r.
  destruct Hin as [->|Hin].
  - rewrite Hy in Hg. cbn in Hg.
    apply (Hstable w1); [exact Hg|].
    apply for_each_tidy. intros z _. apply Htidy.
  - now apply IH.
Qed.

(** The test for a hash name never decides: such a name has no dot. *)
Lemma hash_name_has_no_dot (name : string) :
  is_hash_name name = true -> includes name "." = false.
Proof.
  unfold is_hash_name. intros H. apply andb_prop in H as [_ H].
  induction name as [|c rest IH]; [reflexivity|].
  cbn in H. apply andb_prop in H as [Hc Hrest].
  cbn [includes startsWith]. rewrite (IH Hrest), orb_false_r.
  destruct (Ascii.eqb_spec c "."%char) as [->|_]; [discriminate Hc|reflexivity].
Qed.

Lemma remove_orphan_step (E : Env) (U : UploadsDisk) (subdirPath : string)
    (entry : string * FileKind) :
  relates
    (tidy_step (fun op =>
       (snd entry = KDirectory /\ startsWith (fst entry) "extracted-" = true
        /\ op = FsRm (path_join [subdirPath; fst entry]))
       \/ (snd entry = KFile /\ includes (fst entry) "." = false
           /\ op = FsUnlink (path_join [subdirPath; fst entry]))))
    (remove_orphan E U subdirPath entry).
Proof.
  unfold remove_orphan. cbv zeta. apply tidy_attempt.
  destruct (snd entry) eqn:Hkind.
  - apply tidy_when. intros Hcond.
    apply tidy_bind; [apply tidy_statSync|intros _].
    apply tidy_removal; [eexists; now right|]. right.
    split; [reflexivity|]. split; [|reflexivity].
    apply orb_prop in Hcond as [Hdot|Hhash].
    + now apply negb_true_iff in Hdot.
    + now apply hash_name_has_no_dot.
  - apply tidy_when. intros Hcond.
    apply tidy_removal; [eexists; now left|]. now left.
  - now apply tidy_same.
Qed.

Lemma remove_root_orphan_step (E : Env) (U : UploadsDisk) (uploadsDir : string)
    (entry : string * FileKind) :
  relates
    (tidy_step (fun op =>
       snd entry = KFile /\ fst entry <> "threat-modeling"
       /\ op = FsUnlink (path_join [uploadsDir; fst entry])))
    (remove_root_orphan E U uploadsDir entry).
Proof.
  unfold remove_root_orphan. cbv zeta. cbn [existsb subdirs]. rewrite orb_false_r.
  destruct (String.eqb_spec (fst entry) "threat-modeling") as [Heq|Hne];
    [now apply tidy_same|].
  apply tidy_attempt. destruct (snd entry) eqn:Hkind; try now apply tidy_same.
  apply tidy_bind; [apply tidy_statSync|intros _].
  apply tidy_removal; [eexists; now right|]. repeat split. exact Hne.
Qed.

Lemma remove_orphan_returns (E : Env) (U : UploadsDisk) (subdirPath : string)
    (entry : string * FileKind) (w : World) :
  snd (remove_orphan E U subdirPath entry w) = Ok tt.
Proof. apply attempt_returns. Qed.

Lemma remove_root_orphan_returns (E : Env) (U : UploadsDisk) (uploadsDir : string)
    (entry : string * FileKind) (w : World) :
  snd (remove_root_orphan E U uploadsDir entry w) = Ok tt.
Proof.
  unfold remove_root_orphan. cbv zeta.
  destruct (existsb _ _); [reflexivity|apply attempt_returns].
Qed.

(** The sweep of [uploads/threat-modeling], lines 130-172. *)
Lemma sweep_subdir_step (E : Env) (U : UploadsDisk) (cwd0 : string) :
  let subdirPath := path_join [path_join [cwd0; "uploads"]; "threat-modeling"] in
  relates (tidy_step (cleanup_target U cwd0))
    (attempt "Error reading threat-modeling directory"
       (entries <- readdir_withFileTypes U subdirPath ;;
        for_each (remove_orphan E U subdirPath) entries)).
Proof.
  intros subdirPath. apply tidy_attempt. intros w.
  unfold bind, readdir_withFileTypes, lift.
  destruct (ud_readdir U subdirPath) as [entries|e] eqn:Hdir; [|apply tidy_refl].
  apply for_each_tidy. intros [name kind] Hin v.
  eapply tidy_weaken; [|apply remove_orphan_step].
  cbn. intros op [(-> & Hstart & ->)|(-> & Hdot & ->)].
  - left. now exists name, entries.
  - right. left. now exists name, entries.
Qed.

(** The sweep of [uploads] itself, lines 175-199. *)
Lemma sweep_root_step (E : Env) (U : UploadsDisk) (cwd0 : string) :
  let uploadsDir := path_join [cwd0; "uploads"] in
  relates (tidy_step (cleanup_target U cwd0))
    (attempt "Error reading uploads directory"
       (rootEntries <- readdir_withFileTypes U uploadsDir ;;
        for_each (remove_root_orphan E U uploadsDir) rootEntries)).
Proof.
  intros uploadsDir. apply tidy_attempt. intros w.
  unfold bind, readdir_withFileTypes, lift.
  destruct (ud_readdir U uploadsDir) as [entries|e] eqn:Hdir; [|apply tidy_refl].
  apply for_each_tidy. intros [name kind] Hin v.
  eapply tidy_weaken; [|apply remove_root_orphan_step].
  cbn. intros op (-> & Hne & ->).
  right. right. now exists name, entries.
Qed.

(** The function, with its reads of the world resolved. *)
Lemma cleanupOrphanedUploads_unfold (E : Env) (U : UploadsDisk) (w : World) :
  let uploadsDir := path_join [cwd w; "uploads"] in
  let subdirPath := path_join [uploadsDir; "threat-modeling"] in
  cleanupOrphanedUploads E U w
  = if bool_decide (uploadsDir ∈ paths w) then
      ((if bool_decide (subdirPath ∈ paths w) then
          attempt "Error reading threat-modeling directory"
            (entries <- readdir_withFileTypes U subdirPath ;;
             for_each (remove_orphan E U subdirPath) entries)
        else ret tt) ;;
       attempt "Error reading uploads directory"
         (rootEntries <- readdir_withFileTypes U uploadsDir ;;
          for_each (remove_root_orphan E U uploadsDir) rootEntries)) w
    else (w, Ok tt).
Proof.
  cbv zeta. unfold cleanupOrphanedUploads.
  unfold bind at 1. unfold read at 1. cbv iota beta.
  unfold bind at 1. unfold path_exists at 1, read at 1. cbv iota beta.
  destruct (bool_decide (path_join [cwd w; "uploads"] ∈ paths w)); [|reflexivity].
  cbn [negb for_each subdirs].
  set (sub := path_join [path_join [cwd w; "uploads"]; "threat-modeling"]).
  unfold bind at 1. unfold bind at 1. unfold bind at 1.
  unfold path_exists at 1, read at 1. cbv iota beta.
  destruct (bool_decide (sub ∈ paths w)); cbn [negb].
  - change ("Error reading " ++ "threat-modeling" ++ " directory")
      with "Error reading threat-modeling directory".
    unfold bind at 3.
    destruct (attempt _ _ w) as [w1 [[]|e]]; reflexivity.
  - reflexivity.
Qed.



Lemma gone_lasts (dir : string) (w1 w2 : World) :
  (forall p, inside_dir dir p = true -> p ∉ paths w1) ->
  tidy_step (fun _ => True) w1 w2 ->
  forall p, inside_dir dir p = true -> p ∉ paths w2.
Proof.
  intros Hgone (_ & _ & _ & _ & _ & _ & _ & Hsub & _) p Hp Hin.
  apply (Hgone p Hp). now apply Hsub.
Qed.

Lemma removed_lasts (file : string) (w1 w2 : World) :
  file ∉ paths w1 -> tidy_step (fun _ => True) w1 w2 -> file ∉ paths w2.
Proof.
  intros Hgone (_ & _ & _ & _ & _ & _ & _ & Hsub & _) Hin.
  apply Hgone. now apply Hsub.
Qed.

Lemma tidy_any (P : FsOp -> Prop) (w w' : World) :
  tidy_step P w w' -> tidy_step (fun _ => True) w w'.
Proof. apply tidy_weaken. trivial. Qed.

(** X29.  The cleanup does not ask whether an upload belongs to a job that
    is still running.  When [uploads/threat-modeling] exists and can be
    listed, every directory [extracted-*] listed in it is removed with all
    it holds unless [rmSync] throws, and every listed file without a dot in
    its name (the name of an uploaded archive) is removed unless [statSync]
    or [unlinkSync] throws; the [runningJobs] map is left as it is, so a run
    registered with such an upload stays registered without it. *)
Theorem cleanupOrphanedUploads_spares_no_running_job
    (E : Env) (U : UploadsDisk) (w : World) (entries : list (string * FileKind)) :
  let uploadsDir := path_join [cwd w; "uploads"] in
  let subdirPath := path_join [uploadsDir; "threat-modeling"] in
  uploadsDir ∈ paths w -> subdirPath ∈ paths w ->
  ud_readdir U subdirPath = Ok entries ->
  let w' := fst (cleanupOrphanedUploads E U w) in
  (forall name,
     In (name, KDirectory) entries -> startsWith name "extracted-" = true ->
     env_fs_fails E (FsRm (path_join [subdirPath; name])) = None ->
     forall p, inside_dir (path_join [subdirPath; name]) p = true -> p ∉ paths w')
  /\ (forall name,
        In (name, KFile) entries -> includes name "." = false ->
        ud_stat_fails U (path_join [subdirPath; name]) = None ->
        env_fs_fails E (FsUnlink (path_join [subdirPath; name])) = None ->
        path_join [subdirPath; name] ∉ paths w')
  /\ runningJobs w' = runningJobs w.
Proof.
  intros uploadsDir subdirPath Hup Hsub Hdir w'.
  assert (Hw' : w' = fst ((attempt "Error reading threat-modeling directory"
                             (entries <- readdir_withFileTypes U subdirPath ;;
                              for_each (remove_orphan E U subdirPath) entries) ;;
                           attempt "Error reading uploads directory"
                             (rootEntries <- readdir_withFileTypes U uploadsDir ;;
                              for_each (remove_root_orphan E U uploadsDir) rootEntries)) w)).
  { unfold w'. rewrite cleanupOrphanedUploads_unfold. cbv zeta.
    fold uploadsDir. fold subdirPath.
    now rewrite (bool_decide_eq_true_2 _ Hup), (bool_decide_eq_true_2 _ Hsub). }
  assert (Hsweep : forall gone : World -> Prop,
             (forall w1 w2, gone w1 -> tidy_step (fun _ => True) w1 w2 -> gone w2) ->
             (exists x, In x entries
                        /\ forall v, gone (fst (remove_orphan E U subdirPath x v))) ->
             gone w').
  { intros gone Hstable (x & Hin & Hx). rewrite Hw'. unfold bind at 1.
    pose proof (attempt_returns "Error reading threat-modeling directory"
                  (entries <- readdir_withFileTypes U subdirPath ;;
                   for_each (remove_orphan E U subdirPath) entries) w) as Hr.
    assert (Hg : gone (fst (attempt "Error reading threat-modeling directory"
                              (entries <- readdir_withFileTypes U subdirPath ;;
                               for_each (remove_orphan E U subdirPath) entries) w))).
    { unfold attempt, try_catch, bind at 1, readdir_withFileTypes, lift. rewrite Hdir.
      pose proof (for_each_returns (remove_orphan E U subdirPath) entries
                    (remove_orphan_returns E U subdirPath) w) as Hloop.
      pose proof (for_each_reaches (remove_orphan E U subdirPath) entries x gone
                    (remove_orphan_returns E U subdirPath)
                    (fun y v => tidy_any _ _ _ (remove_orphan_step E U subdirPath y v))
                    Hstable Hin Hx w) as Hgone.
      destruct (for_each (remove_orphan E U subdirPath) entries w) as [w1 r].
      cbn in Hloop. subst r. exact Hgone. }
    destruct (attempt "Error reading threat-modeling directory" _ w) as [w1 r].
    cbn in Hr, Hg. subst r.
    apply (Hstable w1); [exact Hg|].
    apply (tidy_any (cleanup_target U (cwd w))). apply sweep_root_step. }
  split; [|split].
  - intros name Hin Hstart Hrm.
    apply (Hsweep (fun v => forall p, inside_dir (path_join [subdirPath; name]) p = true ->
                                      p ∉ paths v)).
    + intros w1 w2. apply gone_lasts.
    + exists (name, KDirectory). split; [exact Hin|]. intros v p Hp.
      unfold remove_orphan, attempt, try_catch. cbn [fst snd]. rewrite Hstart.
      unfold when_, fs_do, fs_failure. rewrite Hrm. cbn.
      intros Hmem. apply elem_of_filter in Hmem as [Hout _]. congruence.
  - intros name Hin Hdot Hstat Hrm.
    apply (Hsweep (fun v => path_join [subdirPath; name] ∉ paths v)).
    + intros w1 w2. apply removed_lasts.
    + exists (name, KFile). split; [exact Hin|]. intros v.
      unfold remove_orphan, attempt, try_catch. cbn [fst snd]. rewrite Hdot.
      unfold when_, bind, statSync, fs_do, fs_failure. cbn [negb orb].
      rewrite Hstat, Hrm. cbn. intros Hmem.
      apply elem_of_difference in Hmem as [_ Hout]. apply Hout. now apply elem_of_singleton.
  - rewrite Hw'.
    assert (Hall : relates (tidy_step (cleanup_target U (cwd w)))
                (attempt "Error reading threat-modeling directory"
                   (entries <- readdir_withFileTypes U subdirPath ;;
                    for_each (remove_orphan E U subdirPath) entries) ;;
                 attempt "Error reading uploads directory"
                   (rootEntries <- readdir_withFileTypes U uploadsDir ;;
                    for_each (remove_root_orphan E U uploadsDir) rootEntries))).
    { apply tidy_bind; [apply sweep_subdir_step|intros _; apply sweep_root_step]. }
    destruct (Hall w) as (_ & _ & Hrun & _). exact Hrun.
Qed.

Lemma cleanupOrphanedUploads_spares_no_running_job_witness :
  ("/app/backend/uploads/threat-modeling/extracted-f3a9"
     ∉ paths (fst (cleanupOrphanedUploads sample_env sample_uploads_disk
                     sample_uploads_world)))
  /\ runningJobs sample_uploads_world !! "job-1"
     = Some {| rj_workDir := "/app/backend/work_dir/job-1";
               rj_uploadedZipPath := sample_zip;
               rj_extractedDir := sample_extracted |}.
Proof.
  split; [|reflexivity].
  refine (proj1 (cleanupOrphanedUploads_spares_no_running_job
                   sample_env sample_uploads_disk sample_uploads_world
                   [("f3a9", KFile); ("extracted-f3a9", KDirectory)] _ _ eq_refl)
            "extracted-f3a9" _ eq_refl eq_refl
            "/app/backend/uploads/threat-modeling/extracted-f3a9" eq_refl).
  - refine (bool_decide_unpack _ _). vm_compute. exact I.
  - refine (bool_decide_unpack _ _). vm_compute. exact I.
  - right. now left.
Defined.
